(** * Verification of the macro-F1 grading harness (grader/grade.py)

    A shallow embedding of the grader: Python values and their [==],
    the label normalizer, the reference macro-F1 engine, the candidate
    oracle [run_case] with its mutation guard, the start-up checks and the
    fixed test battery driven by [main].  The four stored solutions
    (runs/trial_NN/solution.py) and the evaluation driver
    (evaluate_with_claude.py: the code-block pattern, [extract_code] and
    the trial loop) follow at the end.

    Conventions.
    - A raised Python exception is the left injection of [result].
    - Code that prints, calls the candidate or exits runs in the monad
      [proc]; [sys.exit n] raises [SystemExit] carrying [n], exactly as in
      Python, so that [except Exception] does not intercept it.
    - Python floats are rationals, infinities or NaN objects.  Every float
      operation rounds its exact result with the host's rounding operator
      [rnd], of which only the laws of [Host] are used.  [binary64_host]
      is IEEE 754 round-to-nearest-even, [exact_host] real arithmetic. *)

From Stdlib Require Import ZArith QArith Qabs Qround Qpower Qreduction Qcanon
  List String Ascii Bool Lia Lqa Permutation Arith.
Import ListNotations.
Open Scope Z_scope.
Set Warnings "-register-all".

(** ** Exceptions *)

(** The part of Python's exception hierarchy the grader can meet. *)
Inductive exc_class :=
| BaseException | SystemExit | KeyboardInterrupt | Exception
| ValueError | UnicodeError | TypeError | ArithmeticError | OverflowError
| ZeroDivisionError | OSError | SyntaxError | ImportError | RuntimeError.

Definition exc_class_eqb (a b : exc_class) : bool :=
  match a, b with
  | BaseException, BaseException | SystemExit, SystemExit
  | KeyboardInterrupt, KeyboardInterrupt | Exception, Exception
  | ValueError, ValueError | UnicodeError, UnicodeError
  | TypeError, TypeError | ArithmeticError, ArithmeticError
  | OverflowError, OverflowError | ZeroDivisionError, ZeroDivisionError
  | OSError, OSError | SyntaxError, SyntaxError
  | ImportError, ImportError | RuntimeError, RuntimeError => true
  | _, _ => false
  end.

(** Direct base class. *)
Definition exc_base (c : exc_class) : option exc_class :=
  match c with
  | BaseException => None
  | SystemExit | KeyboardInterrupt | Exception => Some BaseException
  | ValueError | TypeError | ArithmeticError | OSError | SyntaxError
  | ImportError | RuntimeError => Some Exception
  | UnicodeError => Some ValueError
  | OverflowError | ZeroDivisionError => Some ArithmeticError
  end.

Fixpoint issubclass_fuel (fuel : nat) (c d : exc_class) : bool :=
  exc_class_eqb c d ||
  match fuel with
  | O => false
  | S k => match exc_base c with
           | Some b => issubclass_fuel k b d
           | None => false
           end
  end.

(** The hierarchy above has depth 4. *)
Definition issubclass (c d : exc_class) : bool := issubclass_fuel 4 c d.

(** An exception object: its class and, for [SystemExit], the exit code. *)
Record exn := mkExn { exn_class : exc_class; exn_code : Z }.

Definition exc (c : exc_class) : exn := mkExn c 0.
Definition isinstance_exn (e : exn) (c : exc_class) : bool :=
  issubclass (exn_class e) c.

(** [result A]: a computation that returns an [A] or raises. *)
Definition result (A : Type) : Type := (exn + A)%type.
Definition ok {A} (a : A) : result A := inr a.
Definition raise {A} (e : exn) : result A := inl e.
Definition rbind {A B} (m : result A) (k : A -> result B) : result B :=
  match m with
  | inl e => inl e
  | inr a => k a
  end.

Declare Scope result_scope.
Delimit Scope result_scope with result.
Notation "x <~ m ;; k" := (rbind m (fun x => k))
  (at level 61, m at next level, right associativity) : result_scope.

Fixpoint mapM {A B} (f : A -> result B) (l : list A) : result (list B) :=
  match l with
  | [] => ok []
  | a :: l' => (b <~ f a ;; bs <~ mapM f l' ;; ok (b :: bs))%result
  end.

(** ** Python values *)

(** A float object.  A NaN carries the identity of its object: Python
    compares container items by identity first, and [nan == nan] is false. *)
Inductive pyfloat :=
| FFin (q : Q)
| FInf (negative : bool)
| FNaN (id : nat).

(** Labels and candidate return values: the kinds of the battery.  A
    [PFloat] is an instance of Python's [float] (numpy.float64 is one); the
    items of an integer ndarray behave as [PInt] under [==] and [hash]. *)
Inductive value :=
| PNone
| PBool (b : bool)
| PInt (z : Z)
| PFloat (f : pyfloat)
| PStr (s : string)
| PTuple (items : list value)
| PFrozenset (items : list value)
| PSentinel.       (* the object() bound to _SENTINEL_NAN *)

(** Induction over the nesting of tuples and frozensets. *)
Definition value_nested_ind (P : value -> Prop)
  (HNone : P PNone) (HBool : forall b, P (PBool b))
  (HInt : forall z, P (PInt z)) (HFloat : forall f, P (PFloat f))
  (HStr : forall s, P (PStr s))
  (HTuple : forall l, Forall P l -> P (PTuple l))
  (HSet : forall l, Forall P l -> P (PFrozenset l))
  (HSent : P PSentinel) : forall v, P v :=
  fix go (v : value) : P v :=
    let all := fix all (l : list value) : Forall P l :=
      match l with
      | [] => Forall_nil P
      | x :: l' => Forall_cons x (go x) (all l')
      end in
    match v with
    | PNone => HNone
    | PBool b => HBool b
    | PInt z => HInt z
    | PFloat f => HFloat f
    | PStr s => HStr s
    | PTuple l => HTuple l (all l)
    | PFrozenset l => HSet l (all l)
    | PSentinel => HSent
    end.

(** *** Float comparison ([==], [<=]) *)

Definition feq (a b : pyfloat) : bool :=
  match a, b with
  | FFin x, FFin y => Qeq_bool x y
  | FInf s, FInf t => Bool.eqb s t
  | _, _ => false
  end.

Definition fle (a b : pyfloat) : bool :=
  match a, b with
  | FFin x, FFin y => Qle_bool x y
  | FInf true, FFin _ | FInf true, FInf _ => true
  | FFin _, FInf false | FInf false, FInf false => true
  | _, _ => false
  end.

Definition isfinite (a : pyfloat) : bool :=
  match a with FFin _ => true | _ => false end.
Definition isnan (a : pyfloat) : bool :=
  match a with FNaN _ => true | _ => false end.

(** Numbers compare by mathematical value across [bool], [int], [float]. *)
Definition as_number (v : value) : option pyfloat :=
  match v with
  | PBool b => Some (FFin (if b then 1 else 0)%Q)
  | PInt z => Some (FFin (inject_Z z))
  | PFloat f => Some f
  | _ => None
  end.

(** [x is y] matters only where [x == x] is false: NaN objects. *)
Definition same_nan (x y : value) : bool :=
  match x, y with
  | PFloat (FNaN i), PFloat (FNaN j) => Nat.eqb i j
  | _, _ => false
  end.

(** [x == y].  Items of tuples and frozensets are compared the way
    CPython's containers do: identity first, then [==]. *)
Fixpoint py_eq (x y : value) {struct x} : bool :=
  match x, y with
  | PNone, PNone => true
  | PSentinel, PSentinel => true
  | PStr s, PStr t => String.eqb s t
  | PTuple xs, PTuple ys =>
      (fix items (xs ys : list value) {struct xs} : bool :=
         match xs, ys with
         | [], [] => true
         | a :: xs', b :: ys' => (same_nan a b || py_eq a b) && items xs' ys'
         | _, _ => false
         end) xs ys
  | PFrozenset xs, PFrozenset ys =>
      Nat.eqb (List.length xs) (List.length ys) &&
      forallb (fun a => existsb (fun b => same_nan a b || py_eq a b) ys) xs
  | _, _ =>
      match as_number x, as_number y with
      | Some a, Some b => feq a b
      | _, _ => false
      end
  end.

(** [x != y] for the built-in types is the negation of [x == y]. *)
Definition py_ne (x y : value) : bool := negb (py_eq x y).

(** PyObject_RichCompareBool(x, y, Py_EQ): [x is y or x == y]. *)
Definition item_eq (x y : value) : bool := same_nan x y || py_eq x y.

(** *** Sets, as the list of their elements in insertion order *)

Definition py_set_add (s : list value) (x : value) : list value :=
  if existsb (fun k => item_eq k x) s then s else s ++ [x].

(** set(l) *)
Definition py_set (l : list value) : list value := fold_left py_set_add l [].

(** s1 | s2 : the elements of [s1], then those of [s2] not already there. *)
Definition py_set_union (s1 s2 : list value) : list value :=
  fold_left py_set_add s2 s1.

Definition frozenset (l : list value) : value := PFrozenset (py_set l).

(** list == list : same length and item-wise equal. *)
Fixpoint py_list_eq (l1 l2 : list value) : bool :=
  match l1, l2 with
  | [], [] => true
  | a :: l1', b :: l2' => item_eq a b && py_list_eq l1' l2'
  | _, _ => false
  end.
Definition py_list_ne (l1 l2 : list value) : bool := negb (py_list_eq l1 l2).

(** *** str(x) *)

(** sys.get_int_max_str_digits(): the grader leaves the limit at its
    default. *)
Definition int_max_str_digits : Z := 4300.

(** The number of decimal digits of [n >= 0]. *)
Fixpoint ndigits_fuel (fuel : nat) (n : Z) : Z :=
  match fuel with
  | O => 1
  | S k => if n <? 10 then 1 else 1 + ndigits_fuel k (n / 10)
  end.
Definition ndigits (n : Z) : Z := ndigits_fuel (Z.to_nat (Z.log2 n)) n.

(** [str(x)] raises ValueError: [x] is an int of more than
    [int_max_str_digits] decimal digits, the sign not counted (CPython from
    3.10.7 on), or a tuple or a frozenset, whose [str] shows its items,
    that holds one. *)
Fixpoint str_raises (x : value) : bool :=
  match x with
  | PInt z => int_max_str_digits <? ndigits (Z.abs z)
  | PTuple items | PFrozenset items => existsb str_raises items
  | _ => false
  end.

(** ** The host: float rounding and the order [sorted] enumerates classes in *)

(** Only these laws of binary64 round-to-nearest are used: it is monotone,
    it depends on the value only, it keeps integers of magnitude up to 2^53
    and it doubles exactly ([binary64_host] proves them of it).
    [sorted(..., key=(str(type(x)), str(x)))], once the keys of all its
    items have been computed (see [sorted_classes]), returns some
    permutation of its argument. *)
Record Host := mkHost {
  rnd : Q -> Q;
  rnd_mono : forall x y : Q, (x <= y)%Q -> (rnd x <= rnd y)%Q;
  rnd_canon : forall x y : Q, (x == y)%Q -> rnd x = rnd y;
  rnd_int : forall n : Z, Z.abs n <= 2 ^ 53 -> rnd (inject_Z n) = inject_Z n;
  rnd_double : forall x : Q, (rnd (2 * rnd x) == 2 * rnd x)%Q;
  sorted_by_key : list value -> list value;
  sorted_by_key_perm : forall l, Permutation (sorted_by_key l) l
}.

(** Magnitudes from here on do not fit a float. *)
Definition float_overflow_bound : Z := 2 ^ 1024 - 2 ^ 970.
Definition float_overflows (q : Q) : bool :=
  Qle_bool (inject_Z float_overflow_bound) (Qabs q).

(** ** Label normalizer *)

Definition isinstance_float (x : value) : bool :=
  match x with PFloat _ => true | _ => false end.

(** math.isnan(x): converts its argument to a float first. *)
Definition math_isnan (x : value) : result bool :=
  match x with
  | PFloat f => ok (isnan f)
  | PBool _ => ok false
  | PInt z => if float_overflows (inject_Z z) then raise (exc OverflowError)
              else ok false
  | _ => raise (exc TypeError)
  end.

(** try: body / except Exception: handler *)
Definition try_except {A} (body : result A) (handler : exn -> result A)
  : result A :=
  match body with
  | inl e => if isinstance_exn e Exception then handler e else inl e
  | inr a => inr a
  end.

Definition _is_nan (x : value) : result bool :=
  try_except
    (if isinstance_float x then math_isnan x else ok false)
    (fun _ => ok false).

Definition _SENTINEL_NAN : value := PSentinel.

Definition _normalize_label (x : value) : result value :=
  (b <~ _is_nan x ;;
   if b then ok _SENTINEL_NAN else ok x)%result.

(** ** Iterables *)

Inductive iterable :=
| IList (l : list value)
| ITuple (l : list value)
| INdarray (l : list value)
| IGenerator (l : list value).   (* the items it will yield *)

(** Both paths of the source end in [list(a)]. *)
Definition _materialize (a : iterable) : list value :=
  match a with
  | IList l | ITuple l | INdarray l => l
  | IGenerator l => l
  end.

Definition _frozen_copy_list (x_list : list value) : list value := x_list.

(** ** Reference engine *)

(** Which block of [_macro_f1_ref] has been entered. *)
Inductive phase :=
| PhMaterialize | PhCheckLength | PhNormalize | PhClasses | PhScore.

Definition traced (A : Type) : Type := (list phase * result A)%type.
Definition mark {A} (p : phase) (r : result A) : traced A := ([p], r).
Definition tbind {A B} (m : traced A) (k : A -> traced B) : traced B :=
  match m with
  | (t, inl e) => (t, inl e)
  | (t, inr a) => let (t', r) := k a in (t ++ t', r)
  end.

Declare Scope traced_scope.
Delimit Scope traced_scope with traced.
Notation "x <- m ;; k" := (tbind m (fun x => k))
  (at level 61, m at next level, right associativity) : traced_scope.

(** sum(1 for a, b in zip(yt, yp) if cond(a, b)) *)
Definition count_pairs (cond : value -> value -> bool)
  (yt yp : list value) : Z :=
  Z.of_nat (List.length
    (filter (fun ab => cond (fst ab) (snd ab)) (combine yt yp))).

Section Engine.
Variable H : Host.

(** A finite float is the rational it denotes; [fl] rounds. *)
Definition fl (q : Q) : Q := rnd H q.

(** int / int *)
Definition int_truediv (a b : Z) : result Q :=
  if b =? 0 then raise (exc ZeroDivisionError)
  else if float_overflows (inject_Z a / inject_Z b)
       then raise (exc OverflowError)
       else ok (fl (inject_Z a / inject_Z b)).

(** float / float *)
Definition float_truediv (x y : Q) : result Q :=
  if Qeq_bool y 0 then raise (exc ZeroDivisionError) else ok (fl (x / y)).

(** float(n) for an int n *)
Definition float_of_int (n : Z) : result Q :=
  if float_overflows (inject_Z n) then raise (exc OverflowError)
  else ok (fl (inject_Z n)).

(** sum(l): starts from the int 0 and adds from the left, rounding every
    partial sum (CPython up to 3.11; later versions compensate the rounding
    errors of float items). *)
Definition py_sum (l : list Q) : Q :=
  fold_left (fun s x => fl (s + x)) l 0%Q.

Definition tp_of (yt yp : list value) (c : value) : Z :=
  count_pairs (fun a b => py_eq a c && py_eq b c) yt yp.
Definition fp_of (yt yp : list value) (c : value) : Z :=
  count_pairs (fun a b => py_ne a c && py_eq b c) yt yp.
Definition fn_of (yt yp : list value) (c : value) : Z :=
  count_pairs (fun a b => py_eq a c && py_ne b c) yt yp.

Definition prec_of (tp fp : Z) : result Q :=
  if tp + fp =? 0 then ok 0%Q else int_truediv tp (tp + fp).
Definition rec_of (tp fn : Z) : result Q :=
  if tp + fn =? 0 then ok 0%Q else int_truediv tp (tp + fn).
Definition f1_of (prec rec : Q) : result Q :=
  if Qeq_bool (fl (prec + rec)) 0 then ok 0%Q
  else float_truediv (fl (fl (2 * prec) * rec)) (fl (prec + rec)).

(** One iteration of [for c in classes]. *)
Definition class_f1 (yt yp : list value) (c : value) : result Q :=
  let tp := tp_of yt yp c in
  let fp := fp_of yt yp c in
  let fn := fn_of yt yp c in
  (prec <~ prec_of tp fp ;;
   rec <~ rec_of tp fn ;;
   f1_of prec rec)%result.

(** The ClassSet in sorted order, for keys that can be computed. *)
Definition classes_of (yt yp : list value) : list value :=
  sorted_by_key H (py_set_union (py_set yt) (py_set yp)).

(** [sorted] calls the key on every member of the set before it compares
    any two; the key calls [str(x)]. *)
Definition keys_raise (yt yp : list value) : bool :=
  existsb str_raises (py_set_union (py_set yt) (py_set yp)).

(** sorted(set(yt) | set(yp), key=lambda x: (str(type(x)), str(x))) *)
Definition sorted_classes (yt yp : list value) : result (list value) :=
  if keys_raise yt yp then raise (exc ValueError) else ok (classes_of yt yp).

(** return 0.0 if not f1s else float(sum(f1s) / len(f1s)) *)
Definition mean_f1 (f1s : list Q) : result pyfloat :=
  match f1s with
  | [] => ok (FFin 0)
  | _ => (n <~ float_of_int (Z.of_nat (List.length f1s)) ;;
          m <~ float_truediv (py_sum f1s) n ;;
          ok (FFin m))%result
  end.

Definition _macro_f1_ref_traced (y_true y_pred : iterable) : traced pyfloat :=
  (yt <- mark PhMaterialize (ok (_materialize y_true)) ;;
   yp <- mark PhMaterialize (ok (_materialize y_pred)) ;;
   _ <- mark PhCheckLength
          (if negb (Nat.eqb (List.length yt) (List.length yp))
           then raise (exc ValueError) else ok tt) ;;
   yt <- mark PhNormalize (mapM _normalize_label yt) ;;
   yp <- mark PhNormalize (mapM _normalize_label yp) ;;
   classes <- mark PhClasses (sorted_classes yt yp) ;;
   f1s <- mark PhScore (mapM (class_f1 yt yp) classes) ;;
   mark PhScore (mean_f1 f1s))%traced.

Definition _macro_f1_ref (y_true y_pred : iterable) : result pyfloat :=
  snd (_macro_f1_ref_traced y_true y_pred).

(** ** Oracle *)

Definition tol_default : Q := fl (1 # 10 ^ 9).      (* 1e-9 *)
Definition eps_range : Q := fl (1 # 10 ^ 12).       (* 1e-12 *)

Definition _approx_equal (a b : pyfloat) : bool :=
  match a, b with
  | FFin x, FFin y => Qle_bool (Qabs (fl (x - y))) tol_default
  | _, _ => false
  end.

(** isinstance(out, (float, int)); [bool] is a subclass of [int]. *)
Definition isinstance_float_int (out : value) : bool :=
  match out with
  | PFloat _ | PInt _ | PBool _ => true
  | _ => false
  end.

(** float(out), for [out] a float, an int or a bool. *)
Definition float_of (out : value) : result pyfloat :=
  match out with
  | PFloat f => ok f
  | PBool b => ok (FFin (if b then 1 else 0)%Q)
  | PInt z => (q <~ float_of_int z ;; ok (FFin q))%result
  | _ => raise (exc TypeError)
  end.

(** 0.0 - 1e-12 <= out <= 1.0 + 1e-12 *)
Definition in_unit_range (out : pyfloat) : bool :=
  fle (FFin (fl (0 - eps_range))) out && fle out (FFin (fl (1 + eps_range))).

End Engine.

(** ** The process: standard output, candidate calls, exceptions *)

(** One constructor per [print] of the grader, with the interpolated data. *)
Inductive line :=
| FAIL_numpy_not_available (e : exn)
| FAIL_solution_not_found
| FAIL_import_raised (e : exn)
| FAIL_macro_f1_not_defined
| FAIL_docstring_missing
| FAIL_inspect_docstring (e : exn)
| FAIL_nested_import
| FAIL_inspect_style (e : exn)
| FAIL_exception_not_raised (name : string) (expected : exc_class)
| PASS_raised_expected (name : string) (expected : exc_class)
| FAIL_unexpected_exception (name : string) (e : exn)
| FAIL_output_not_float (name : string) (out : value)
| FAIL_not_in_unit_range (name : string) (out : pyfloat)
| FAIL_value_mismatch (name : string) (got expected : pyfloat)
| FAIL_y_true_mutated (name : string)
| FAIL_y_pred_mutated (name : string)
| PASS_value (name : string) (out : pyfloat)
| GRADE_PASS
| GRADE_FAIL.

Record world := mkWorld {
  stdout : list line;      (* lines printed so far, oldest first *)
  calls : nat              (* invocations of the candidate so far *)
}.

Definition proc (A : Type) : Type := world -> result A * world.

Definition pret {A} (a : A) : proc A := fun w => (inr a, w).
Definition pbind {A B} (m : proc A) (k : A -> proc B) : proc B :=
  fun w => match m w with
           | (inl e, w') => (inl e, w')
           | (inr a, w') => k a w'
           end.
Definition praise {A} (e : exn) : proc A := fun w => (inl e, w).
Definition lift {A} (r : result A) : proc A := fun w => (r, w).
Definition print (l : line) : proc unit :=
  fun w => (inr tt, mkWorld (stdout w ++ [l]) (calls w)).
Definition sys_exit {A} (code : Z) : proc A := praise (mkExn SystemExit code).

Declare Scope proc_scope.
Delimit Scope proc_scope with proc.
Notation "x <- m ;; k" := (pbind m (fun x => k))
  (at level 61, m at next level, right associativity) : proc_scope.
Notation "m ;;; k" := (pbind m (fun _ => k))
  (at level 61, right associativity) : proc_scope.

(** try: body / except C1: h1 / except C2: h2 ...  The first clause whose
    class the exception is an instance of handles it; an exception raised
    inside a handler is not offered to the later clauses. *)
Fixpoint select_clause {A} (e : exn) (clauses : list (exc_class * (exn -> proc A)))
  : option (proc A) :=
  match clauses with
  | [] => None
  | (c, h) :: rest =>
      if isinstance_exn e c then Some (h e) else select_clause e rest
  end.

Definition ptry {A} (body : proc A) (clauses : list (exc_class * (exn -> proc A)))
  : proc A :=
  fun w => match body w with
           | (inl e, w') =>
               match select_clause e clauses with
               | Some h => h w'
               | None => (inl e, w')
               end
           | (inr a, w') => (inr a, w')
           end.

(** ** The candidate *)

(** What one call [macro_f1(yt, yp)] does: it returns or raises, and leaves
    the two list objects it was handed with some contents. *)
Record call_result := mkCall {
  outcome : result value;
  y_true_after : list value;
  y_pred_after : list value
}.

Definition candidate : Type := list value -> list value -> call_result.

Definition invoke (f : candidate) (yt yp : list value)
  : proc (value * (list value * list value)) :=
  fun w =>
    let r := f yt yp in
    let w' := mkWorld (stdout w) (S (calls w)) in
    match outcome r with
    | inl e => (inl e, w')
    | inr out => (inr (out, (y_true_after r, y_pred_after r)), w')
    end.

(** ** The test battery *)

Local Open Scope string_scope.
Local Open Scope list_scope.

Record test_case := mkCase {
  tc_name : string;
  tc_true : iterable;
  tc_pred : iterable;
  tc_expect : option pyfloat;
  tc_expect_exception : option exc_class
}.

Definition strs (l : list string) : list value := map PStr l.
Definition ints (l : list Z) : list value := map PInt l.
Definition plain (name : string) (yt yp : list value) : test_case :=
  mkCase name (IList yt) (IList yp) None None.

(** nan = float("nan"): one object, used at every NaN position. *)
Definition nan : value := PFloat (FNaN 0).

Definition battery : list test_case :=
  [ plain "balanced_3class"
      (strs ["A";"A";"B";"B";"C";"C"]) (strs ["A";"B";"B";"B";"C";"A"]);
    plain "no_pred_for_class"
      (ints [0;0;1;1;1;2;2]) (ints [0;0;1;1;1;0;0]);
    plain "class_absent_in_truth"
      (ints [0;0;1;1;1;0;0]) (ints [0;0;1;1;1;2;2]);
    plain "gapped_labels"
      (ints [0;0;2;2;5;5;5]) (ints [0;2;2;5;5;5;0]);
    plain "string_labels_unseen_pred"
      (strs ["dog";"dog";"cat";"cat";"mouse"])
      (strs ["dog";"cat";"cat";"mouse";"unicorn"]);
    mkCase "numpy_arrays"
      (INdarray (ints [1;1;2;2;3;3])) (INdarray (ints [1;2;2;3;3;1]))
      None None;
    mkCase "perfect"
      (IList (strs ["x";"y";"z";"x";"y";"z"]))
      (IList (strs ["x";"y";"z";"x";"y";"z"]))
      (Some (FFin 1)) None;
    plain "all_wrong" (ints [0;1;2]) (ints [1;2;0]);
    mkCase "length_mismatch"
      (IList (ints [0;1;2])) (IList (ints [0;1])) None (Some ValueError);
    plain "nan_as_label"
      [nan; PStr "a"; PStr "a"; nan; PStr "b"]
      [nan; PStr "a"; nan; PStr "x"; PStr "b"];
    plain "extreme_imbalance"
      (repeat (PInt 0) 98 ++ repeat (PInt 1) 2)
      (repeat (PInt 0) 99 ++ [PInt 1]);
    plain "composite_labels"
      [PTuple [PStr "A"; PInt 1]; PTuple [PStr "A"; PInt 2]; PStr "B";
       PStr "B"; frozenset [PInt 1; PInt 2]]
      [PTuple [PStr "A"; PInt 1]; PStr "B"; PStr "B";
       frozenset [PInt 2; PInt 1]; PTuple [PStr "X"; PInt 9]];
    mkCase "generator_inputs"
      (IGenerator (strs ["a";"b";"a";"c"]))
      (IGenerator (strs ["a";"a";"c";"c"])) None None ].


Local Close Scope string_scope.

Section Grader.
Variable H : Host.
Variable macro_f1 : candidate.

(** ** run_case *)

Definition run_case (name : string) (y_true y_pred : iterable)
  (expect : option pyfloat) (expect_exception : option exc_class)
  : proc bool :=
  let yt := _materialize y_true in
  let yp := _materialize y_pred in
  let yt0 := _frozen_copy_list yt in
  let yp0 := _frozen_copy_list yp in
  (r <- ptry
          (called <- invoke macro_f1 yt yp ;;
           match expect_exception with
           | Some cls =>
               print (FAIL_exception_not_raised name cls) ;;;
               pret (inl false)
           | None => pret (inr called)
           end)
          [(Exception, fun e =>
              match expect_exception with
              | Some cls =>
                  if isinstance_exn e cls
                  then print (PASS_raised_expected name cls) ;;; pret (inl true)
                  else print (FAIL_unexpected_exception name e) ;;;
                       pret (inl false)
              | None =>
                  print (FAIL_unexpected_exception name e) ;;; pret (inl false)
              end)] ;;
   match r with
   | inl verdict => pret verdict
   | inr (out, (yt, yp)) =>
       if negb (isinstance_float_int out)
       then print (FAIL_output_not_float name out) ;;; pret false
       else
         out <- lift (float_of H out) ;;
         if negb (in_unit_range H out)
         then print (FAIL_not_in_unit_range name out) ;;; pret false
         else
           ref <- match expect with
                  | None => lift (_macro_f1_ref H (IList yt) (IList yp))
                  | Some e => pret e
                  end ;;
           if negb (_approx_equal H out ref)
           then print (FAIL_value_mismatch name out ref) ;;; pret false
           else if py_list_ne yt yt0
           then print (FAIL_y_true_mutated name) ;;; pret false
           else if py_list_ne yp yp0
           then print (FAIL_y_pred_mutated name) ;;; pret false
           else print (PASS_value name out) ;;; pret true
   end)%proc.

Definition run_test (c : test_case) : proc bool :=
  run_case (tc_name c) (tc_true c) (tc_pred c) (tc_expect c)
    (tc_expect_exception c).

(** all_ok &= run_case(...), once per case and in order *)
Fixpoint run_all (cases : list test_case) (all_ok : bool) : proc bool :=
  match cases with
  | [] => pret all_ok
  | c :: rest => (b <- run_test c ;; run_all rest (all_ok && b))%proc
  end.

Definition main : proc unit :=
  (all_ok <- run_all battery true ;;
   if all_ok then print GRADE_PASS ;;; sys_exit 0
   else print GRADE_FAIL ;;; sys_exit 1)%proc.

End Grader.

(** ** Start-up checks and the whole script *)

(** str.isspace on the code points below 256, which the characters of a
    [string] stand for: the ASCII white space, U+0085 and U+00A0. *)
Definition isspace (a : ascii) : bool :=
  let n := nat_of_ascii a in
  ((9 <=? n)%nat && (n <=? 13)%nat) || ((28 <=? n)%nat && (n <=? 32)%nat)
  || (n =? 133)%nat || (n =? 160)%nat.

Fixpoint lstrip (s : string) : string :=
  match s with
  | EmptyString => EmptyString
  | String a s' => if isspace a then lstrip s' else s
  end.

Fixpoint rstrip (s : string) : string :=
  match s with
  | EmptyString => EmptyString
  | String a s' =>
      match rstrip s' with
      | EmptyString => if isspace a then EmptyString else String a EmptyString
      | t => String a t
      end
  end.

Definition strip (s : string) : string := rstrip (lstrip s).

(** What the grader finds on disk and in the candidate module. *)
Record environment := mkEnv {
  import_numpy : option exn;         (* [import numpy] raising, if it does *)
  solution_exists : bool;            (* os.path.exists(SOLUTION_PATH) *)
  exec_module : option exn;          (* running the module raising *)
  has_macro_f1 : bool;               (* hasattr(mod, "macro_f1") *)
  get_docstring : result (option string);
    (* inspect.getsource, ast.parse and ast.get_docstring on macro_f1 *)
  body_has_import : result bool;
    (* inspect.getsource and the import regex on the function body *)
  solution_macro_f1 : candidate
}.

Definition attempt (o : option exn) : proc unit :=
  match o with
  | None => pret tt
  | Some e => praise e
  end.

Definition style_check (env : environment) : proc unit :=
  (ptry
     (doc <- lift (get_docstring env) ;;
      let _has_docstring :=
        match doc with
        | Some d => (0 <? String.length (strip d))%nat
        | None => false
        end in
      if negb _has_docstring
      then print FAIL_docstring_missing ;;; sys_exit 1
      else pret tt)
     [(Exception, fun _e =>
         print (FAIL_inspect_docstring _e) ;;;
         @sys_exit unit 1 ;;;
         found <- lift (body_has_import env) ;;
         if (found : bool) then print FAIL_nested_import ;;; sys_exit 1
         else pret tt);
      (Exception, fun _e =>
         print (FAIL_inspect_style _e) ;;; sys_exit 1)])%proc.

Section Script.
Variable H : Host.

(** grade.py from its first statement to [main()]. *)
Definition grade (env : environment) : proc unit :=
  (ptry (attempt (import_numpy env))
     [(Exception, fun e => print (FAIL_numpy_not_available e) ;;; sys_exit 1)] ;;;
   (if negb (solution_exists env)
    then print FAIL_solution_not_found ;;; sys_exit 1 else pret tt) ;;;
   ptry (attempt (exec_module env))
     [(Exception, fun e => print (FAIL_import_raised e) ;;; sys_exit 1)] ;;;
   (if negb (has_macro_f1 env)
    then print FAIL_macro_f1_not_defined ;;; sys_exit 1 else pret tt) ;;;
   style_check env ;;;
   main H (solution_macro_f1 env))%proc.

Definition start : world := mkWorld [] 0.

(** The status the interpreter exits with: the code of an uncaught
    [SystemExit]; after an uncaught [KeyboardInterrupt] CPython (3.8 and
    later) kills itself with SIGINT, which a shell reports as 128 + 2; 1
    after any other uncaught exception; 0 otherwise. *)
Definition exit_status {A} (r : result A) : Z :=
  match r with
  | inl e =>
      if exc_class_eqb (exn_class e) SystemExit then exn_code e
      else if exc_class_eqb (exn_class e) KeyboardInterrupt then 130
      else 1
  | inr _ => 0
  end.

Definition run_grader (env : environment) : Z * world :=
  let (r, w) := grade env start in (exit_status r, w).

End Script.

(** ** A host with exact arithmetic *)

Lemma Qred_mono (x y : Q) : (x <= y)%Q -> (Qred x <= Qred y)%Q.
Proof. intros Hxy. now rewrite !Qred_correct. Qed.

Lemma Qred_inject_Z (n : Z) : Qred (inject_Z n) = inject_Z n.
Proof.
  unfold Qred, inject_Z; simpl.
  pose proof (Z.ggcd_gcd n 1) as Hg.
  pose proof (Z.ggcd_correct_divisors n 1) as Hd.
  destruct (Z.ggcd n 1) as [g [a b]]; simpl in *.
  rewrite Z.gcd_1_r in Hg; subst g.
  destruct Hd as [Ha Hb].
  replace a with n by lia. replace b with 1 by lia. reflexivity.
Qed.

Lemma Qred_double (x : Q) : (Qred (2 * Qred x) == 2 * Qred x)%Q.
Proof. apply Qred_correct. Qed.

(** Real arithmetic: no rounding error.  Classes are enumerated in
    insertion order. *)
Definition exact_host : Host :=
  mkHost Qred Qred_mono Qred_complete (fun n _ => Qred_inject_Z n) Qred_double
    (fun l => l) (fun l => Permutation_refl l).

(** ** A host with binary64 arithmetic

    Round-to-nearest, ties-to-even, onto the multiples of a power of two
    with a 53-bit mantissa and exponent at least -1074.  The exponent has
    no upper limit here: the grader refuses what would overflow before it
    rounds ([float_overflows]). *)

Definition pow2 (e : Z) : Q := (2 ^ e)%Q.

Lemma pow2_pos (e : Z) : (0 < pow2 e)%Q.
Proof. apply Qpower_0_lt. reflexivity. Qed.

Lemma pow2_add (a b : Z) : (pow2 (a + b) == pow2 a * pow2 b)%Q.
Proof. apply Qpower_plus. discriminate. Qed.

Lemma pow2_le (a b : Z) : a <= b -> (pow2 a <= pow2 b)%Q.
Proof. intros Hab. apply Qpower_le_compat_l; [assumption | discriminate]. Qed.

Lemma pow2_lt (a b : Z) : a < b -> (pow2 a < pow2 b)%Q.
Proof. intros Hab. apply Qpower_lt_compat_l; [assumption | reflexivity]. Qed.

Lemma pow2_lt_inv (a b : Z) : (pow2 a < pow2 b)%Q -> a < b.
Proof. intros Hab. apply (Qpower_lt_compat_l_inv 2); [assumption | reflexivity]. Qed.

Lemma pow2_Z (a : Z) : 0 <= a -> (pow2 a == inject_Z (2 ^ a))%Q.
Proof. intros Ha. symmetry. apply (Zpower_Qpower 2 a Ha). Qed.

Lemma pow2_sub (a b : Z) : (pow2 (a - b) == pow2 a / pow2 b)%Q.
Proof.
  unfold Qdiv. apply Qmult_inj_r with (z := pow2 b).
  - pose proof (pow2_pos b). lra.
  - rewrite <- pow2_add. replace (a - b + b) with a by lia.
    field. pose proof (pow2_pos b). lra.
Qed.

(** Nearest integer, ties to even. *)
Definition round_half_even (r : Q) : Z :=
  let f := Qfloor r in
  match Qcompare (r - inject_Z f) (1 # 2) with
  | Lt => f
  | Gt => f + 1
  | Eq => if Z.even f then f else f + 1
  end.

Lemma round_half_even_comp (r s : Q) :
  (r == s)%Q -> round_half_even r = round_half_even s.
Proof.
  intros Hrs. unfold round_half_even.
  rewrite (Qfloor_comp r s Hrs).
  assert ((r - inject_Z (Qfloor s) ?= 1 # 2)%Q
          = (s - inject_Z (Qfloor s) ?= 1 # 2)%Q) as ->
    by (now rewrite Hrs).
  reflexivity.
Qed.

Lemma round_half_even_Z (n : Z) : round_half_even (inject_Z n) = n.
Proof.
  unfold round_half_even. rewrite Qfloor_Z.
  assert ((inject_Z n - inject_Z n ?= 1 # 2)%Q = Lt) as ->; [| reflexivity].
  apply Qlt_alt. setoid_replace (inject_Z n - inject_Z n)%Q with 0%Q by ring.
  reflexivity.
Qed.

Lemma round_half_even_bounds (r : Q) :
  Qfloor r <= round_half_even r <= Qfloor r + 1.
Proof.
  unfold round_half_even.
  destruct (Qcompare _ _); [destruct (Z.even _) | |]; lia.
Qed.

Lemma round_half_even_mono (r s : Q) :
  (r <= s)%Q -> round_half_even r <= round_half_even s.
Proof.
  intros Hrs. pose proof (Qfloor_resp_le r s Hrs) as Hf.
  destruct (Z.eq_dec (Qfloor r) (Qfloor s)) as [E | E].
  - unfold round_half_even. rewrite <- E.
    destruct (Qcompare_spec (r - inject_Z (Qfloor r)) (1 # 2)) as [Hr | Hr | Hr];
    destruct (Qcompare_spec (s - inject_Z (Qfloor r)) (1 # 2)) as [Hs | Hs | Hs];
      try destruct (Z.even (Qfloor r)); try lia; lra.
  - pose proof (round_half_even_bounds r). pose proof (round_half_even_bounds s).
    lia.
Qed.

(** floor(log2 q), for q > 0 *)
Definition ilog2 (q : Q) : Z :=
  let k := Z.log2 (Qnum q) - Z.log2 (Zpos (Qden q)) in
  if Qle_bool (pow2 k) q then k else k - 1.

Lemma Qdiv_lt_cross (n d a b : Q) :
  (0 < d)%Q -> (0 < b)%Q -> (n * b < a * d)%Q -> (n / d < a / b)%Q.
Proof.
  intros Hd Hb Hlt.
  apply Qlt_shift_div_r; [assumption |].
  setoid_replace (a / b * d)%Q with (a * d / b)%Q by (field; lra).
  apply Qlt_shift_div_l; assumption.
Qed.

Lemma Qdiv_le_cross (n d a b : Q) :
  (0 < d)%Q -> (0 < b)%Q -> (a * d <= n * b)%Q -> (a / b <= n / d)%Q.
Proof.
  intros Hd Hb Hle.
  apply Qle_shift_div_l; [assumption |].
  setoid_replace (a / b * d)%Q with (a * d / b)%Q by (field; lra).
  apply Qle_shift_div_r; assumption.
Qed.

Lemma ilog2_spec (q : Q) :
  (0 < q)%Q -> (pow2 (ilog2 q) <= q < pow2 (ilog2 q + 1))%Q.
Proof.
  intros Hq. unfold ilog2.
  destruct q as [n d]. cbn [Qnum Qden].
  assert (0 < n) as Hn by (unfold Qlt in Hq; cbn in Hq; lia).
  set (a := Z.log2 n). set (b := Z.log2 (Z.pos d)).
  assert (0 <= a) as Ha by apply Z.log2_nonneg.
  assert (0 <= b) as Hb by apply Z.log2_nonneg.
  destruct (Z.log2_spec n Hn) as [Hn1 Hn2]. fold a in Hn1, Hn2.
  destruct (Z.log2_spec (Z.pos d) eq_refl) as [Hd1 Hd2]. fold b in Hd1, Hd2.
  assert (Hq' : (n # d == inject_Z n / inject_Z (Z.pos d))%Q)
    by apply Qmake_Qdiv.
  assert (HD : (0 < inject_Z (Z.pos d))%Q) by reflexivity.
  assert (Hpa : 0 < 2 ^ a) by (apply Z.pow_pos_nonneg; lia).
  assert (Hpb : 0 < 2 ^ b) by (apply Z.pow_pos_nonneg; lia).
  assert (Hup : (n # d < pow2 (a - b + 1))%Q).
  { rewrite Hq'. replace (a - b + 1) with ((a + 1) - b) by lia.
    rewrite pow2_sub, !pow2_Z by lia.
    apply Qdiv_lt_cross; [assumption | now rewrite <- (Zlt_Qlt 0) |].
    rewrite <- !inject_Z_mult, <- Zlt_Qlt. nia. }
  assert (Hlo : (pow2 (a - b - 1) <= n # d)%Q).
  { rewrite Hq'. replace (a - b - 1) with (a - (b + 1)) by lia.
    rewrite pow2_sub, !pow2_Z by lia.
    apply Qdiv_le_cross; [assumption | rewrite <- (Zlt_Qlt 0); lia |].
    rewrite <- !inject_Z_mult, <- Zle_Qle. nia. }
  destruct (Qle_bool (pow2 (a - b)) (n # d)) eqn:E.
  - apply Qle_bool_iff in E. split; assumption.
  - replace (a - b - 1 + 1) with (a - b) by lia. split; [assumption |].
    apply Qnot_le_lt. intros Hle. apply Qle_bool_iff in Hle. congruence.
Qed.

Lemma ilog2_unique (q : Q) (k : Z) :
  (pow2 k <= q < pow2 (k + 1))%Q -> ilog2 q = k.
Proof.
  intros [Hk1 Hk2].
  assert (0 < q)%Q as Hq
    by (eapply Qlt_le_trans; [apply (pow2_pos k) | assumption]).
  destruct (ilog2_spec q Hq) as [Hi1 Hi2].
  assert (k < ilog2 q + 1)
    by (apply pow2_lt_inv; eapply Qle_lt_trans; eassumption).
  assert (ilog2 q < k + 1)
    by (apply pow2_lt_inv; eapply Qle_lt_trans; eassumption).
  lia.
Qed.

Lemma ilog2_mono (x y : Q) : (0 < x)%Q -> (x <= y)%Q -> ilog2 x <= ilog2 y.
Proof.
  intros Hx Hxy.
  assert (0 < y)%Q as Hy by (eapply Qlt_le_trans; eassumption).
  destruct (ilog2_spec x Hx) as [Hx1 _].
  destruct (ilog2_spec y Hy) as [_ Hy2].
  assert (ilog2 x < ilog2 y + 1); [| lia].
  apply pow2_lt_inv. eapply Qle_lt_trans; [| eassumption].
  eapply Qle_trans; eassumption.
Qed.

(** binary64: 53 significant bits, least exponent -1074 *)
Definition expo (q : Q) : Z := Z.max (ilog2 q - 52) (-1074).

Definition rnd_pos (q : Q) : Q :=
  (inject_Z (round_half_even (q / pow2 (expo q))) * pow2 (expo q))%Q.

Lemma expo_comp (x y : Q) : (0 < x)%Q -> (x == y)%Q -> expo x = expo y.
Proof.
  intros Hx Hxy. unfold expo. f_equal. f_equal.
  apply ilog2_unique. rewrite Hxy.
  apply ilog2_spec. now rewrite <- Hxy.
Qed.

Lemma rnd_pos_comp (x y : Q) :
  (0 < x)%Q -> (x == y)%Q -> (rnd_pos x == rnd_pos y)%Q.
Proof.
  intros Hx Hxy. unfold rnd_pos. rewrite (expo_comp x y Hx Hxy).
  rewrite (round_half_even_comp (x / pow2 (expo y)) (y / pow2 (expo y)))
    by (now rewrite Hxy).
  reflexivity.
Qed.

Lemma scaled_lt (q : Q) :
  (0 < q)%Q -> (q / pow2 (expo q) < inject_Z (2 ^ 53))%Q.
Proof.
  intros Hq. destruct (ilog2_spec q Hq) as [_ Hup].
  apply Qlt_shift_div_r; [apply pow2_pos |].
  rewrite <- (pow2_Z 53), <- pow2_add by lia.
  eapply Qlt_le_trans; [exact Hup |].
  apply pow2_le. unfold expo. lia.
Qed.

Lemma scaled_ge (q : Q) :
  (0 < q)%Q -> -1074 < expo q ->
  (inject_Z (2 ^ 52) <= q / pow2 (expo q))%Q.
Proof.
  intros Hq He. destruct (ilog2_spec q Hq) as [Hlo _].
  apply Qle_shift_div_l; [apply pow2_pos |].
  rewrite <- (pow2_Z 52), <- pow2_add by lia.
  eapply Qle_trans; [| exact Hlo].
  apply pow2_le. unfold expo in *. lia.
Qed.

Lemma scaled_pos (q : Q) : (0 < q)%Q -> (0 < q / pow2 (expo q))%Q.
Proof.
  intros Hq. apply Qlt_shift_div_l; [apply pow2_pos | lra].
Qed.

Lemma mantissa_bounds (q : Q) :
  (0 < q)%Q -> 0 <= round_half_even (q / pow2 (expo q)) <= 2 ^ 53.
Proof.
  intros Hq. split.
  - pose proof (scaled_pos q Hq) as Hs.
    assert (inject_Z 0 <= q / pow2 (expo q))%Q as H0
      by (change (inject_Z 0) with 0%Q; lra).
    apply round_half_even_mono in H0.
    now rewrite round_half_even_Z in H0.
  - pose proof (scaled_lt q Hq) as Hs.
    assert (q / pow2 (expo q) <= inject_Z (2 ^ 53))%Q as H1 by lra.
    apply round_half_even_mono in H1.
    now rewrite round_half_even_Z in H1.
Qed.

Lemma rnd_pos_nonneg (q : Q) : (0 < q)%Q -> (0 <= rnd_pos q)%Q.
Proof.
  intros Hq. unfold rnd_pos. apply Qmult_le_0_compat.
  - change 0%Q with (inject_Z 0). rewrite <- Zle_Qle.
    apply (mantissa_bounds q Hq).
  - pose proof (pow2_pos (expo q)). lra.
Qed.

Lemma rnd_pos_mono (x y : Q) :
  (0 < x)%Q -> (x <= y)%Q -> (rnd_pos x <= rnd_pos y)%Q.
Proof.
  intros Hx Hxy.
  assert (0 < y)%Q as Hy by (eapply Qlt_le_trans; eassumption).
  pose proof (ilog2_mono x y Hx Hxy) as Hi.
  assert (expo x <= expo y) as He by (unfold expo; lia).
  unfold rnd_pos.
  destruct (Z.eq_dec (expo x) (expo y)) as [E | E].
  - rewrite E. apply Qmult_le_compat_r; [| pose proof (pow2_pos (expo y)); lra].
    rewrite <- Zle_Qle. apply round_half_even_mono.
    apply Qmult_le_compat_r; [assumption |].
    apply Qinv_le_0_compat. pose proof (pow2_pos (expo y)). lra.
  - assert (-1074 < expo y) as Hn by (unfold expo in *; lia).
    pose proof (mantissa_bounds x Hx) as [_ Hmx].
    pose proof (scaled_ge y Hy Hn) as Hsy.
    apply round_half_even_mono in Hsy. rewrite round_half_even_Z in Hsy.
    apply Qle_trans with (inject_Z (2 ^ 53) * pow2 (expo x))%Q.
    { apply Qmult_le_compat_r; [now rewrite <- Zle_Qle |].
      pose proof (pow2_pos (expo x)); lra. }
    apply Qle_trans with (inject_Z (2 ^ 52) * pow2 (expo y))%Q.
    { rewrite <- (pow2_Z 53), <- (pow2_Z 52), <- !pow2_add by lia.
      apply pow2_le. lia. }
    apply Qmult_le_compat_r; [now rewrite <- Zle_Qle |].
    pose proof (pow2_pos (expo y)); lra.
Qed.

(** A positive multiple of a power of two with a short mantissa is kept. *)
Lemma rnd_pos_exact_lt (q : Q) (m c : Z) :
  (q == inject_Z m * pow2 c)%Q -> 0 < m < 2 ^ 53 -> -1074 <= c ->
  (rnd_pos q == q)%Q.
Proof.
  intros Hq Hm Hc.
  assert (0 < q)%Q as Hpos.
  { rewrite Hq. apply Qmult_lt_0_compat; [| apply pow2_pos].
    rewrite <- (Zlt_Qlt 0). lia. }
  destruct (Z.log2_spec m (proj1 Hm)) as [Hl1 Hl2].
  assert (Z.log2 m <= 52) as Hl.
  { assert (Z.log2 m < 53); [| lia].
    apply (Z.pow_lt_mono_r_iff 2); lia. }
  assert (ilog2 q = Z.log2 m + c) as Hi.
  { apply ilog2_unique. rewrite Hq.
    replace (Z.log2 m + c + 1) with ((Z.log2 m + 1) + c) by lia.
    rewrite (pow2_add (Z.log2 m) c), (pow2_add (Z.log2 m + 1) c).
    rewrite (pow2_Z (Z.log2 m)), (pow2_Z (Z.log2 m + 1))
      by (pose proof (Z.log2_nonneg m); lia).
    pose proof (pow2_pos c) as Hpc. split.
    - apply Qmult_le_compat_r; [now rewrite <- Zle_Qle | lra].
    - apply Qmult_lt_compat_r; [exact Hpc | now rewrite <- Zlt_Qlt]. }
  assert (expo q <= c) as He by (unfold expo; lia).
  unfold rnd_pos. remember (expo q) as e eqn:Ee. clear Ee Hi.
  assert (q / pow2 e == inject_Z (m * 2 ^ (c - e)))%Q as Hs.
  { rewrite Hq, inject_Z_mult, <- pow2_Z, pow2_sub by lia.
    field. pose proof (pow2_pos e). lra. }
  rewrite (round_half_even_comp _ _ Hs), round_half_even_Z.
  rewrite <- Hs. field. pose proof (pow2_pos e). lra.
Qed.

Lemma rnd_pos_exact (q : Q) (m c : Z) :
  (q == inject_Z m * pow2 c)%Q -> 0 < m <= 2 ^ 53 -> -1074 <= c ->
  (rnd_pos q == q)%Q.
Proof.
  intros Hq Hm Hc.
  destruct (Z.eq_dec m (2 ^ 53)) as [-> | Hne].
  - apply (rnd_pos_exact_lt q (2 ^ 52) (c + 1)); [| lia | lia].
    rewrite Hq, pow2_add.
    change (pow2 1) with 2%Q.
    change (inject_Z (2 ^ 53)) with (inject_Z (2 ^ 52) * 2)%Q at 1.
    ring.
  - apply (rnd_pos_exact_lt q m c); [assumption | lia | assumption].
Qed.

(** Round to nearest, ties to even, for any sign; the result is in lowest
    terms. *)
Definition binary64_rnd (x : Q) : Q :=
  let q := Qred x in
  match (q ?= 0)%Q with
  | Eq => 0%Q
  | Gt => Qred (rnd_pos q)
  | Lt => Qred (- rnd_pos (- q))
  end.

Lemma binary64_rnd_pos (x : Q) :
  (0 < x)%Q -> (binary64_rnd x == rnd_pos x)%Q.
Proof.
  intros Hx. unfold binary64_rnd. cbv zeta.
  pose proof (Qred_correct x) as Hr.
  destruct (Qcompare_spec (Qred x) 0) as [H0 | H0 | H0]; try lra.
  rewrite Qred_correct.
  apply rnd_pos_comp; [lra | assumption].
Qed.

Lemma binary64_rnd_zero (x : Q) : (x == 0)%Q -> binary64_rnd x = 0%Q.
Proof.
  intros Hx. unfold binary64_rnd. cbv zeta.
  pose proof (Qred_correct x) as Hr.
  destruct (Qcompare_spec (Qred x) 0) as [H0 | H0 | H0]; try lra.
  reflexivity.
Qed.

Lemma binary64_rnd_neg (x : Q) :
  (x < 0)%Q -> (binary64_rnd x == - rnd_pos (- x))%Q.
Proof.
  intros Hx. unfold binary64_rnd. cbv zeta.
  pose proof (Qred_correct x) as Hr.
  destruct (Qcompare_spec (Qred x) 0) as [H0 | H0 | H0]; try lra.
  rewrite Qred_correct. apply Qopp_comp.
  apply rnd_pos_comp; [lra | now rewrite Hr].
Qed.

Lemma binary64_rnd_canon (x y : Q) :
  (x == y)%Q -> binary64_rnd x = binary64_rnd y.
Proof.
  intros Hxy. unfold binary64_rnd. now rewrite (Qred_complete x y Hxy).
Qed.

Lemma binary64_rnd_reduced (x : Q) : Qred (binary64_rnd x) = binary64_rnd x.
Proof.
  unfold binary64_rnd. destruct (Qred x ?= 0)%Q;
    [reflexivity | apply Qred_involutive | apply Qred_involutive].
Qed.

Lemma binary64_rnd_mono (x y : Q) :
  (x <= y)%Q -> (binary64_rnd x <= binary64_rnd y)%Q.
Proof.
  intros Hxy.
  destruct (Qcompare_spec x 0) as [Hx | Hx | Hx];
    destruct (Qcompare_spec y 0) as [Hy | Hy | Hy]; try lra.
  - rewrite (binary64_rnd_zero x Hx), (binary64_rnd_zero y Hy). lra.
  - rewrite (binary64_rnd_zero x Hx), (binary64_rnd_pos y Hy).
    now apply rnd_pos_nonneg.
  - rewrite (binary64_rnd_neg x Hx), (binary64_rnd_zero y Hy).
    assert (0 <= rnd_pos (- x))%Q by (apply rnd_pos_nonneg; lra). lra.
  - rewrite (binary64_rnd_neg x Hx), (binary64_rnd_neg y Hy).
    assert (rnd_pos (- y) <= rnd_pos (- x))%Q
      by (apply rnd_pos_mono; lra). lra.
  - rewrite (binary64_rnd_neg x Hx), (binary64_rnd_pos y Hy).
    assert (0 <= rnd_pos (- x))%Q by (apply rnd_pos_nonneg; lra).
    assert (0 <= rnd_pos y)%Q by (now apply rnd_pos_nonneg). lra.
  - rewrite (binary64_rnd_pos x Hx), (binary64_rnd_pos y Hy).
    now apply rnd_pos_mono.
Qed.

(** The floats: multiples of a power of two from 2^-1074 up, with a
    mantissa of at most 53 bits. *)
Definition representable (v : Q) : Prop :=
  exists m c : Z,
    (v == inject_Z m * pow2 c)%Q /\ Z.abs m <= 2 ^ 53 /\ -1074 <= c.

Lemma binary64_rnd_exact (v : Q) :
  representable v -> (binary64_rnd v == v)%Q.
Proof.
  intros [m [c [Hv [Hm Hc]]]].
  destruct (Z.lt_trichotomy m 0) as [Hneg | [-> | Hpos]].
  - assert (v < 0)%Q as Hlt.
    { rewrite Hv. pose proof (pow2_pos c).
      assert (inject_Z m < 0)%Q
        by (change 0%Q with (inject_Z 0); rewrite <- Zlt_Qlt; lia).
      nra. }
    rewrite (binary64_rnd_neg v Hlt).
    rewrite (rnd_pos_exact (- v) (- m) c); [ring | | lia | assumption].
    rewrite Hv, inject_Z_opp. ring.
  - rewrite binary64_rnd_zero; [| rewrite Hv; ring].
    rewrite Hv. ring.
  - assert (0 < v)%Q as Hgt.
    { rewrite Hv. apply Qmult_lt_0_compat; [| apply pow2_pos].
      now rewrite <- (Zlt_Qlt 0). }
    rewrite (binary64_rnd_pos v Hgt).
    apply (rnd_pos_exact v m c); [assumption | lia | assumption].
Qed.

Lemma binary64_rnd_representable (x : Q) : representable (binary64_rnd x).
Proof.
  destruct (Qcompare_spec x 0) as [Hx | Hx | Hx].
  - exists 0, 0. rewrite (binary64_rnd_zero x Hx).
    split; [ring | split; [simpl; lia | lia]].
  - exists (- round_half_even (- x / pow2 (expo (- x)))), (expo (- x)).
    assert (0 < - x)%Q as Hn by lra.
    pose proof (mantissa_bounds (- x) Hn).
    rewrite (binary64_rnd_neg x Hx). unfold rnd_pos.
    split; [rewrite inject_Z_opp; ring | split; [lia | unfold expo; lia]].
  - exists (round_half_even (x / pow2 (expo x))), (expo x).
    pose proof (mantissa_bounds x Hx).
    rewrite (binary64_rnd_pos x Hx). unfold rnd_pos.
    split; [reflexivity | split; [lia | unfold expo; lia]].
Qed.

Lemma binary64_rnd_int (n : Z) :
  Z.abs n <= 2 ^ 53 -> binary64_rnd (inject_Z n) = inject_Z n.
Proof.
  intros Hn.
  assert (binary64_rnd (inject_Z n) == inject_Z n)%Q as Hv.
  { apply binary64_rnd_exact. exists n, 0.
    split; [change (pow2 0) with 1%Q; ring | split; [assumption | lia]]. }
  apply Qred_complete in Hv. rewrite binary64_rnd_reduced in Hv.
  rewrite Hv. apply Qred_inject_Z.
Qed.

Lemma binary64_rnd_double (x : Q) :
  (binary64_rnd (2 * binary64_rnd x) == 2 * binary64_rnd x)%Q.
Proof.
  apply binary64_rnd_exact.
  destruct (binary64_rnd_representable x) as [m [c [Hv [Hm Hc]]]].
  exists m, (c + 1). split; [| split; [assumption | lia]].
  rewrite Hv, pow2_add. change (pow2 1) with 2%Q. ring.
Qed.

(** IEEE 754 binary64 rounding, classes enumerated in insertion order. *)
Definition binary64_host : Host :=
  mkHost binary64_rnd binary64_rnd_mono binary64_rnd_canon binary64_rnd_int
    binary64_rnd_double (fun l => l) (fun l => Permutation_refl l).

(** A candidate that answers with the reference value and touches nothing. *)
Definition reference_candidate (H : Host) : candidate :=
  fun yt yp =>
    mkCall
      (match _macro_f1_ref H (IList yt) (IList yp) with
       | inl e => inl e
       | inr f => inr (PFloat f)
       end) yt yp.

(** * Properties *)

(** ** Label normalizer *)

(** What [_normalize_label] returns, as a function. *)
Definition normalized (x : value) : value :=
  match x with
  | PFloat (FNaN _) => PSentinel
  | _ => x
  end.

Lemma is_nan_total (x : value) :
  _is_nan x = ok (match x with PFloat f => isnan f | _ => false end).
Proof.
  destruct x as [| b | z | f | s | l | l |]; try reflexivity.
Qed.

Lemma normalize_label_normalized (x : value) :
  _normalize_label x = ok (normalized x).
Proof.
  unfold _normalize_label. rewrite is_nan_total.
  destruct x as [| b | z | f | s | l | l |]; try reflexivity.
  destruct f; reflexivity.
Qed.

Lemma mapM_normalize (l : list value) :
  mapM _normalize_label l = ok (map normalized l).
Proof.
  induction l as [| x l IH]; simpl; [reflexivity |].
  rewrite normalize_label_normalized, IH. reflexivity.
Qed.


Definition is_nan_float (x : value) : bool :=
  match x with PFloat (FNaN _) => true | _ => false end.

Lemma normalized_not_nan (x : value) : is_nan_float (normalized x) = false.
Proof.
  destruct x as [| b | z | f | s | l | l |]; try reflexivity.
  destruct f; reflexivity.
Qed.



(** ** Equality of values *)

Lemma item_eq_refl : forall x, item_eq x x = true.
Proof.
  unfold item_eq.
  induction x as [| b | z | f | s | l IH | l IH |] using value_nested_ind;
    simpl; try reflexivity.
  - destruct b; reflexivity.
  - unfold Qeq_bool, inject_Z; simpl. rewrite Z.eqb_refl. reflexivity.
  - destruct f as [q | s | i]; simpl.
    + unfold Qeq_bool. rewrite Z.eqb_refl. reflexivity.
    + destruct s; reflexivity.
    + rewrite Nat.eqb_refl. reflexivity.
  - rewrite String.eqb_refl. reflexivity.
  - induction IH as [| a l Ha _ IHl]; [reflexivity |].
    rewrite Ha, IHl. reflexivity.
  - rewrite Nat.eqb_refl. simpl.
    apply forallb_forall. intros a Ha.
    apply existsb_exists. exists a. split; [assumption |].
    rewrite Forall_forall in IH. apply IH; assumption.
Qed.

(** [x == x] holds for every value but a NaN float. *)
Lemma py_eq_refl (x : value) : is_nan_float x = false -> py_eq x x = true.
Proof.
  intros Hx. pose proof (item_eq_refl x) as Hr. unfold item_eq in Hr.
  destruct x as [| b | z | f | s | l | l |]; try exact Hr.
  destruct f; try exact Hr. discriminate.
Qed.

(** [True] and [1] are the same label to [==]. *)
Lemma py_eq_true_one_r (a : value) : py_eq a (PBool true) = py_eq a (PInt 1).
Proof. destruct a as [| b | z | f | s | l | l |]; reflexivity. Qed.

(** ** Sets *)

(** No element of a set equals an element inserted before it. *)
Inductive distinct : list value -> Prop :=
| distinct_nil : distinct []
| distinct_snoc s x :
    distinct s -> existsb (fun k => item_eq k x) s = false ->
    distinct (s ++ [x]).

Lemma py_set_add_distinct (s : list value) (x : value) :
  distinct s -> distinct (py_set_add s x).
Proof.
  intros Hs. unfold py_set_add.
  destruct (existsb (fun k => item_eq k x) s) eqn:E; [assumption |].
  now constructor.
Qed.

Lemma fold_py_set_add_distinct (l s : list value) :
  distinct s -> distinct (fold_left py_set_add l s).
Proof.
  revert s. induction l as [| x l IH]; intros s Hs; simpl; [assumption |].
  apply IH, py_set_add_distinct, Hs.
Qed.

Lemma py_set_union_distinct (l1 l2 : list value) :
  distinct (py_set_union (py_set l1) (py_set l2)).
Proof.
  unfold py_set_union, py_set.
  apply fold_py_set_add_distinct, fold_py_set_add_distinct. constructor.
Qed.

(** Two members of a set that are not the same entry differ under [==] in
    one order at least. *)
Lemma distinct_In (s : list value) :
  distinct s -> forall a b, In a s -> In b s -> a <> b ->
  item_eq a b = false \/ item_eq b a = false.
Proof.
  induction 1 as [| s x Hs IH Hx]; intros a b Ha Hb Hab; [destruct Ha |].
  apply in_app_or in Ha. apply in_app_or in Hb.
  assert (Hfresh : forall k, In k s -> item_eq k x = false).
  { intros k Hk. destruct (item_eq k x) eqn:E; [| reflexivity].
    assert (existsb (fun k => item_eq k x) s = true) as Ht
      by (apply existsb_exists; eauto).
    congruence. }
  destruct Ha as [Ha | [Ha | []]], Hb as [Hb | [Hb | []]]; subst.
  - now apply IH.
  - left. now apply Hfresh.
  - right. now apply Hfresh.
  - congruence.
Qed.

Lemma py_set_add_In (s : list value) (x y : value) :
  In y (py_set_add s x) -> In y s \/ y = x.
Proof.
  unfold py_set_add. destruct (existsb _ s); [now left |].
  intros Hy. apply in_app_or in Hy. destruct Hy as [Hy | [Hy | []]]; auto.
Qed.

Lemma fold_py_set_add_In (l s : list value) (y : value) :
  In y (fold_left py_set_add l s) -> In y s \/ In y l.
Proof.
  revert s. induction l as [| x l IH]; intros s Hy; simpl in *; [now left |].
  apply IH in Hy. destruct Hy as [Hy | Hy]; [| now right; right].
  apply py_set_add_In in Hy. destruct Hy as [Hy | Hy]; auto.
Qed.

Lemma py_set_union_In (l1 l2 : list value) (y : value) :
  In y (py_set_union (py_set l1) (py_set l2)) -> In y l1 \/ In y l2.
Proof.
  unfold py_set_union, py_set. intros Hy.
  apply fold_py_set_add_In in Hy. destruct Hy as [Hy | Hy].
  - apply fold_py_set_add_In in Hy. destruct Hy as [[] | Hy]. now left.
  - apply fold_py_set_add_In in Hy. destruct Hy as [[] | Hy]. now right.
Qed.

Lemma py_set_add_length (s : list value) (x : value) :
  (List.length (py_set_add s x) <= S (List.length s))%nat.
Proof.
  unfold py_set_add. destruct (existsb _ s); [lia |].
  rewrite length_app. simpl. lia.
Qed.

Lemma fold_py_set_add_length (l s : list value) :
  (List.length (fold_left py_set_add l s) <= List.length s + List.length l)%nat.
Proof.
  revert s. induction l as [| x l IH]; intros s; simpl; [lia |].
  specialize (IH (py_set_add s x)). pose proof (py_set_add_length s x). lia.
Qed.

Lemma py_set_add_nonempty (s : list value) (x : value) : py_set_add s x <> [].
Proof.
  unfold py_set_add. destruct s as [| k s]; simpl; [discriminate |].
  destruct (item_eq k x || existsb _ s); [discriminate |].
  discriminate.
Qed.

Lemma fold_py_set_add_nil (l s : list value) :
  fold_left py_set_add l s = [] -> l = [] /\ s = [].
Proof.
  revert s. induction l as [| x l IH]; intros s Hs; simpl in *; [auto |].
  apply IH in Hs. destruct Hs as [_ Hs]. now apply py_set_add_nonempty in Hs.
Qed.

(** ** Reference engine *)

Lemma overflow_bound_large : 2 ^ 53 < float_overflow_bound.
Proof. apply Z.ltb_lt. vm_compute. reflexivity. Qed.

Lemma no_overflow (q : Q) :
  (Qabs q <= inject_Z (2 ^ 53))%Q -> float_overflows q = false.
Proof.
  intros Hq. unfold float_overflows.
  destruct (Qle_bool (inject_Z float_overflow_bound) (Qabs q)) eqn:E;
    [| reflexivity].
  apply Qle_bool_iff in E.
  assert (inject_Z float_overflow_bound <= inject_Z (2 ^ 53))%Q as Hb
    by (eapply Qle_trans; eassumption).
  rewrite <- Zle_Qle in Hb. pose proof overflow_bound_large. lia.
Qed.

Lemma count_pairs_nonneg cond yt yp : 0 <= count_pairs cond yt yp.
Proof. unfold count_pairs. lia. Qed.

Lemma count_pairs_diag cond (l : list value) :
  count_pairs cond l l =
  Z.of_nat (List.length (filter (fun a => cond a a) l)).
Proof.
  unfold count_pairs. f_equal.
  induction l as [| a l IH]; simpl; [reflexivity |].
  destruct (cond a a); simpl; now rewrite IH.
Qed.

Definition unit_q (q : Q) : Prop := (0 <= q <= 1)%Q.

Lemma Qeq_dec' (x y : Q) : {x = y} + {x <> y}.
Proof. decide equality; [apply Pos.eq_dec | apply Z.eq_dec]. Qed.

Section EngineFacts.
Variable H : Host.

Lemma fl_mono (x y : Q) : (x <= y)%Q -> (fl H x <= fl H y)%Q.
Proof. apply rnd_mono. Qed.

Lemma fl_canon (x y : Q) : (x == y)%Q -> fl H x = fl H y.
Proof. apply rnd_canon. Qed.

Lemma fl_Z (n : Z) : Z.abs n <= 2 ^ 53 -> fl H (inject_Z n) = inject_Z n.
Proof. apply rnd_int. Qed.

Lemma fl_0 : fl H 0 = 0%Q.
Proof. apply (fl_Z 0). simpl. lia. Qed.

Lemma fl_1 : fl H 1 = 1%Q.
Proof. apply (fl_Z 1). simpl. lia. Qed.

Lemma fl_2 : fl H 2 = 2%Q.
Proof. apply (fl_Z 2). simpl. lia. Qed.

Lemma fl_unit (x : Q) : unit_q x -> unit_q (fl H x).
Proof.
  intros [H0 H1]. split.
  - rewrite <- fl_0. now apply fl_mono.
  - rewrite <- fl_1. now apply fl_mono.
Qed.

(** The zero-division policy in the words of the specification. *)
Definition spec_precision (tp fp : Z) : Q :=
  if tp + fp =? 0 then 0%Q else fl H (inject_Z tp / inject_Z (tp + fp)).
Definition spec_recall (tp fn : Z) : Q :=
  if tp + fn =? 0 then 0%Q else fl H (inject_Z tp / inject_Z (tp + fn)).
Definition spec_f1 (precision recall : Q) : Q :=
  if Qeq_bool (fl H (precision + recall)) 0 then 0%Q
  else fl H (fl H (fl H (2 * precision) * recall)
             / fl H (precision + recall)).
Definition spec_class_f1 (yt yp : list value) (c : value) : Q :=
  spec_f1 (spec_precision (tp_of yt yp c) (fp_of yt yp c))
          (spec_recall (tp_of yt yp c) (fn_of yt yp c)).

Lemma ratio_unit (a b : Z) :
  0 <= a -> 0 <= b -> a + b <> 0 ->
  unit_q (inject_Z a / inject_Z (a + b)).
Proof.
  intros Ha Hb Hab.
  assert (0 < inject_Z (a + b))%Q as Hpos
    by (rewrite <- (Zlt_Qlt 0); lia).
  split.
  - apply Qle_shift_div_l; [assumption |].
    rewrite Qmult_0_l. rewrite <- (Zle_Qle 0). assumption.
  - apply Qle_shift_div_r; [assumption |].
    rewrite Qmult_1_l. rewrite <- Zle_Qle. lia.
Qed.

Lemma unit_no_overflow (q : Q) : unit_q q -> float_overflows q = false.
Proof.
  intros [H0 H1]. apply no_overflow.
  rewrite Qabs_pos by assumption.
  eapply Qle_trans; [eassumption |].
  change 1%Q with (inject_Z 1). rewrite <- Zle_Qle. simpl. lia.
Qed.

Lemma int_truediv_ratio (a b : Z) :
  0 <= a -> 0 <= b -> a + b <> 0 ->
  int_truediv H a (a + b) = ok (fl H (inject_Z a / inject_Z (a + b))).
Proof.
  intros Ha Hb Hab. unfold int_truediv.
  destruct (a + b =? 0) eqn:E; [apply Z.eqb_eq in E; contradiction |].
  rewrite unit_no_overflow by now apply ratio_unit.
  reflexivity.
Qed.

Lemma prec_of_spec (tp fp : Z) :
  0 <= tp -> 0 <= fp -> prec_of H tp fp = ok (spec_precision tp fp).
Proof.
  intros Ht Hf. unfold prec_of, spec_precision.
  destruct (tp + fp =? 0) eqn:E; [reflexivity |].
  apply int_truediv_ratio; try assumption. now apply Z.eqb_neq.
Qed.

Lemma rec_of_spec (tp fn : Z) :
  0 <= tp -> 0 <= fn -> rec_of H tp fn = ok (spec_recall tp fn).
Proof. apply prec_of_spec. Qed.

Lemma f1_of_spec (p r : Q) : f1_of H p r = ok (spec_f1 p r).
Proof.
  unfold f1_of, spec_f1, float_truediv.
  destruct (Qeq_bool (fl H (p + r)) 0); reflexivity.
Qed.

Lemma class_f1_spec (yt yp : list value) (c : value) :
  class_f1 H yt yp c = ok (spec_class_f1 yt yp c).
Proof.
  unfold class_f1, spec_class_f1, tp_of, fp_of, fn_of.
  rewrite prec_of_spec, rec_of_spec by apply count_pairs_nonneg.
  simpl. apply f1_of_spec.
Qed.

Lemma mapM_class_f1 (yt yp cs : list value) :
  mapM (class_f1 H yt yp) cs = ok (map (spec_class_f1 yt yp) cs).
Proof.
  induction cs as [| c cs IH]; simpl; [reflexivity |].
  rewrite class_f1_spec, IH. reflexivity.
Qed.

(** A float whose double is exact: every rounded value, and zero. *)
Definition doubles (p : Q) : Prop := (fl H (2 * p) == 2 * p)%Q.

Lemma doubles_fl (x : Q) : doubles (fl H x).
Proof. apply rnd_double. Qed.

Lemma doubles_0 : doubles 0.
Proof.
  unfold doubles. rewrite (fl_canon (2 * 0) 0) by reflexivity.
  rewrite fl_0. reflexivity.
Qed.

Lemma spec_precision_unit (tp fp : Z) :
  0 <= tp -> 0 <= fp ->
  unit_q (spec_precision tp fp) /\ doubles (spec_precision tp fp).
Proof.
  intros Ht Hf. unfold spec_precision.
  destruct (tp + fp =? 0) eqn:E.
  - split; [split; discriminate | apply doubles_0].
  - split; [| apply doubles_fl].
    apply fl_unit, ratio_unit; try assumption. now apply Z.eqb_neq.
Qed.

Lemma spec_f1_unit (p r : Q) :
  unit_q p -> unit_q r -> doubles p -> unit_q (spec_f1 p r).
Proof.
  intros [Hp0 Hp1] [Hr0 Hr1] Hd. unfold spec_f1.
  destruct (Qeq_bool (fl H (p + r)) 0) eqn:E; [split; discriminate |].
  apply Qeq_bool_neq in E.
  assert (0 <= fl H (p + r))%Q as Hs0.
  { rewrite <- fl_0. apply fl_mono. lra. }
  assert (0 < fl H (p + r))%Q as Hs by lra.
  unfold doubles in Hd.
  rewrite (fl_canon (fl H (2 * p) * r) (2 * p * r))
    by (rewrite Hd; reflexivity).
  assert (0 <= fl H (2 * p * r))%Q as Hn0.
  { rewrite <- fl_0. apply fl_mono. nra. }
  assert (fl H (2 * p * r) <= fl H (p + r))%Q as Hn1.
  { apply fl_mono. nra. }
  apply fl_unit. split.
  - apply Qle_shift_div_l; [assumption | lra].
  - apply Qle_shift_div_r; [assumption | lra].
Qed.

Lemma spec_class_f1_unit (yt yp : list value) (c : value) :
  unit_q (spec_class_f1 yt yp c).
Proof.
  unfold spec_class_f1.
  destruct (spec_precision_unit (tp_of yt yp c) (fp_of yt yp c))
    as [Hp Hd]; try apply count_pairs_nonneg.
  destruct (spec_precision_unit (tp_of yt yp c) (fn_of yt yp c))
    as [Hr _]; try apply count_pairs_nonneg.
  now apply spec_f1_unit.
Qed.

(** sum(f1s) of k values of the unit interval lies between 0 and k. *)
Lemma fold_sum_bound (l : list Q) :
  Forall unit_q l ->
  forall (s : Q) (k : Z),
    0 <= k -> k + Z.of_nat (List.length l) <= 2 ^ 53 ->
    (0 <= s <= inject_Z k)%Q ->
    (0 <= fold_left (fun s x => fl H (s + x)) l s
       <= inject_Z (k + Z.of_nat (List.length l)))%Q.
Proof.
  induction 1 as [| x l [Hx0 Hx1] _ IH]; intros s k Hk Hlen [Hs0 Hs1].
  - simpl. rewrite Z.add_0_r. split; assumption.
  - simpl fold_left.
    replace (k + Z.of_nat (List.length (x :: l)))
      with ((k + 1) + Z.of_nat (List.length l))
      in * by (simpl List.length; lia).
    apply IH; [lia | assumption |].
    split.
    + rewrite <- fl_0. apply fl_mono. lra.
    + rewrite <- (fl_Z (k + 1)) by lia. apply fl_mono.
      rewrite inject_Z_plus. change (inject_Z 1) with 1%Q. lra.
Qed.

Lemma py_sum_bound (l : list Q) :
  Forall unit_q l -> Z.of_nat (List.length l) <= 2 ^ 53 ->
  (0 <= py_sum H l <= inject_Z (Z.of_nat (List.length l)))%Q.
Proof.
  intros Hl Hn. unfold py_sum.
  apply (fold_sum_bound l Hl 0 0); [lia | lia |].
  split; discriminate.
Qed.

Lemma float_of_len (n : Z) :
  0 <= n <= 2 ^ 53 -> float_of_int H n = ok (inject_Z n).
Proof.
  intros Hn. unfold float_of_int.
  rewrite no_overflow.
  - rewrite fl_Z by lia. reflexivity.
  - rewrite Qabs_pos by (rewrite <- (Zle_Qle 0); lia).
    rewrite <- Zle_Qle. lia.
Qed.

Lemma mean_f1_nonempty (f1s : list Q) :
  f1s <> [] -> Z.of_nat (List.length f1s) <= 2 ^ 53 ->
  mean_f1 H f1s =
  ok (FFin (fl H (py_sum H f1s / inject_Z (Z.of_nat (List.length f1s))))).
Proof.
  intros Hne Hn.
  assert (0 < Z.of_nat (List.length f1s)) as Hpos
    by (destruct f1s; [congruence | simpl List.length; lia]).
  unfold mean_f1. destruct f1s as [| x l]; [congruence |].
  remember (Z.of_nat (List.length (x :: l))) as n eqn:En.
  rewrite float_of_len by lia. unfold rbind, float_truediv, ok, raise.
  destruct (Qeq_bool (inject_Z n) 0) eqn:E; [| reflexivity].
  apply Qeq_bool_eq in E. change 0%Q with (inject_Z 0) in E.
  apply (proj1 (inject_Z_injective n 0)) in E. lia.
Qed.

Lemma mean_f1_unit (f1s : list Q) :
  Forall unit_q f1s -> Z.of_nat (List.length f1s) <= 2 ^ 53 ->
  exists m, mean_f1 H f1s = ok (FFin m) /\ unit_q m.
Proof.
  intros Hl Hn. destruct (list_eq_dec Qeq_dec' f1s []) as [-> | Hne].
  - exists 0%Q. split; [reflexivity | split; discriminate].
  - rewrite mean_f1_nonempty by assumption.
    eexists. split; [reflexivity |].
    pose proof (py_sum_bound f1s Hl Hn) as [Hs0 Hs1].
    assert (0 < inject_Z (Z.of_nat (List.length f1s)))%Q as Hq.
    { rewrite <- (Zlt_Qlt 0).
      destruct f1s; [congruence | simpl List.length; lia]. }
    apply fl_unit. split.
    + apply Qle_shift_div_l; [assumption | lra].
    + apply Qle_shift_div_r; [assumption | lra].
Qed.

End EngineFacts.

Section EngineTheorems.
Variable H : Host.

Lemma macro_f1_ref_traced_mismatch (y_true y_pred : iterable) :
  List.length (_materialize y_true) <> List.length (_materialize y_pred) ->
  _macro_f1_ref_traced H y_true y_pred =
  ([PhMaterialize; PhMaterialize; PhCheckLength], raise (exc ValueError)).
Proof.
  intros Hlen. apply Nat.eqb_neq in Hlen.
  unfold _macro_f1_ref_traced, tbind, mark. cbn.
  rewrite Hlen. reflexivity.
Qed.

(** On sequences of equal length the reference stops at a key that
    cannot be computed and otherwise averages the class scores. *)
Lemma macro_f1_ref_cases (y_true y_pred : iterable) :
  List.length (_materialize y_true) = List.length (_materialize y_pred) ->
  _macro_f1_ref H y_true y_pred =
  let yt := map normalized (_materialize y_true) in
  let yp := map normalized (_materialize y_pred) in
  if keys_raise yt yp then raise (exc ValueError)
  else mean_f1 H (map (spec_class_f1 H yt yp) (classes_of H yt yp)).
Proof.
  intros Hlen. apply Nat.eqb_eq in Hlen.
  unfold _macro_f1_ref, _macro_f1_ref_traced, tbind, mark. cbn.
  rewrite Hlen. cbn. rewrite !mapM_normalize. cbn.
  unfold sorted_classes.
  destruct (keys_raise _ _); cbn; [reflexivity |].
  rewrite mapM_class_f1. cbn.
  destruct (mean_f1 H _); reflexivity.
Qed.

Lemma str_raises_normalized (x : value) :
  str_raises (normalized x) = true -> str_raises x = true.
Proof.
  destruct x as [| b | z | f | s | l | l |]; try (intros E; exact E).
  destruct f; cbn; intros E; exact E.
Qed.

(** Labels whose [str] can be computed give a set whose keys can. *)
Lemma keys_raise_labels (yt yp : list value) :
  existsb str_raises yt = false -> existsb str_raises yp = false ->
  keys_raise (map normalized yt) (map normalized yp) = false.
Proof.
  intros Ht Hp. unfold keys_raise.
  destruct (existsb str_raises (py_set_union _ _)) eqn:E; [| reflexivity].
  apply existsb_exists in E. destruct E as [x [Hin Hx]].
  apply py_set_union_In in Hin.
  assert (Hno : forall l, existsb str_raises l = false ->
            In x (map normalized l) -> False).
  { intros l Hl Hi. apply in_map_iff in Hi. destruct Hi as [a [<- Ha]].
    apply str_raises_normalized in Hx.
    assert (existsb str_raises l = true) as Ht'
      by (apply existsb_exists; eauto).
    congruence. }
  destruct Hin as [Hin | Hin]; exfalso; eauto.
Qed.

Lemma macro_f1_ref_eq (y_true y_pred : iterable) :
  List.length (_materialize y_true) = List.length (_materialize y_pred) ->
  existsb str_raises (_materialize y_true) = false ->
  existsb str_raises (_materialize y_pred) = false ->
  _macro_f1_ref H y_true y_pred =
  let yt := map normalized (_materialize y_true) in
  let yp := map normalized (_materialize y_pred) in
  mean_f1 H (map (spec_class_f1 H yt yp) (classes_of H yt yp)).
Proof.
  intros Hlen Ht Hp. rewrite macro_f1_ref_cases by assumption. cbv zeta.
  now rewrite keys_raise_labels.
Qed.

Lemma classes_of_In (yt yp : list value) (c : value) :
  In c (classes_of H yt yp) -> In c yt \/ In c yp.
Proof.
  unfold classes_of. intros Hc.
  apply py_set_union_In.
  eapply Permutation_in; [apply sorted_by_key_perm | exact Hc].
Qed.

Lemma classes_of_length (yt yp : list value) :
  (List.length (classes_of H yt yp) <= List.length yt + List.length yp)%nat.
Proof.
  unfold classes_of.
  rewrite (Permutation_length (sorted_by_key_perm H _)).
  unfold py_set_union, py_set.
  pose proof (fold_py_set_add_length yp []) as H1.
  pose proof (fold_py_set_add_length
                (fold_left py_set_add yp []) (fold_left py_set_add yt []))
    as H2.
  pose proof (fold_py_set_add_length yt []) as H3.
  simpl in *. lia.
Qed.

Lemma classes_of_nil (yt yp : list value) :
  classes_of H yt yp = [] <-> yt = [] /\ yp = [].
Proof.
  unfold classes_of. split.
  - intros Hc.
    pose proof (sorted_by_key_perm H
                  (py_set_union (py_set yt) (py_set yp))) as Hp.
    rewrite Hc in Hp. apply Permutation_nil in Hp.
    unfold py_set_union in Hp.
    apply fold_py_set_add_nil in Hp. destruct Hp as [Hyp Hyt].
    apply fold_py_set_add_nil in Hyp. apply fold_py_set_add_nil in Hyt.
    tauto.
  - intros [-> ->]. cbn.
    apply Permutation_nil, Permutation_sym, sorted_by_key_perm.
Qed.

Lemma classes_of_distinct (yt yp : list value) (a b : value) :
  In a (classes_of H yt yp) -> In b (classes_of H yt yp) -> a <> b ->
  item_eq a b = false \/ item_eq b a = false.
Proof.
  unfold classes_of. intros Ha Hb Hab.
  apply (distinct_In _ (py_set_union_distinct yt yp)); [| | exact Hab].
  - exact (Permutation_in a (sorted_by_key_perm H _) Ha).
  - exact (Permutation_in b (sorted_by_key_perm H _) Hb).
Qed.

(** *** Sequences that agree position by position *)

Lemma filter_never {A} (f : A -> bool) (l : list A) :
  (forall a, f a = false) -> filter f l = [].
Proof.
  intros Hf. induction l as [| a l IH]; simpl; [reflexivity |].
  now rewrite Hf.
Qed.

Lemma diag_tp_pos (l : list value) (c : value) :
  In c l -> py_eq c c = true -> 0 < tp_of l l c.
Proof.
  intros Hc Hr. unfold tp_of. rewrite count_pairs_diag.
  assert (In c (filter (fun a => py_eq a c && py_eq a c) l)) as Hin
    by (apply filter_In; split; [assumption | now rewrite Hr]).
  destruct (filter _ l); [destruct Hin | simpl List.length; lia].
Qed.

Lemma diag_fp_zero (l : list value) (c : value) : fp_of l l c = 0.
Proof.
  unfold fp_of. rewrite count_pairs_diag, filter_never; [reflexivity |].
  intros a. unfold py_ne. now destruct (py_eq a c).
Qed.

Lemma diag_fn_zero (l : list value) (c : value) : fn_of l l c = 0.
Proof.
  unfold fn_of. rewrite count_pairs_diag, filter_never; [reflexivity |].
  intros a. unfold py_ne. now destruct (py_eq a c).
Qed.

Lemma spec_f1_one : spec_f1 H 1 1 = 1%Q.
Proof.
  unfold spec_f1.
  rewrite (fl_canon H (1 + 1) 2) by reflexivity.
  rewrite (fl_canon H (2 * 1) 2) by reflexivity.
  rewrite fl_2. cbn [Qeq_bool].
  rewrite (fl_canon H (2 * 1) 2) by reflexivity. rewrite fl_2.
  rewrite (fl_canon H (2 / 2) 1) by reflexivity. apply fl_1.
Qed.

Lemma diag_class_f1_one (l : list value) (c : value) :
  In c l -> py_eq c c = true -> spec_class_f1 H l l c = 1%Q.
Proof.
  intros Hc Hr. unfold spec_class_f1.
  rewrite diag_fp_zero, diag_fn_zero.
  pose proof (diag_tp_pos l c Hc Hr) as Htp.
  assert (spec_precision H (tp_of l l c) 0 = 1%Q) as Hp.
  { unfold spec_precision. rewrite Z.add_0_r.
    destruct (tp_of l l c =? 0) eqn:E; [apply Z.eqb_eq in E; lia |].
    rewrite (fl_canon H _ 1); [apply fl_1 |].
    apply Qmult_inv_r. change 0%Q with (inject_Z 0).
    intros Hz. apply (proj1 (inject_Z_injective _ _)) in Hz. lia. }
  change (spec_recall H (tp_of l l c) 0)
    with (spec_precision H (tp_of l l c) 0).
  rewrite Hp. apply spec_f1_one.
Qed.

Lemma py_sum_ones (l : list Q) :
  Forall (eq 1%Q) l ->
  forall k : Z, 0 <= k -> k + Z.of_nat (List.length l) <= 2 ^ 53 ->
  fold_left (fun s x => fl H (s + x)) l (inject_Z k)
  = inject_Z (k + Z.of_nat (List.length l)).
Proof.
  induction 1 as [| x l Hx _ IH]; intros k Hk Hlen.
  - simpl. now rewrite Z.add_0_r.
  - subst x. simpl fold_left.
    change 1%Q with (inject_Z 1). rewrite <- inject_Z_plus.
    simpl List.length in Hlen.
    rewrite fl_Z by lia. rewrite IH by lia.
    f_equal. simpl List.length. lia.
Qed.

Lemma mean_f1_ones (f1s : list Q) :
  f1s <> [] -> Forall (eq 1%Q) f1s ->
  Z.of_nat (List.length f1s) <= 2 ^ 53 ->
  mean_f1 H f1s = ok (FFin 1).
Proof.
  intros Hne Hall Hn. rewrite mean_f1_nonempty by assumption.
  unfold py_sum. change 0%Q with (inject_Z 0).
  rewrite py_sum_ones by (try assumption; lia).
  rewrite Z.add_0_l.
  rewrite (fl_canon H _ 1); [now rewrite fl_1 |].
  apply Qmult_inv_r. change 0%Q with (inject_Z 0).
  intros Hz. apply (proj1 (inject_Z_injective _ _)) in Hz.
  destruct f1s; [congruence | simpl List.length in Hz; lia].
Qed.

End EngineTheorems.

(** ** Membership in a set *)

Lemma py_set_add_keeps (s : list value) (x k : value) :
  In k s -> In k (py_set_add s x).
Proof.
  unfold py_set_add. destruct (existsb _ s); [auto |].
  intros Hk. apply in_or_app. now left.
Qed.

Lemma py_set_add_covers (s : list value) (x : value) :
  exists k, In k (py_set_add s x) /\ item_eq k x = true.
Proof.
  unfold py_set_add.
  destruct (existsb (fun k => item_eq k x) s) eqn:E.
  - apply existsb_exists in E. exact E.
  - exists x. split; [apply in_or_app; right; now left | apply item_eq_refl].
Qed.

Lemma fold_py_set_add_keeps (l s : list value) (k : value) :
  In k s -> In k (fold_left py_set_add l s).
Proof.
  revert s. induction l as [| x l IH]; intros s Hk; simpl; [assumption |].
  apply IH, py_set_add_keeps, Hk.
Qed.

Lemma fold_py_set_add_covers (l s : list value) (x : value) :
  In x l -> exists k, In k (fold_left py_set_add l s) /\ item_eq k x = true.
Proof.
  revert s. induction l as [| y l IH]; intros s Hx; [destruct Hx |].
  simpl. destruct Hx as [-> | Hx]; [| now apply IH].
  destruct (py_set_add_covers s x) as [k [Hk Hkx]].
  exists k. split; [now apply fold_py_set_add_keeps | assumption].
Qed.

Lemma item_eq_set_member (s : list value) (x : value) :
  (exists k, In k s /\ item_eq k x = true) ->
  forall l, exists k, In k (fold_left py_set_add l s) /\ item_eq k x = true.
Proof.
  intros [k [Hk Hkx]] l. exists k.
  split; [now apply fold_py_set_add_keeps | assumption].
Qed.

(** [==] between numbers is the comparison of their values. *)
Lemma py_eq_numbers (x y : value) (a b : pyfloat) :
  as_number x = Some a -> as_number y = Some b -> py_eq x y = feq a b.
Proof.
  destruct x as [| bx | zx | fx | sx | lx | lx |]; try discriminate;
    destruct y as [| by' | zy | fy | sy | ly | ly |]; try discriminate;
    simpl; intros [= <-] [= <-]; reflexivity.
Qed.

Lemma item_eq_number_r (k x : value) (b : pyfloat) :
  as_number x = Some b -> isnan b = false -> item_eq k x = true ->
  exists a, as_number k = Some a /\ feq a b = true.
Proof.
  intros Hx Hb Hk. unfold item_eq in Hk.
  assert (same_nan k x = false) as Hs.
  { destruct k as [| bk | zk | fk | sk | lk | lk |]; try reflexivity.
    destruct fk; try reflexivity.
    destruct x as [| bx | zx | fx | sx | lx | lx |]; try reflexivity.
    destruct fx; try reflexivity. simpl in Hx. injection Hx as <-.
    discriminate. }
  rewrite Hs in Hk. simpl in Hk.
  destruct (as_number k) as [a |] eqn:Ek.
  - exists a. split; [reflexivity |].
    now rewrite <- (py_eq_numbers k x a b).
  - destruct k as [| bk | zk | fk | sk | lk | lk |]; try discriminate;
      destruct x as [| bx | zx | fx | sx | lx | lx |]; discriminate.
Qed.

Lemma feq_trans (a b c : pyfloat) :
  feq a b = true -> feq b c = true -> feq a c = true.
Proof.
  destruct a, b, c; simpl; try discriminate.
  - apply Qeq_bool_trans.
  - intros H1 H2. apply Bool.eqb_prop in H1. apply Bool.eqb_prop in H2.
    subst. apply Bool.eqb_reflx.
Qed.

Lemma feq_not_nan_l (a b : pyfloat) : feq a b = true -> isnan a = false.
Proof. destruct a, b; simpl; congruence. Qed.

(** Whatever equals something equal to a number equals that number. *)
Lemma item_eq_trans_number (x k k' : value) (b : pyfloat) :
  as_number x = Some b -> isnan b = false ->
  item_eq k x = true -> item_eq k' k = true -> item_eq k' x = true.
Proof.
  intros Hx Hb Hk Hk'.
  destruct (item_eq_number_r k x b Hx Hb Hk) as [a [Ha Hab]].
  destruct (item_eq_number_r k' k a Ha (feq_not_nan_l a b Hab) Hk')
    as [a' [Ha' Ha'a]].
  unfold item_eq. rewrite (py_eq_numbers k' x a' b Ha' Hx).
  rewrite (feq_trans a' a b Ha'a Hab). apply orb_true_r.
Qed.

Lemma classes_of_covers (H : Host) (yt yp : list value) (x : value) :
  (forall k k', item_eq k x = true -> item_eq k' k = true ->
                item_eq k' x = true) ->
  In x yt \/ In x yp ->
  exists c, In c (classes_of H yt yp) /\ item_eq c x = true.
Proof.
  intros Htrans Hx.
  assert (exists c, In c (py_set_union (py_set yt) (py_set yp)) /\
                    item_eq c x = true) as [c [Hc Hcx]].
  { unfold py_set_union. destruct Hx as [Hx | Hx].
    - apply item_eq_set_member. unfold py_set.
      now apply fold_py_set_add_covers.
    - destruct (fold_py_set_add_covers yp [] x Hx) as [k [Hk Hkx]].
      destruct (fold_py_set_add_covers (py_set yp) (py_set yt) k Hk)
        as [k' [Hk' Hk'k]].
      exists k'. split; [exact Hk' | now apply (Htrans k k')]. }
  exists c. split; [| assumption].
  unfold classes_of.
  eapply Permutation_in; [apply Permutation_sym, sorted_by_key_perm | exact Hc].
Qed.

(** ** C1: the boolean [True] and the integer [1] as labels *)

(** C1, counterexample.  For truth [True, 1] and predictions [1, True]
    normalization changes neither label, yet the ClassSet has the single
    member [True]: the integer 1 is no class of its own, and the reference
    scores the pair of sequences as a perfect match. *)
Lemma bool_true_int_one_single_class :
  mapM _normalize_label [PBool true; PInt 1] = ok [PBool true; PInt 1] /\
  mapM _normalize_label [PInt 1; PBool true] = ok [PInt 1; PBool true] /\
  classes_of binary64_host [PBool true; PInt 1] [PInt 1; PBool true]
    = [PBool true] /\
  _macro_f1_ref binary64_host (IList [PBool true; PInt 1])
                           (IList [PInt 1; PBool true]) = ok (FFin 1).
Proof. repeat split; vm_compute; reflexivity. Qed.

(** C1, as amended.  Normalization leaves [True] and [1] unchanged, but
    they are equal under [==] in both directions, so they are one class:
    no ClassSet has both as members, whenever either occurs some single
    member of the ClassSet equals both, and the two have the same confusion
    counts and the same per-class F1. *)
Theorem bool_true_int_one_share_class (H : Host) (yt yp : list value) :
  _normalize_label (PBool true) = ok (PBool true) /\
  _normalize_label (PInt 1) = ok (PInt 1) /\
  py_eq (PBool true) (PInt 1) = true /\
  py_eq (PInt 1) (PBool true) = true /\
  ~ (In (PBool true) (classes_of H yt yp) /\
     In (PInt 1) (classes_of H yt yp)) /\
  ((In (PBool true) (yt ++ yp) \/ In (PInt 1) (yt ++ yp)) ->
   exists c, In c (classes_of H yt yp) /\
             py_eq c (PBool true) = true /\ py_eq c (PInt 1) = true) /\
  tp_of yt yp (PBool true) = tp_of yt yp (PInt 1) /\
  fp_of yt yp (PBool true) = fp_of yt yp (PInt 1) /\
  fn_of yt yp (PBool true) = fn_of yt yp (PInt 1) /\
  class_f1 H yt yp (PBool true) = class_f1 H yt yp (PInt 1).
Proof.
  assert (Hcount : forall cond1 cond2 : value -> value -> bool,
             (forall a b, cond1 a b = cond2 a b) ->
             count_pairs cond1 yt yp = count_pairs cond2 yt yp).
  { intros c1 c2 Hc. unfold count_pairs. do 2 f_equal.
    apply filter_ext. intros [a b]. apply Hc. }
  assert (Htp : tp_of yt yp (PBool true) = tp_of yt yp (PInt 1)).
  { apply Hcount. intros a b. now rewrite !py_eq_true_one_r. }
  assert (Hfp : fp_of yt yp (PBool true) = fp_of yt yp (PInt 1)).
  { apply Hcount. intros a b. unfold py_ne. now rewrite !py_eq_true_one_r. }
  assert (Hfn : fn_of yt yp (PBool true) = fn_of yt yp (PInt 1)).
  { apply Hcount. intros a b. unfold py_ne. now rewrite !py_eq_true_one_r. }
  repeat split; try reflexivity; try assumption.
  - intros [Ht Ho].
    destruct (classes_of_distinct H yt yp _ _ Ht Ho) as [E | E];
      [discriminate | discriminate E | discriminate E].
  - intros Hocc.
    assert (exists x, (x = PBool true \/ x = PInt 1) /\
                      (In x yt \/ In x yp)) as [x [Hx Hin]].
    { destruct Hocc as [Hocc | Hocc]; apply in_app_or in Hocc; eauto. }
    assert (as_number x = Some (FFin 1)) as Hnum
      by (destruct Hx as [-> | ->]; reflexivity).
    destruct (classes_of_covers H yt yp x) as [c [Hc Hcx]].
    + intros k k'. now apply (item_eq_trans_number x k k' (FFin 1)).
    + assumption.
    + exists c. split; [assumption |].
      destruct (item_eq_number_r c x (FFin 1) Hnum eq_refl Hcx)
        as [a [Ha Hfe]].
      split.
      * now rewrite (py_eq_numbers c (PBool true) a (FFin 1)).
      * now rewrite (py_eq_numbers c (PInt 1) a (FFin 1)).
  - unfold class_f1. now rewrite Htp, Hfp, Hfn.
Qed.

(** ** C6: the zero-division policy *)

(** C6.  Precision is 0.0 when tp+fp is 0 and tp/(tp+fp) otherwise; recall
    is 0.0 when tp+fn is 0 and tp/(tp+fn) otherwise; the F1 of a class is
    0.0 when precision+recall is 0 and 2*precision*recall /
    (precision+recall) otherwise; none of these ever raises, every class of
    a run that gets past the sort (whose key calls [str] on each class) is
    scored by them, the ClassSet is empty exactly when both sequences are,
    and the result is then 0.0. *)
Theorem zero_division_policy (H : Host) :
  (forall tp fp, 0 <= tp -> 0 <= fp ->
     prec_of H tp fp = ok (spec_precision H tp fp) /\
     (tp + fp = 0 -> prec_of H tp fp = ok 0%Q)) /\
  (forall tp fn, 0 <= tp -> 0 <= fn ->
     rec_of H tp fn = ok (spec_recall H tp fn) /\
     (tp + fn = 0 -> rec_of H tp fn = ok 0%Q)) /\
  (forall prec rec,
     f1_of H prec rec = ok (spec_f1 H prec rec) /\
     ((fl H (prec + rec) == 0)%Q -> f1_of H prec rec = ok 0%Q)) /\
  (forall yt yp c, class_f1 H yt yp c = ok (spec_class_f1 H yt yp c)) /\
  (forall y_true y_pred,
     List.length (_materialize y_true) = List.length (_materialize y_pred) ->
     _macro_f1_ref H y_true y_pred =
     if keys_raise (map normalized (_materialize y_true))
          (map normalized (_materialize y_pred))
     then raise (exc ValueError)
     else
       mean_f1 H (map (spec_class_f1 H (map normalized (_materialize y_true))
                                       (map normalized (_materialize y_pred)))
                      (classes_of H (map normalized (_materialize y_true))
                                    (map normalized (_materialize y_pred))))) /\
  (forall yt yp, classes_of H yt yp = [] <-> yt = [] /\ yp = []) /\
  (forall y_true y_pred,
     _materialize y_true = [] -> _materialize y_pred = [] ->
     _macro_f1_ref H y_true y_pred = ok (FFin 0)).
Proof.
  repeat match goal with |- _ /\ _ => split end.
  - intros tp fp Ht Hf. split; [now apply prec_of_spec |].
    intros Hz. unfold prec_of. now rewrite Hz.
  - intros tp fn Ht Hf. split; [now apply rec_of_spec |].
    intros Hz. unfold rec_of. now rewrite Hz.
  - intros p r. split; [apply f1_of_spec |].
    intros Hz. unfold f1_of. now rewrite (Qeq_eq_bool _ _ Hz).
  - apply class_f1_spec.
  - intros y_true y_pred Hlen. now rewrite macro_f1_ref_cases.
  - apply classes_of_nil.
  - intros y_true y_pred Ht Hp.
    rewrite macro_f1_ref_cases by now rewrite Ht, Hp.
    cbv zeta. rewrite Ht, Hp. simpl map.
    change (keys_raise [] []) with false. cbv iota.
    rewrite (proj2 (classes_of_nil H [] [])) by auto. reflexivity.
Qed.

(** ** C3: range of the reference value *)





(** ** The oracle, case by case *)

Arguments isinstance_exn : simpl never.
Arguments isinstance_float_int : simpl never.
Arguments float_of : simpl never.
Arguments in_unit_range : simpl never.
Arguments _approx_equal : simpl never.
Arguments _macro_f1_ref : simpl never.
Arguments py_list_ne : simpl never.

Section OracleFacts.
Variable H : Host.
Variable f : candidate.

(** What one call of [run_case] amounts to: its result and what it
    prints.  [run_case_report] below proves the two agree. *)
Definition report (name : string) (y_true y_pred : iterable)
  (expect : option pyfloat) (expect_exception : option exc_class)
  : result bool * list line :=
  let yt := _materialize y_true in
  let yp := _materialize y_pred in
  let r := f yt yp in
  match outcome r with
  | inl e =>
      if isinstance_exn e Exception then
        match expect_exception with
        | Some cls =>
            if isinstance_exn e cls
            then (ok true, [PASS_raised_expected name cls])
            else (ok false, [FAIL_unexpected_exception name e])
        | None => (ok false, [FAIL_unexpected_exception name e])
        end
      else (inl e, [])
  | inr out =>
      match expect_exception with
      | Some cls => (ok false, [FAIL_exception_not_raised name cls])
      | None =>
          if negb (isinstance_float_int out)
          then (ok false, [FAIL_output_not_float name out])
          else
            match float_of H out with
            | inl e => (inl e, [])
            | inr x =>
                if negb (in_unit_range H x)
                then (ok false, [FAIL_not_in_unit_range name x])
                else
                  match
                    match expect with
                    | None => _macro_f1_ref H (IList (y_true_after r))
                                              (IList (y_pred_after r))
                    | Some e => ok e
                    end
                  with
                  | inl e => (inl e, [])
                  | inr ref =>
                      if negb (_approx_equal H x ref)
                      then (ok false, [FAIL_value_mismatch name x ref])
                      else if py_list_ne (y_true_after r) yt
                      then (ok false, [FAIL_y_true_mutated name])
                      else if py_list_ne (y_pred_after r) yp
                      then (ok false, [FAIL_y_pred_mutated name])
                      else (ok true, [PASS_value name x])
                  end
            end
      end
  end.

Lemma run_case_report name y_true y_pred expect expect_exception w :
  run_case H f name y_true y_pred expect expect_exception w =
  (fst (report name y_true y_pred expect expect_exception),
   mkWorld
     (stdout w ++ snd (report name y_true y_pred expect expect_exception))
     (S (calls w))).
Proof.
  unfold run_case, report, ptry, pbind, invoke, pret, print, lift,
    _frozen_copy_list.
  cbn [select_clause].
  destruct (outcome (f (_materialize y_true) (_materialize y_pred)))
    as [e | out].
  - cbn. destruct (isinstance_exn e Exception).
    + destruct expect_exception as [cls |]; cbn;
        [destruct (isinstance_exn e cls) |]; reflexivity.
    + cbn. now rewrite app_nil_r.
  - destruct expect_exception as [cls |]; cbn; [reflexivity |].
    destruct (isinstance_float_int out); cbn; [| reflexivity].
    destruct (float_of H out) as [e | x]; cbn;
      [now rewrite app_nil_r |].
    destruct (in_unit_range H x); cbn; [| reflexivity].
    destruct expect as [e |]; cbn.
    + destruct (_approx_equal H x e); cbn; [| reflexivity].
      destruct (py_list_ne _ _); cbn; [reflexivity |].
      destruct (py_list_ne _ _); cbn; reflexivity.
    + destruct (_macro_f1_ref H _ _) as [e | ref]; cbn;
        [now rewrite app_nil_r |].
      destruct (_approx_equal H x ref); cbn; [| reflexivity].
      destruct (py_list_ne _ _); cbn; [reflexivity |].
      destruct (py_list_ne _ _); cbn; reflexivity.
Qed.

(** The verdict of a battery case. *)
Definition verdict (c : test_case) : result bool :=
  fst (report (tc_name c) (tc_true c) (tc_pred c) (tc_expect c)
         (tc_expect_exception c)).
Definition printed (c : test_case) : list line :=
  snd (report (tc_name c) (tc_true c) (tc_pred c) (tc_expect c)
         (tc_expect_exception c)).

Lemma run_test_report (c : test_case) (w : world) :
  run_test H f c w =
  (verdict c, mkWorld (stdout w ++ printed c) (S (calls w))).
Proof. unfold run_test. apply run_case_report. Qed.

(** When every case returns a verdict, [run_all] runs them all. *)
Lemma run_all_complete (cases : list test_case) :
  Forall (fun c => exists b, verdict c = ok b) cases ->
  forall (all_ok : bool) (w : world),
  exists w',
    run_all H f cases all_ok w =
    (ok (all_ok &&
         forallb (fun c => match verdict c with
                           | inr true => true
                           | _ => false
                           end) cases), w') /\
    calls w' = (calls w + List.length cases)%nat /\
    stdout w' = stdout w ++ flat_map printed cases.
Proof.
  induction 1 as [| c cases [b Hb] _ IH]; intros all_ok w.
  - exists w. cbn. rewrite andb_true_r, Nat.add_0_r, app_nil_r. auto.
  - cbn [run_all forallb flat_map List.length]. unfold pbind.
    rewrite run_test_report, !Hb.
    destruct (IH (all_ok && b)
                (mkWorld (stdout w ++ printed c) (S (calls w))))
      as [w' [Hrun [Hcalls Hout]]].
    exists w'. unfold ok in *. rewrite Hrun. cbn [stdout calls] in *.
    repeat split.
    + destruct all_ok, b; reflexivity.
    + lia.
    + now rewrite Hout, <- app_assoc.
Qed.


End OracleFacts.

Lemma ValueError_is_Exception (e : exn) :
  isinstance_exn e ValueError = true -> isinstance_exn e Exception = true.
Proof. destruct e as [c code]. destruct c; cbv; congruence. Qed.


(** ** C2: sequences of different lengths *)

(** C2.  On inputs of different lengths the reference raises [ValueError]
    once both are materialized and their lengths compared: no
    normalization, class or scoring block is entered.  The battery's
    [length_mismatch] case passes exactly when the candidate raises an
    instance of [ValueError]; a candidate that returns, or raises another
    kind of [Exception], fails the case, and an exception outside
    [Exception] leaves [run_case] without a verdict. *)
Theorem length_mismatch_contract (H : Host) :
  (forall y_true y_pred,
     List.length (_materialize y_true) <> List.length (_materialize y_pred) ->
     _macro_f1_ref_traced H y_true y_pred =
     ([PhMaterialize; PhMaterialize; PhCheckLength],
      raise (exc ValueError))) /\
  nth_error battery 8 =
    Some (mkCase "length_mismatch" (IList (ints [0; 1; 2]))
            (IList (ints [0; 1])) None (Some ValueError)) /\
  (forall (f : candidate) (w : world),
     let r := f (ints [0; 1; 2]) (ints [0; 1]) in
     let res := run_case H f "length_mismatch" (IList (ints [0; 1; 2]))
                  (IList (ints [0; 1])) None (Some ValueError) w in
     (fst res = ok true <->
      exists e, outcome r = inl e /\ isinstance_exn e ValueError = true) /\
     (forall out, outcome r = inr out ->
        res = (ok false,
               mkWorld (stdout w ++
                        [FAIL_exception_not_raised "length_mismatch"
                           ValueError]) (S (calls w)))) /\
     (forall e, outcome r = inl e ->
        isinstance_exn e Exception = true ->
        isinstance_exn e ValueError = false ->
        res = (ok false,
               mkWorld (stdout w ++
                        [FAIL_unexpected_exception "length_mismatch" e])
                 (S (calls w)))) /\
     (forall e, outcome r = inl e ->
        isinstance_exn e Exception = false -> fst res = inl e)).
Proof.
  split; [apply macro_f1_ref_traced_mismatch |].
  split; [reflexivity |].
  intros f w r res. subst res. rewrite run_case_report.
  unfold report. cbn [_materialize]. fold r. cbn [fst snd].
  repeat split.
  - destruct (outcome r) as [e | out]; [| discriminate].
    destruct (isinstance_exn e Exception) eqn:EE; [| discriminate].
    destruct (isinstance_exn e ValueError) eqn:EV; [eauto | discriminate].
  - intros [e [-> HV]].
    now rewrite (ValueError_is_Exception e HV), HV.
  - intros out ->. reflexivity.
  - intros e -> -> ->. reflexivity.
  - intros e -> ->. reflexivity.
Qed.

(** The battery's own inputs: the reference raises. *)
Lemma length_mismatch_contract_witness :
  _macro_f1_ref_traced binary64_host (IList (ints [0; 1; 2]))
    (IList (ints [0; 1])) =
  ([PhMaterialize; PhMaterialize; PhCheckLength], raise (exc ValueError)).
Proof.
  apply (proj1 (length_mismatch_contract binary64_host)).
  cbn. discriminate.
Defined.

(** ** C5: when a value case passes *)


(** ** C7: the mutation guard *)

(** A candidate that answers 1.0 and appends a label to the truth list. *)
Definition appending_candidate : candidate :=
  fun yt yp => mkCall (ok (PFloat (FFin 1))) (yt ++ [PStr "extra"]) yp.

(** A candidate that answers what the reference gives on the lists it is
    handed, and then appends a label to the truth list. *)
Definition appending_reference_candidate (H : Host) : candidate :=
  fun yt yp =>
    mkCall (outcome (reference_candidate H yt yp)) (yt ++ [PStr "extra"]) yp.

(** The same, reversing the truth list in place. *)
Definition reversing_reference_candidate (H : Host) : candidate :=
  fun yt yp => mkCall (outcome (reference_candidate H yt yp)) (rev yt) yp.

(** C7.  A candidate whose value is the reference's on the lists it was
    handed, and which changes the truth list in place, is not reported as
    having mutated its input.  The tolerance check comes before the guard
    and evaluates the reference on the lists as the call left them (line
    163), not on the snapshots: on the battery's first case, after an
    append the reference raises [ValueError] out of [run_case], which
    prints no line and returns no verdict; after a reversal the case is
    failed with the value-mismatch line. *)
Lemma mutation_not_flagged :
  exists ref,
    _macro_f1_ref binary64_host
      (IList (strs ["A";"A";"B";"B";"C";"C"]%string))
      (IList (strs ["A";"B";"B";"B";"C";"A"]%string)) = ok ref /\
    outcome (appending_reference_candidate binary64_host
               (strs ["A";"A";"B";"B";"C";"C"]%string)
               (strs ["A";"B";"B";"B";"C";"A"]%string)) = ok (PFloat ref) /\
    outcome (reversing_reference_candidate binary64_host
               (strs ["A";"A";"B";"B";"C";"C"]%string)
               (strs ["A";"B";"B";"B";"C";"A"]%string)) = ok (PFloat ref) /\
    py_list_eq
      (y_true_after (appending_reference_candidate binary64_host
                       (strs ["A";"A";"B";"B";"C";"C"]%string)
                       (strs ["A";"B";"B";"B";"C";"A"]%string)))
      (strs ["A";"A";"B";"B";"C";"C"]%string) = false /\
    py_list_eq
      (y_true_after (reversing_reference_candidate binary64_host
                       (strs ["A";"A";"B";"B";"C";"C"]%string)
                       (strs ["A";"B";"B";"B";"C";"A"]%string)))
      (strs ["A";"A";"B";"B";"C";"C"]%string) = false /\
    run_case binary64_host (appending_reference_candidate binary64_host)
      "balanced_3class"
      (IList (strs ["A";"A";"B";"B";"C";"C"]%string))
      (IList (strs ["A";"B";"B";"B";"C";"A"]%string))
      None None (mkWorld [] 0)
    = (raise (exc ValueError), mkWorld [] 1) /\
    exists expected,
      run_case binary64_host (reversing_reference_candidate binary64_host)
        "balanced_3class"
        (IList (strs ["A";"A";"B";"B";"C";"C"]%string))
        (IList (strs ["A";"B";"B";"B";"C";"A"]%string))
        None None (mkWorld [] 0)
      = (ok false,
         mkWorld [FAIL_value_mismatch "balanced_3class" ref expected] 1) /\
      FAIL_value_mismatch "balanced_3class" ref expected
      <> FAIL_y_true_mutated "balanced_3class".
Proof.
  eexists. split; [vm_compute; reflexivity |].
  repeat (split; [vm_compute; reflexivity |]).
  eexists. split; [vm_compute; reflexivity | discriminate].
Qed.

(** X28.  Once a call has returned a value that passed the numeric and
    range checks and then the tolerance check, against the literal
    expectation or else against the reference evaluated on the lists as
    the call left them, the verdict is decided by comparing each list, as
    the call left it, with its snapshot under list equality: a difference
    in the truth list, else in the prediction list, fails the case with a
    line of its own, different from the value-mismatch line; otherwise the
    case passes. *)
Theorem mutation_guard_decides (H : Host) (f : candidate) (name : string)
  (y_true y_pred : iterable) (expect : option pyfloat) (w : world)
  (out : value) (x ref : pyfloat) :
  let yt := _materialize y_true in
  let yp := _materialize y_pred in
  let r := f yt yp in
  outcome r = inr out ->
  isinstance_float_int out = true ->
  float_of H out = ok x ->
  in_unit_range H x = true ->
  match expect with
  | Some e => ok e
  | None => _macro_f1_ref H (IList (y_true_after r)) (IList (y_pred_after r))
  end = ok ref ->
  _approx_equal H x ref = true ->
  run_case H f name y_true y_pred expect None w =
    (if negb (py_list_eq (y_true_after r) yt)
     then (ok false,
           mkWorld (stdout w ++ [FAIL_y_true_mutated name]) (S (calls w)))
     else if negb (py_list_eq (y_pred_after r) yp)
     then (ok false,
           mkWorld (stdout w ++ [FAIL_y_pred_mutated name]) (S (calls w)))
     else (ok true,
           mkWorld (stdout w ++ [PASS_value name x]) (S (calls w)))) /\
  (forall got expected,
     FAIL_y_true_mutated name <> FAIL_value_mismatch name got expected /\
     FAIL_y_pred_mutated name <> FAIL_value_mismatch name got expected).
Proof.
  intros yt yp r Hout Hnum Hx Hrange Href Happrox.
  split; [| intros got expected; split; discriminate].
  rewrite run_case_report. unfold report. fold yt yp r.
  rewrite Hout, Hnum. cbn [negb]. unfold ok in *. rewrite Hx, Hrange.
  cbn [negb]. rewrite Href, Happrox. cbn [negb]. unfold py_list_ne.
  destruct (py_list_eq (y_true_after r) yt); cbn [negb]; [| reflexivity].
  destruct (py_list_eq (y_pred_after r) yp); reflexivity.
Qed.

(** On the battery's [perfect] case the appending candidate returns the
    expected 1.0 and is failed for having changed the truth list. *)
Lemma mutation_guard_decides_witness :
  run_case binary64_host appending_candidate "perfect"
    (IList (strs ["x"; "y"; "z"; "x"; "y"; "z"]%string))
    (IList (strs ["x"; "y"; "z"; "x"; "y"; "z"]%string))
    (Some (FFin 1)) None (mkWorld [] 0) =
  (ok false, mkWorld [FAIL_y_true_mutated "perfect"] 1).
Proof.
  exact (proj1 (mutation_guard_decides binary64_host appending_candidate
                  "perfect"
                  (IList (strs ["x"; "y"; "z"; "x"; "y"; "z"]%string))
                  (IList (strs ["x"; "y"; "z"; "x"; "y"; "z"]%string))
                  (Some (FFin 1)) (mkWorld [] 0)
                  (PFloat (FFin 1)) (FFin 1) (FFin 1)
                  eq_refl eq_refl eq_refl eq_refl eq_refl eq_refl)).
Defined.

(** ** C10: a boolean return value *)




(** ** The script, step by step *)

Lemma SystemExit_not_Exception (code : Z) :
  isinstance_exn (mkExn SystemExit code) Exception = false.
Proof. reflexivity. Qed.

Definition say (w : world) (l : line) : world :=
  mkWorld (stdout w ++ [l]) (calls w).

(** [has_docstring doc]: the value of [_has_docstring]. *)
Definition has_docstring (doc : option string) : bool :=
  match doc with
  | Some d => (0 <? String.length (strip d))%nat
  | None => false
  end.

(** What [style_check] does; the result of the import regex plays no part. *)
Lemma style_check_eq (env : environment) (w : world) :
  style_check env w =
  match get_docstring env with
  | inr doc =>
      if has_docstring doc then (ok tt, w)
      else (inl (mkExn SystemExit 1), say w FAIL_docstring_missing)
  | inl e =>
      if isinstance_exn e Exception
      then (inl (mkExn SystemExit 1), say w (FAIL_inspect_docstring e))
      else (inl e, w)
  end.
Proof.
  unfold style_check, ptry, pbind, lift, has_docstring.
  destruct (get_docstring env) as [e | doc].
  - cbn [select_clause]. destruct (isinstance_exn e Exception); reflexivity.
  - destruct (match doc with
              | Some d => (0 <? String.length (strip d))%nat
              | None => false
              end); reflexivity.
Qed.

(** A failing start-up step: its line, then [sys.exit(1)]. *)
Definition fatal (w : world) (l : line) : result unit * world :=
  (inl (mkExn SystemExit 1), say w l).

Lemma attempt_eq (o : option exn) (l : exn -> line) (w : world) :
  ptry (attempt o)
    [(Exception, fun e => (print (l e) ;;; sys_exit 1)%proc)] w =
  match o with
  | None => (ok tt, w)
  | Some e => if isinstance_exn e Exception then fatal w (l e) else (inl e, w)
  end.
Proof.
  unfold ptry, attempt. destruct o as [e |]; [| reflexivity].
  cbn [praise select_clause].
  destruct (isinstance_exn e Exception); reflexivity.
Qed.

Lemma grade_eq (H : Host) (env : environment) (w : world) :
  grade H env w =
  match import_numpy env with
  | Some e =>
      if isinstance_exn e Exception
      then fatal w (FAIL_numpy_not_available e) else (inl e, w)
  | None =>
      if negb (solution_exists env) then fatal w FAIL_solution_not_found
      else
        match exec_module env with
        | Some e =>
            if isinstance_exn e Exception
            then fatal w (FAIL_import_raised e) else (inl e, w)
        | None =>
            if negb (has_macro_f1 env)
            then fatal w FAIL_macro_f1_not_defined
            else
              match get_docstring env with
              | inr doc =>
                  if has_docstring doc
                  then main H (solution_macro_f1 env) w
                  else fatal w FAIL_docstring_missing
              | inl e =>
                  if isinstance_exn e Exception
                  then fatal w (FAIL_inspect_docstring e)
                  else (inl e, w)
              end
        end
  end.
Proof.
  unfold grade.
  unfold pbind at 1. rewrite attempt_eq.
  destruct (import_numpy env) as [e |];
    [destruct (isinstance_exn e Exception); reflexivity |].
  unfold ok. unfold pbind at 1.
  destruct (solution_exists env); cbn [negb]; [| reflexivity].
  cbn [pret]. unfold pbind at 1. rewrite attempt_eq.
  destruct (exec_module env) as [e |];
    [destruct (isinstance_exn e Exception); reflexivity |].
  unfold ok. unfold pbind at 1.
  destruct (has_macro_f1 env); cbn [negb]; [| reflexivity].
  cbn [pret]. unfold pbind at 1. rewrite style_check_eq.
  destruct (get_docstring env) as [e | doc].
  - destruct (isinstance_exn e Exception); reflexivity.
  - destruct (has_docstring doc); reflexivity.
Qed.

Lemma main_eq (H : Host) (f : candidate) (w : world) :
  main H f w =
  match run_all H f battery true w with
  | (inl e, w') => (inl e, w')
  | (inr true, w') => (inl (mkExn SystemExit 0), say w' GRADE_PASS)
  | (inr false, w') => (inl (mkExn SystemExit 1), say w' GRADE_FAIL)
  end.
Proof.
  unfold main, pbind.
  destruct (run_all H f battery true w) as [[e | [|]] w']; reflexivity.
Qed.

(** Lines a test case can print. *)
Definition is_case_line (l : line) : bool :=
  match l with
  | FAIL_exception_not_raised _ _ | PASS_raised_expected _ _
  | FAIL_unexpected_exception _ _ | FAIL_output_not_float _ _
  | FAIL_not_in_unit_range _ _ | FAIL_value_mismatch _ _ _
  | FAIL_y_true_mutated _ | FAIL_y_pred_mutated _ | PASS_value _ _ => true
  | _ => false
  end.

Lemma printed_case_lines (H : Host) (f : candidate) (c : test_case) :
  forallb is_case_line (printed H f c) = true.
Proof.
  unfold printed, report.
  destruct (outcome _) as [e | out].
  - destruct (isinstance_exn e Exception); [| reflexivity].
    destruct (tc_expect_exception c) as [cls |];
      [destruct (isinstance_exn e cls) |]; reflexivity.
  - destruct (tc_expect_exception c) as [cls |]; [reflexivity |].
    destruct (isinstance_float_int out); [| reflexivity]. cbn [negb].
    destruct (float_of H out) as [e | x]; [reflexivity |].
    destruct (in_unit_range H x); [| reflexivity]. cbn [negb].
    destruct (tc_expect c) as [ref |];
      [| destruct (_macro_f1_ref H _ _) as [e | ref]; [reflexivity |]];
      unfold ok; cbn iota beta;
      (destruct (_approx_equal H x ref); [| reflexivity]); cbn [negb];
      (destruct (py_list_ne _ _); [reflexivity |]);
      destruct (py_list_ne _ _); reflexivity.
Qed.

(** Whatever happens, [run_all] only adds case lines and calls. *)
Lemma run_all_effects (H : Host) (f : candidate) (cases : list test_case) :
  forall (all_ok : bool) (w : world),
  exists lines,
    stdout (snd (run_all H f cases all_ok w)) = stdout w ++ lines /\
    forallb is_case_line lines = true /\
    (calls w + (match cases with [] => 0 | _ => 1 end)
       <= calls (snd (run_all H f cases all_ok w)))%nat.
Proof.
  induction cases as [| c cases IH]; intros all_ok w.
  - exists []. cbn. rewrite app_nil_r. repeat split. lia.
  - cbn [run_all]. unfold pbind. rewrite run_test_report.
    destruct (verdict H f c) as [e | b].
    + exists (printed H f c). cbn [snd stdout calls].
      repeat split; [apply printed_case_lines | lia].
    + destruct (IH (all_ok && b)
                  (mkWorld (stdout w ++ printed H f c) (S (calls w))))
        as [lines [Hout [Hlines Hcalls]]].
      exists (printed H f c ++ lines). rewrite Hout.
      cbn [stdout calls] in *. repeat split.
      * now rewrite app_assoc.
      * rewrite forallb_app, printed_case_lines, Hlines. reflexivity.
      * lia.
Qed.

(** ** C8: the nested-import check *)





(** ** C9: the exit code *)

(** A candidate whose [macro_f1] calls [sys.exit(0)]. *)
Definition exiting_candidate : candidate :=
  fun yt yp => mkCall (raise (mkExn SystemExit 0)) yt yp.

(** A candidate that answers 0.0 on string labels and an int too large for
    a float on anything else. *)
Definition overflowing_candidate : candidate :=
  fun yt yp =>
    match yt with
    | PStr _ :: _ => mkCall (ok (PFloat (FFin 0))) yt yp
    | _ => mkCall (ok (PInt (10 ^ 400))) yt yp
    end.

(** A module that loads, defines a documented [macro_f1] and nothing odd. *)
Definition sound_module (f : candidate) : environment :=
  mkEnv None true None true (ok (Some "doc"%string)) (ok false) f.

(** C9, counterexample.  With a candidate that exits with status 0 from
    inside [macro_f1] the process exits with code 0 after one call, though
    no case of the battery passes; a module that exits with status 0 while
    it is loaded makes the process exit with code 0 as well; and when the
    first case fails and the second aborts on an int too large for
    [float()], the process exits with code 1 after two calls, the other
    eleven cases never run. *)
Lemma exit_code_not_all_pass :
  run_grader binary64_host (sound_module exiting_candidate)
    = (0, mkWorld [] 1) /\
  map (fun c => fst (run_test binary64_host exiting_candidate c start)) battery
    = repeat (inl (mkExn SystemExit 0)) 13 /\
  run_grader binary64_host
    (mkEnv None true (Some (mkExn SystemExit 0)) true
       (ok (Some "doc"%string)) (ok false) (reference_candidate binary64_host))
    = (0, mkWorld [] 0) /\
  run_grader binary64_host (sound_module overflowing_candidate)
    = (1, mkWorld [FAIL_value_mismatch "balanced_3class" (FFin 0)
                     (FFin (5904719511441317 # 9007199254740992))] 2).
Proof. repeat split; vm_compute; reflexivity. Qed.

Definition setup_ok (env : environment) : Prop :=
  import_numpy env = None /\ solution_exists env = true /\
  exec_module env = None /\ has_macro_f1 env = true /\
  exists doc, get_docstring env = ok (Some doc) /\
              (0 < String.length (strip doc))%nat.

Definition passed (r : result bool) : bool :=
  match r with
  | inr true => true
  | _ => false
  end.

Lemma forallb_pointwise {A} (p q : A -> bool) (l : list A) :
  (forall a, p a = q a) -> forallb p l = forallb q l.
Proof.
  intros Hpq. induction l as [| a l IH]; simpl; [reflexivity |].
  now rewrite Hpq, IH.
Qed.

Lemma run_grader_fatal (H : Host) (env : environment) (l : line) :
  grade H env start = fatal start l ->
  run_grader H env = (1, mkWorld [l] 0).
Proof. unfold run_grader. intros ->. reflexivity. Qed.

(** C9, as amended.  A start-up failure that is an [Exception] (numpy
    missing, no solution file, the module raising while it loads, no
    [macro_f1], its source not inspectable, no or an empty docstring)
    prints its line and exits with code 1 before any call of the candidate.
    When start-up succeeds and every case of the battery returns a verdict,
    all thirteen cases are run, the code is 0 if all of them passed and 1
    otherwise, and the last line says which. *)
Theorem exit_code_contract (H : Host) (env : environment) :
  (forall e, import_numpy env = Some e ->
     isinstance_exn e Exception = true ->
     run_grader H env = (1, mkWorld [FAIL_numpy_not_available e] 0)) /\
  (import_numpy env = None -> solution_exists env = false ->
     run_grader H env = (1, mkWorld [FAIL_solution_not_found] 0)) /\
  (forall e, import_numpy env = None -> solution_exists env = true ->
     exec_module env = Some e -> isinstance_exn e Exception = true ->
     run_grader H env = (1, mkWorld [FAIL_import_raised e] 0)) /\
  (import_numpy env = None -> solution_exists env = true ->
     exec_module env = None -> has_macro_f1 env = false ->
     run_grader H env = (1, mkWorld [FAIL_macro_f1_not_defined] 0)) /\
  (forall e, import_numpy env = None -> solution_exists env = true ->
     exec_module env = None -> has_macro_f1 env = true ->
     get_docstring env = inl e -> isinstance_exn e Exception = true ->
     run_grader H env = (1, mkWorld [FAIL_inspect_docstring e] 0)) /\
  (forall doc, import_numpy env = None -> solution_exists env = true ->
     exec_module env = None -> has_macro_f1 env = true ->
     get_docstring env = ok doc -> has_docstring doc = false ->
     run_grader H env = (1, mkWorld [FAIL_docstring_missing] 0)) /\
  (setup_ok env ->
   (forall c, In c battery ->
      exists b, fst (run_test H (solution_macro_f1 env) c start) = ok b) ->
   let all_pass :=
     forallb (fun c => passed (fst (run_test H (solution_macro_f1 env) c
                                      start))) battery in
   (exists w, run_grader H env = ((if all_pass then 0 else 1), w) /\
              calls w = 13%nat /\
              exists lines,
                stdout w =
                lines ++ [if all_pass then GRADE_PASS else GRADE_FAIL]) /\
   (fst (run_grader H env) = 0 <->
    forall c, In c battery ->
       fst (run_test H (solution_macro_f1 env) c start) = ok true)).
Proof.
  repeat match goal with |- _ /\ _ => split end.
  - intros e Hnp He. apply run_grader_fatal. now rewrite grade_eq, Hnp, He.
  - intros Hnp Hex. apply run_grader_fatal. now rewrite grade_eq, Hnp, Hex.
  - intros e Hnp Hex Hload He. apply run_grader_fatal.
    now rewrite grade_eq, Hnp, Hex, Hload, He.
  - intros Hnp Hex Hload Hhas. apply run_grader_fatal.
    now rewrite grade_eq, Hnp, Hex, Hload, Hhas.
  - intros e Hnp Hex Hload Hhas Hdoc He. apply run_grader_fatal.
    now rewrite grade_eq, Hnp, Hex, Hload, Hhas, Hdoc, He.
  - intros doc Hnp Hex Hload Hhas Hdoc Hno. apply run_grader_fatal.
    rewrite grade_eq, Hnp, Hex, Hload, Hhas, Hdoc. unfold ok.
    now rewrite Hno.
  - intros [Hnp [Hex [Hload [Hhas [doc [Hdoc Hlen]]]]]] Hall all_pass.
    set (f := solution_macro_f1 env) in *.
    assert (Hfst : forall c, fst (run_test H f c start) = verdict H f c)
      by (intros c; now rewrite run_test_report).
    assert (Hverdicts :
              Forall (fun c => exists b, verdict H f c = ok b) battery).
    { apply Forall_forall. intros c Hc. rewrite <- Hfst. now apply Hall. }
    destruct (run_all_complete H f battery Hverdicts true start)
      as [w' [Hrun [Hcalls Hout]]].
    assert (Hpass : forallb (fun c => match verdict H f c with
                                      | inr true => true
                                      | _ => false
                                      end) battery = all_pass).
    { subst all_pass. apply forallb_pointwise. intros c. now rewrite Hfst. }
    rewrite Hpass in Hrun. cbn [andb] in Hrun.
    assert (Hg : grade H env start =
                 (inl (mkExn SystemExit (if all_pass then 0 else 1)),
                  say w' (if all_pass then GRADE_PASS else GRADE_FAIL))).
    { rewrite grade_eq, Hnp, Hex, Hload, Hhas. cbn [negb].
      rewrite Hdoc. unfold ok.
      replace (has_docstring (Some doc)) with true
        by (symmetry; apply Nat.ltb_lt; exact Hlen).
      fold f. rewrite main_eq, Hrun. unfold ok.
      destruct all_pass; reflexivity. }
    assert (Hr : run_grader H env =
                 ((if all_pass then 0 else 1),
                  say w' (if all_pass then GRADE_PASS else GRADE_FAIL))).
    { unfold run_grader. rewrite Hg. destruct all_pass; reflexivity. }
    split.
    + eexists. split; [exact Hr |]. cbn [say calls stdout].
      split; [rewrite Hcalls; reflexivity | eauto].
    + rewrite Hr. cbn [fst]. split.
      * intros Hz. destruct all_pass eqn:E; [| discriminate].
        subst all_pass. rewrite forallb_forall in E.
        intros c Hc. specialize (E c Hc).
        destruct (fst (run_test H f c start)) as [e | [|]];
          try discriminate. reflexivity.
      * intros Hok. replace all_pass with true; [reflexivity |].
        symmetry. subst all_pass. apply forallb_forall.
        intros c Hc. now rewrite (Hok c Hc).
Qed.

(** The reference candidate, in binary64 arithmetic, passes the battery
    and the process exits with code 0. *)
Lemma exit_code_contract_witness :
  fst (run_grader binary64_host
         (sound_module (reference_candidate binary64_host))) = 0.
Proof.
  refine (proj2 (proj2
    (proj2 (proj2 (proj2 (proj2 (proj2 (proj2
       (exit_code_contract binary64_host
          (sound_module (reference_candidate binary64_host)))))))) _ _)) _).
  - unfold setup_ok, sound_module; cbn.
    repeat split. exists "doc"%string. split; [reflexivity |].
    apply Nat.ltb_lt. vm_compute. reflexivity.
  - intros c Hc.
    repeat (destruct Hc as [<- | Hc];
            [eexists; vm_compute; reflexivity |]).
    destruct Hc.
  - intros c Hc.
    repeat (destruct Hc as [<- | Hc]; [vm_compute; reflexivity |]).
    destruct Hc.
Defined.

(** * Further properties of the grader *)

(** ** The reference engine *)

Lemma filter_none {A} (f : A -> bool) (l : list A) :
  (forall a, In a l -> f a = false) -> filter f l = [].
Proof.
  induction l as [| a l IH]; intros Hf; simpl; [reflexivity |].
  rewrite (Hf a) by now left. apply IH. intros b Hb. apply Hf. now right.
Qed.

Lemma count_pairs_none (cond : value -> value -> bool) (yt yp : list value) :
  (forall a b, In (a, b) (combine yt yp) -> cond a b = false) ->
  count_pairs cond yt yp = 0.
Proof.
  intros Hc. unfold count_pairs. rewrite filter_none; [reflexivity |].
  intros [a b] Hab. now apply Hc.
Qed.

Lemma count_pairs_swap (cond : value -> value -> bool) (yt yp : list value) :
  count_pairs cond yt yp = count_pairs (fun b a => cond a b) yp yt.
Proof.
  unfold count_pairs. f_equal. revert yp.
  induction yt as [| a yt IH]; intros [| b yp]; simpl; try reflexivity.
  destruct (cond a b); simpl; now rewrite IH.
Qed.

Lemma count_pairs_ext (c1 c2 : value -> value -> bool) (yt yp : list value) :
  (forall a b, c1 a b = c2 a b) ->
  count_pairs c1 yt yp = count_pairs c2 yt yp.
Proof.
  intros Hc. unfold count_pairs. do 2 f_equal.
  apply filter_ext. intros [a b]. apply Hc.
Qed.

Lemma tp_of_swap (yt yp : list value) (c : value) :
  tp_of yt yp c = tp_of yp yt c.
Proof.
  unfold tp_of. rewrite count_pairs_swap. apply count_pairs_ext.
  intros a b. apply andb_comm.
Qed.

Lemma fp_of_swap (yt yp : list value) (c : value) :
  fp_of yt yp c = fn_of yp yt c.
Proof.
  unfold fp_of, fn_of. rewrite count_pairs_swap. apply count_pairs_ext.
  intros a b. apply andb_comm.
Qed.

Section MoreEngine.
Variable H : Host.

Lemma spec_precision_no_tp (fp : Z) : spec_precision H 0 fp = 0%Q.
Proof.
  unfold spec_precision. destruct (0 + fp =? 0); [reflexivity |].
  rewrite (fl_canon H _ 0); [apply fl_0 |].
  change (inject_Z 0) with 0%Q. unfold Qdiv. ring.
Qed.

Lemma spec_f1_zero : spec_f1 H 0 0 = 0%Q.
Proof.
  unfold spec_f1. rewrite (fl_canon H (0 + 0) 0) by reflexivity.
  rewrite fl_0. reflexivity.
Qed.

Lemma spec_class_f1_no_tp (yt yp : list value) (c : value) :
  tp_of yt yp c = 0 -> spec_class_f1 H yt yp c = 0%Q.
Proof.
  intros Htp. unfold spec_class_f1. rewrite Htp.
  change (spec_recall H 0 (fn_of yt yp c))
    with (spec_precision H 0 (fn_of yt yp c)).
  rewrite !spec_precision_no_tp. apply spec_f1_zero.
Qed.

Lemma spec_f1_comm (p r : Q) :
  doubles H p -> doubles H r -> spec_f1 H p r = spec_f1 H r p.
Proof.
  intros Hp Hr. unfold spec_f1, doubles in *.
  rewrite (fl_canon H (p + r) (r + p)) by ring.
  rewrite (fl_canon H (fl H (2 * p) * r) (fl H (2 * r) * p))
    by (rewrite Hp, Hr; ring).
  reflexivity.
Qed.



Lemma classes_bound (yt yp : list value) :
  List.length yt = List.length yp -> Z.of_nat (List.length yt) <= 2 ^ 52 ->
  Z.of_nat (List.length (classes_of H yt yp)) <= 2 ^ 53.
Proof.
  intros Hlen Hsize. pose proof (classes_of_length H yt yp) as Hc.
  rewrite <- Hlen in Hc. change (2 ^ 53) with (2 * 2 ^ 52). lia.
Qed.

End MoreEngine.



(** X2.  A class that no truth label equals, or that no predicted label
    equals, has F1 0.0: an unseen predicted class and a class that is never
    predicted both pull the macro average down. *)
Theorem absent_class_scores_zero (H : Host) (yt yp : list value) (c : value) :
  (forall a, In a yt -> py_eq a c = false) \/
  (forall b, In b yp -> py_eq b c = false) ->
  class_f1 H yt yp c = ok 0%Q.
Proof.
  intros Habs. rewrite class_f1_spec. f_equal.
  apply spec_class_f1_no_tp. unfold tp_of. apply count_pairs_none.
  intros a b Hab. destruct Habs as [Ht | Hp].
  - rewrite (Ht a) by (eapply in_combine_l; eassumption). reflexivity.
  - rewrite (Hp b) by (eapply in_combine_r; eassumption).
    apply andb_false_r.
Qed.

(** The class 2 of the battery's [no_pred_for_class] case. *)
Lemma absent_class_scores_zero_witness :
  class_f1 binary64_host (ints [0; 0; 1; 1; 1; 2; 2])
    (ints [0; 0; 1; 1; 1; 0; 0]) (PInt 2) = ok 0%Q.
Proof.
  apply (absent_class_scores_zero binary64_host). right.
  intros b Hb. cbn in Hb.
  repeat (destruct Hb as [<- | Hb]; [reflexivity |]). destruct Hb.
Defined.



(** X4.  Exchanging the truth and the prediction sequences exchanges the
    precision and the recall of a class and leaves its F1 unchanged. *)
Theorem class_f1_swap (H : Host) (yt yp : list value) (c : value) :
  class_f1 H yt yp c = class_f1 H yp yt c.
Proof.
  rewrite !class_f1_spec. f_equal. unfold spec_class_f1.
  rewrite (tp_of_swap yp yt c), <- (fp_of_swap yt yp c).
  replace (fp_of yp yt c) with (fn_of yt yp c)
    by (symmetry; apply fp_of_swap).
  change (spec_recall H) with (spec_precision H).
  apply spec_f1_comm;
    apply spec_precision_unit; apply count_pairs_nonneg.
Qed.

Lemma distinct_NoDup (s : list value) : distinct s -> NoDup s.
Proof.
  induction 1 as [| s x Hs IH Hx]; [constructor |].
  apply (Permutation_NoDup (Permutation_cons_append s x)).
  constructor; [| assumption].
  intros Hin.
  assert (existsb (fun k => item_eq k x) s = true) as Ht.
  { apply existsb_exists. exists x. split; [assumption | apply item_eq_refl]. }
  congruence.
Qed.

(** X5.  The ClassSet lists every class once: it has no repeated entry, no
    two of its members are equal to each other in both orders, each member
    is a label of one of the two sequences, and there are at most as many
    classes as labels. *)
Theorem classes_of_is_a_set (H : Host) (yt yp : list value) :
  NoDup (classes_of H yt yp) /\
  (forall a b, In a (classes_of H yt yp) -> In b (classes_of H yt yp) ->
     a <> b -> item_eq a b = false \/ item_eq b a = false) /\
  (forall c, In c (classes_of H yt yp) -> In c yt \/ In c yp) /\
  (List.length (classes_of H yt yp) <= List.length yt + List.length yp)%nat.
Proof.
  split; [| split; [| split]].
  - unfold classes_of.
    apply (Permutation_NoDup
             (Permutation_sym (sorted_by_key_perm H _))).
    apply distinct_NoDup, py_set_union_distinct.
  - apply classes_of_distinct.
  - apply classes_of_In.
  - apply classes_of_length.
Qed.

(** ** The oracle *)

Lemma py_list_eq_refl (l : list value) : py_list_eq l l = true.
Proof.
  induction l as [| a l IH]; [reflexivity |].
  simpl. now rewrite item_eq_refl, IH.
Qed.

Lemma tol_default_nonneg (H : Host) : (0 <= tol_default H)%Q.
Proof.
  unfold tol_default. rewrite <- (fl_0 H). apply fl_mono. discriminate.
Qed.

Lemma eps_range_nonneg (H : Host) : (0 <= eps_range H)%Q.
Proof.
  unfold eps_range. rewrite <- (fl_0 H). apply fl_mono. discriminate.
Qed.

Lemma approx_equal_finite_refl (H : Host) (x : Q) :
  _approx_equal H (FFin x) (FFin x) = true.
Proof.
  unfold _approx_equal. cbn [isfinite andb]. apply Qle_bool_iff.
  rewrite (fl_canon H (x - x) 0) by ring. rewrite fl_0.
  apply tol_default_nonneg.
Qed.

(** X6.  [_approx_equal] holds between a float and itself exactly when the
    float is finite: a NaN or an infinity is never approximately equal to
    anything, itself included. *)
Theorem approx_equal_self (H : Host) (a : pyfloat) :
  _approx_equal H a a = isfinite a /\
  (forall b, isfinite a = false ->
     _approx_equal H a b = false /\ _approx_equal H b a = false).
Proof.
  split.
  - destruct a as [x | s | i]; try reflexivity.
    apply approx_equal_finite_refl.
  - intros b Ha. destruct a as [x | s | i]; [discriminate | |];
      destruct b; split; reflexivity.
Qed.

(** Every float of the unit interval passes the range gate. *)
Lemma in_unit_range_unit (H : Host) (m : Q) :
  unit_q m -> in_unit_range H (FFin m) = true.
Proof.
  intros [H0 H1]. unfold in_unit_range. cbn [fle].
  pose proof (eps_range_nonneg H) as He.
  apply andb_true_intro. split; apply Qle_bool_iff.
  - apply Qle_trans with (fl H 0); [| now rewrite fl_0].
    apply fl_mono. lra.
  - apply Qle_trans with (fl H 1); [now rewrite fl_1 |].
    apply fl_mono. lra.
Qed.

Lemma in_unit_range_finite (H : Host) (f : pyfloat) :
  in_unit_range H f = true -> isfinite f = true.
Proof.
  unfold in_unit_range.
  destruct f as [x | [|] | i]; cbn; try reflexivity; discriminate.
Qed.

(** X7.  A returned NaN or infinity fails every case that expects a value,
    with the out-of-range line, whatever literal the case was given. *)
Theorem nonfinite_return_fails (H : Host) (f : candidate) (name : string)
  (y_true y_pred : iterable) (expect : option pyfloat) (w : world)
  (v : pyfloat) :
  outcome (f (_materialize y_true) (_materialize y_pred))
    = inr (PFloat v) ->
  isfinite v = false ->
  run_case H f name y_true y_pred expect None w =
  (ok false,
   mkWorld (stdout w ++ [FAIL_not_in_unit_range name v]) (S (calls w))).
Proof.
  intros Hout Hv. rewrite run_case_report. unfold report.
  rewrite Hout. change (isinstance_float_int (PFloat v)) with true.
  change (float_of H (PFloat v)) with (@inr exn pyfloat v). cbn [negb].
  destruct (in_unit_range H v) eqn:E; [| reflexivity].
  apply in_unit_range_finite in E. congruence.
Qed.

(** A candidate that answers NaN. *)
Definition nan_candidate : candidate :=
  fun yt yp => mkCall (ok (PFloat (FNaN 7))) yt yp.

Lemma nonfinite_return_fails_witness :
  run_case binary64_host nan_candidate "perfect"
    (IList (strs ["x"; "y"]%string)) (IList (strs ["x"; "y"]%string))
    (Some (FNaN 7)) None (mkWorld [] 0) =
  (ok false, mkWorld [FAIL_not_in_unit_range "perfect" (FNaN 7)] 1).
Proof.
  exact (nonfinite_return_fails binary64_host nan_candidate "perfect"
           (IList (strs ["x"; "y"]%string)) (IList (strs ["x"; "y"]%string))
           (Some (FNaN 7)) (mkWorld [] 0) (FNaN 7) eq_refl eq_refl).
Defined.

(** X8.  One call of [run_case] invokes the candidate exactly once and
    prints exactly one line when it returns a verdict, a PASS line for
    [True] and a FAIL line for [False]; it prints nothing when it ends
    without a verdict. *)
Theorem run_case_effects (H : Host) (f : candidate) (name : string)
  (y_true y_pred : iterable) (expect : option pyfloat)
  (expect_exception : option exc_class) (w : world) :
  let res := run_case H f name y_true y_pred expect expect_exception w in
  calls (snd res) = S (calls w) /\
  (forall e, fst res = inl e -> stdout (snd res) = stdout w) /\
  (fst res = ok true ->
   exists l, stdout (snd res) = stdout w ++ [l] /\
             ((exists cls, expect_exception = Some cls /\
                           l = PASS_raised_expected name cls) \/
              (expect_exception = None /\ exists x, l = PASS_value name x))) /\
  (fst res = ok false ->
   exists l, stdout (snd res) = stdout w ++ [l] /\
             forall x cls, l <> PASS_value name x /\
                           l <> PASS_raised_expected name cls).
Proof.
  cbv zeta. rewrite run_case_report. cbn [fst snd calls stdout].
  split; [reflexivity |].
  unfold report, ok.
  destruct (outcome (f (_materialize y_true) (_materialize y_pred)))
    as [e | out].
  - destruct (isinstance_exn e Exception).
    + destruct expect_exception as [cls |];
        [destruct (isinstance_exn e cls) |]; cbn [fst snd];
        (split; [discriminate |]); split; try discriminate;
        intros _; eexists; (split; [reflexivity |]);
        try (left; eexists; split; reflexivity);
        intros; split; discriminate.
    + cbn [fst snd]. split; [intros; apply app_nil_r |].
      split; discriminate.
  - destruct expect_exception as [cls |].
    { cbn [fst snd]. split; [discriminate |]. split; [discriminate |].
      intros _. eexists. split; [reflexivity |].
      intros; split; discriminate. }
    destruct (isinstance_float_int out); cbn [negb].
    2:{ cbn [fst snd]. split; [discriminate |]. split; [discriminate |].
        intros _. eexists. split; [reflexivity |].
        intros; split; discriminate. }
    destruct (float_of H out) as [e | x].
    { cbn [fst snd]. split; [intros; apply app_nil_r |].
      split; discriminate. }
    destruct (in_unit_range H x); cbn [negb].
    2:{ cbn [fst snd]. split; [discriminate |]. split; [discriminate |].
        intros _. eexists. split; [reflexivity |].
        intros; split; discriminate. }
    destruct expect as [ref |];
      [| destruct (_macro_f1_ref H _ _) as [e | ref];
         [cbn [fst snd]; split; [intros; apply app_nil_r |];
          split; discriminate |]];
      (destruct (_approx_equal H x ref); cbn [negb];
       [| cbn [fst snd]; split; [discriminate |]; split; [discriminate |];
          intros _; eexists; split; [reflexivity |];
          intros; split; discriminate]);
      (destruct (py_list_ne _ _);
       [cbn [fst snd]; split; [discriminate |]; split; [discriminate |];
        intros _; eexists; split; [reflexivity |];
        intros; split; discriminate |]);
      (destruct (py_list_ne _ _);
       [cbn [fst snd]; split; [discriminate |]; split; [discriminate |];
        intros _; eexists; split; [reflexivity |];
        intros; split; discriminate |]);
      cbn [fst snd]; (split; [discriminate |]);
      (split; [| discriminate]);
      intros _; eexists; (split; [reflexivity |]); right;
      (split; [reflexivity |]); eexists; reflexivity.
Qed.






(** ** The reference answers its own battery *)

Section ReferenceAccepted.
Variable H : Host.

Lemma macro_f1_ref_returns (y_true y_pred : iterable) :
  List.length (_materialize y_true) = List.length (_materialize y_pred) ->
  Z.of_nat (List.length (_materialize y_true)) <= 2 ^ 52 ->
  existsb str_raises (_materialize y_true) = false ->
  existsb str_raises (_materialize y_pred) = false ->
  exists m, _macro_f1_ref H y_true y_pred = ok (FFin m) /\ unit_q m.
Proof.
  intros Hlen Hsize Ht Hp. rewrite macro_f1_ref_eq by assumption. cbv zeta.
  apply mean_f1_unit.
  - apply Forall_forall. intros q Hq. apply in_map_iff in Hq.
    destruct Hq as [c [<- _]]. apply spec_class_f1_unit.
  - rewrite length_map. apply classes_bound; rewrite !length_map; assumption.
Qed.

Lemma macro_f1_ref_same (y : iterable) :
  _materialize y <> [] ->
  Z.of_nat (List.length (_materialize y)) <= 2 ^ 52 ->
  existsb str_raises (_materialize y) = false ->
  _macro_f1_ref H y y = ok (FFin 1).
Proof.
  intros Hne Hsize Hk.
  rewrite macro_f1_ref_eq by (reflexivity || assumption). cbv zeta.
  apply mean_f1_ones.
  - intros Hnil. apply map_eq_nil in Hnil.
    apply classes_of_nil in Hnil. destruct Hnil as [Hnil _].
    apply map_eq_nil in Hnil. contradiction.
  - apply Forall_forall. intros q Hq. apply in_map_iff in Hq.
    destruct Hq as [c [<- Hc]]. symmetry.
    assert (In c (map normalized (_materialize y))) as Hin
      by (apply classes_of_In in Hc; tauto).
    apply diag_class_f1_one; [assumption |].
    apply py_eq_refl. apply in_map_iff in Hin.
    destruct Hin as [x [<- _]]. apply normalized_not_nan.
  - rewrite length_map. apply classes_bound; rewrite !length_map;
      [reflexivity | assumption].
Qed.

(** What [run_case] makes of the reference candidate once the reference
    value is known. *)
Lemma reference_candidate_report (name : string) (y_true y_pred : iterable)
  (expect : option pyfloat) (m : Q) :
  _macro_f1_ref H y_true y_pred = ok (FFin m) -> unit_q m ->
  match expect with
  | Some e => _approx_equal H (FFin m) e = true
  | None => True
  end ->
  report H (reference_candidate H) name y_true y_pred expect None =
  (ok true, [PASS_value name (FFin m)]).
Proof.
  intros Href Hm Hexp. unfold report, reference_candidate.
  cbn [outcome y_true_after y_pred_after].
  change (_macro_f1_ref H (IList (_materialize y_true))
            (IList (_materialize y_pred)))
    with (_macro_f1_ref H y_true y_pred).
  rewrite Href. unfold ok.
  change (isinstance_float_int (PFloat (FFin m))) with true.
  change (float_of H (PFloat (FFin m))) with (@inr exn pyfloat (FFin m)).
  cbn [negb]. rewrite (in_unit_range_unit H m Hm). cbn [negb].
  unfold py_list_ne. rewrite !py_list_eq_refl. cbn [negb].
  destruct expect as [e |].
  - rewrite Hexp. reflexivity.
  - rewrite approx_equal_finite_refl. reflexivity.
Qed.

End ReferenceAccepted.



(** A line that reports a passed case. *)
Definition is_pass_line (l : line) : bool :=
  match l with
  | PASS_value _ _ | PASS_raised_expected _ _ => true
  | _ => false
  end.

Lemma reference_report_plain (H : Host) (c : test_case) :
  tc_expect c = None -> tc_expect_exception c = None ->
  List.length (_materialize (tc_true c)) =
  List.length (_materialize (tc_pred c)) ->
  Z.of_nat (List.length (_materialize (tc_true c))) <= 2 ^ 52 ->
  existsb str_raises (_materialize (tc_true c)) = false ->
  existsb str_raises (_materialize (tc_pred c)) = false ->
  exists l, report H (reference_candidate H) (tc_name c) (tc_true c)
              (tc_pred c) (tc_expect c) (tc_expect_exception c)
            = (ok true, [l]) /\ is_pass_line l = true.
Proof.
  intros -> -> Hlen Hsize Ht Hp.
  destruct (macro_f1_ref_returns H _ _ Hlen Hsize Ht Hp) as [m [Hm Hu]].
  exists (PASS_value (tc_name c) (FFin m)). split; [| reflexivity].
  now apply reference_candidate_report.
Qed.

Lemma reference_report_battery (H : Host) (c : test_case) :
  In c battery ->
  exists l, report H (reference_candidate H) (tc_name c) (tc_true c)
              (tc_pred c) (tc_expect c) (tc_expect_exception c)
            = (ok true, [l]) /\ is_pass_line l = true.
Proof.
  intros Hc.
  assert (Hsmall : forall n, (n <= 100)%nat -> Z.of_nat n <= 2 ^ 52).
  { intros n Hn. apply Z.le_trans with 100; [lia |].
    vm_compute. discriminate. }
  repeat (destruct Hc as [<- | Hc];
          [first
             [ apply reference_report_plain;
               [reflexivity | reflexivity | reflexivity
               | apply Hsmall; vm_compute; repeat constructor
               | vm_compute; reflexivity | vm_compute; reflexivity ]
             | idtac ] |]); [| | destruct Hc].
  - (* perfect: the literal 1.0 *)
    eexists. split.
    + apply (reference_candidate_report H _ _ _ _ 1).
      * apply macro_f1_ref_same; [discriminate | | reflexivity].
        apply Hsmall. vm_compute. repeat constructor.
      * split; discriminate.
      * apply approx_equal_finite_refl.
    + reflexivity.
  - (* length_mismatch: the reference raises ValueError *)
    eexists. split; reflexivity.
Qed.

(** X12.  Graded against itself, the reference passes: when the module
    loads and is documented and [macro_f1] is the reference, all thirteen
    cases are run, each prints one PASS line, [GRADE:PASS] follows and the
    process exits with code 0, for every rounding and every class order
    the host may have. *)
Theorem reference_passes_battery (H : Host) :
  exists lines,
    run_grader H (sound_module (reference_candidate H)) =
    (0, mkWorld (lines ++ [GRADE_PASS]) 13) /\
    List.length lines = 13%nat /\
    forallb is_pass_line lines = true.
Proof.
  set (f := reference_candidate H).
  assert (Hv : Forall (fun c => exists b, verdict H f c = ok b) battery).
  { apply Forall_forall. intros c Hc.
    destruct (reference_report_battery H c Hc) as [l [Hl _]].
    exists true. unfold verdict. fold f in Hl. now rewrite Hl. }
  destruct (run_all_complete H f battery Hv true start)
    as [w' [Hrun [Hcalls Hout]]].
  assert (Hall : forallb (fun c => match verdict H f c with
                                   | inr true => true
                                   | _ => false
                                   end) battery = true).
  { apply forallb_forall. intros c Hc.
    destruct (reference_report_battery H c Hc) as [l [Hl _]].
    unfold verdict. fold f in Hl. now rewrite Hl. }
  rewrite Hall in Hrun. cbn [andb] in Hrun.
  exists (flat_map (printed H f) battery). split; [| split].
  - unfold run_grader. rewrite grade_eq. cbn -[battery main].
    change (has_docstring (Some "doc"%string)) with true. cbn iota.
    rewrite main_eq. fold f. rewrite Hrun. unfold ok, say.
    cbn [exit_status exn_class exn_code exc_class_eqb].
    rewrite Hout, Hcalls. reflexivity.
  - assert (Hone : forall cs, (forall c, In c cs -> In c battery) ->
              List.length (flat_map (printed H f) cs) = List.length cs).
    { induction cs as [| c cs IH]; intros Hin; [reflexivity |].
      cbn [flat_map]. rewrite length_app, IH
        by (intros c' Hc'; apply Hin; now right).
      destruct (reference_report_battery H c (Hin c (or_introl eq_refl)))
        as [l [Hl _]].
      unfold printed. fold f in Hl. rewrite Hl. reflexivity. }
    rewrite Hone by auto. reflexivity.
  - apply forallb_forall. intros l Hl. apply in_flat_map in Hl.
    destruct Hl as [c [Hc Hl]].
    destruct (reference_report_battery H c Hc) as [l' [Hl' Hp]].
    unfold printed in Hl. fold f in Hl'. rewrite Hl' in Hl.
    destruct Hl as [<- | []]. exact Hp.
Qed.

(** ** The script as a whole *)

(** Lines of the start-up checks that can be printed. *)
Definition is_startup_line (l : line) : bool :=
  match l with
  | FAIL_numpy_not_available _ | FAIL_solution_not_found
  | FAIL_import_raised _ | FAIL_macro_f1_not_defined
  | FAIL_inspect_docstring _ | FAIL_docstring_missing => true
  | _ => false
  end.

Lemma has_docstring_iff (doc : option string) :
  has_docstring doc = true <->
  exists d, doc = Some d /\ (0 < String.length (strip d))%nat.
Proof.
  destruct doc as [d |]; cbn [has_docstring].
  - rewrite Nat.ltb_lt. split; [eauto | now intros [d' [[= <-] Hd]]].
  - split; [discriminate | now intros [d [Hd _]]].
Qed.

Local Ltac stop_here :=
  eexists; split; [| reflexivity]; first [reflexivity | assumption].

(** The three ways the start-up can end. *)
Lemma grade_cases (H : Host) (env : environment) :
  (setup_ok env /\
   grade H env start = main H (solution_macro_f1 env) start) \/
  (~ setup_ok env /\
   exists l, is_startup_line l = true /\
             grade H env start = fatal start l) \/
  (~ setup_ok env /\
   exists e, isinstance_exn e Exception = false /\
             grade H env start = (inl e, start)).
Proof.
  rewrite grade_eq. unfold setup_ok.
  destruct (import_numpy env) as [e |] eqn:Enp.
  { right. destruct (isinstance_exn e Exception) eqn:Ee;
      [left | right]; (split; [intros [Hc _]; discriminate |]); stop_here. }
  destruct (solution_exists env) eqn:Eex; cbn [negb].
  2:{ right. left. split; [intros [_ [Hc _]]; discriminate |]. stop_here. }
  destruct (exec_module env) as [e |] eqn:Eload.
  { right. destruct (isinstance_exn e Exception) eqn:Ee;
      [left | right];
      (split; [intros [_ [_ [Hc _]]]; discriminate |]); stop_here. }
  destruct (has_macro_f1 env) eqn:Ehas; cbn [negb].
  2:{ right. left.
      split; [intros [_ [_ [_ [Hc _]]]]; discriminate |]. stop_here. }
  destruct (get_docstring env) as [e | doc] eqn:Edoc.
  { right. destruct (isinstance_exn e Exception) eqn:Ee;
      [left | right];
      (split; [intros [_ [_ [_ [_ [d [Hc _]]]]]]; discriminate |]); stop_here. }
  destruct (has_docstring doc) eqn:Ed.
  - left. split; [| reflexivity]. repeat split.
    apply has_docstring_iff in Ed. destruct Ed as [d [-> Hd]]. eauto.
  - right. left. split; [| stop_here].
    intros [_ [_ [_ [_ [d [[= ->] Hd]]]]]].
    assert (has_docstring (Some d) = true) as Ht
      by (apply has_docstring_iff; eauto).
    congruence.
Qed.

(** A run of cases that returns a value had a verdict from every case. *)
Lemma run_all_verdicts (H : Host) (f : candidate) (cases : list test_case) :
  forall (all_ok : bool) (w : world) (b : bool),
  fst (run_all H f cases all_ok w) = ok b ->
  Forall (fun c => exists b, verdict H f c = ok b) cases.
Proof.
  induction cases as [| c cases IH]; intros all_ok w b Hrun;
    [constructor |].
  cbn [run_all] in Hrun. unfold pbind in Hrun.
  rewrite run_test_report in Hrun.
  destruct (verdict H f c) as [e | bc] eqn:Ev; [discriminate |].
  constructor; [eauto |]. eapply IH. exact Hrun.
Qed.

(** What [main] returns and prints, from the verdicts alone. *)
Lemma main_outcome (H : Host) (f : candidate) :
  exists lines,
    forallb is_case_line lines = true /\
    (1 <= calls (snd (main H f start)))%nat /\
    ((exists e, fst (run_all H f battery true start) = inl e /\
                main H f start = (inl e, snd (main H f start)) /\
                stdout (snd (main H f start)) = lines) \/
     (Forall (fun c => verdict H f c = ok true) battery /\
      fst (main H f start) = inl (mkExn SystemExit 0) /\
      stdout (snd (main H f start)) = lines ++ [GRADE_PASS]) \/
     (Forall (fun c => exists b, verdict H f c = ok b) battery /\
      Exists (fun c => verdict H f c = ok false) battery /\
      fst (main H f start) = inl (mkExn SystemExit 1) /\
      stdout (snd (main H f start)) = lines ++ [GRADE_FAIL])).
Proof.
  destruct (run_all_effects H f battery true start)
    as [lines [Hout [Hlines Hcalls]]].
  exists lines. rewrite main_eq.
  pose proof (run_all_verdicts H f battery true start) as Hinv.
  destruct (run_all H f battery true start) as [[e | b] w'] eqn:Erun.
  - cbn [fst snd stdout calls start app] in *. repeat split; try assumption.
    left. exists e. auto.
  - specialize (Hinv b eq_refl).
    destruct (run_all_complete H f battery Hinv true start)
      as [w'' [Hrun _]].
    rewrite Erun, andb_true_l in Hrun. unfold ok in Hrun.
    set (fb := forallb _ battery) in Hrun.
    injection Hrun as Hb _. subst fb.
    cbn [fst snd stdout calls start app] in *.
    destruct b; cbn [fst snd say stdout calls];
      (split; [assumption |]); (split; [assumption |]); right.
    + left. split; [| rewrite Hout; auto].
      symmetry in Hb. rewrite forallb_forall in Hb.
      apply Forall_forall. intros c Hc. specialize (Hb c Hc).
      destruct (verdict H f c) as [e | [|]]; try discriminate. reflexivity.
    + right. split; [assumption |]. split; [| rewrite Hout; auto].
      apply Exists_exists.
      assert (Hex : existsb (fun c => negb match verdict H f c with
                                           | inr true => true
                                           | _ => false
                                           end) battery = true).
      { destruct (existsb _ battery) eqn:Ee; [reflexivity |].
        exfalso. assert (forallb (fun c => match verdict H f c with
                                   | inr true => true
                                   | _ => false
                                   end) battery = true) as Hf.
        { apply forallb_forall. intros c Hc.
          destruct (match verdict H f c with
                    | inr true => true | _ => false end) eqn:Em;
            [reflexivity |].
          assert (existsb (fun c => negb match verdict H f c with
                                           | inr true => true
                                           | _ => false
                                           end) battery = true) as Hx
            by (apply existsb_exists; exists c; split;
                [assumption | now rewrite Em]).
          congruence. }
        congruence. }
      apply existsb_exists in Hex. destruct Hex as [c [Hc Hn]].
      exists c. split; [assumption |].
      rewrite Forall_forall in Hinv. destruct (Hinv c Hc) as [bc Hbc].
      rewrite Hbc in Hn |- *. destruct bc; [discriminate | reflexivity].
Qed.

Lemma fst_run_grader (H : Host) (env : environment) :
  fst (run_grader H env) = exit_status (fst (grade H env start)).
Proof. unfold run_grader. now destruct (grade H env start). Qed.

Lemma snd_run_grader (H : Host) (env : environment) :
  snd (run_grader H env) = snd (grade H env start).
Proof. unfold run_grader. now destruct (grade H env start). Qed.





(** A case prints one line with its verdict and nothing when it ends
    without one. *)
Lemma printed_shape (H : Host) (f : candidate) (c : test_case) :
  match verdict H f c with
  | inl _ => printed H f c = []
  | inr _ => exists l, printed H f c = [l]
  end.
Proof.
  unfold verdict, printed, report.
  destruct (outcome _) as [e | out].
  - destruct (isinstance_exn e Exception); [| reflexivity].
    destruct (tc_expect_exception c) as [cls |];
      [destruct (isinstance_exn e cls) |]; cbn; eauto.
  - destruct (tc_expect_exception c) as [cls |]; [cbn; eauto |].
    destruct (isinstance_float_int out); cbn [negb]; [| cbn; eauto].
    destruct (float_of H out) as [e | x]; [reflexivity |].
    destruct (in_unit_range H x); cbn [negb]; [| cbn; eauto].
    destruct (tc_expect c) as [ref |];
      [| destruct (_macro_f1_ref H _ _) as [e | ref]; [reflexivity |]];
      unfold ok; cbn iota beta;
      (destruct (_approx_equal H x ref); cbn [negb]; [| cbn; eauto]);
      (destruct (py_list_ne _ _); [cbn; eauto |]);
      destruct (py_list_ne _ _); cbn; eauto.
Qed.

(** Calls and lines of a run of cases: one line per call, less the call
    that ended the run, if one did. *)
Lemma run_all_counts (H : Host) (f : candidate) (cases : list test_case) :
  forall (all_ok : bool) (w : world),
  exists lines,
    stdout (snd (run_all H f cases all_ok w)) = stdout w ++ lines /\
    forallb is_case_line lines = true /\
    match fst (run_all H f cases all_ok w) with
    | inl _ =>
        calls (snd (run_all H f cases all_ok w))
        = (calls w + S (List.length lines))%nat /\
        (List.length lines < List.length cases)%nat
    | inr _ =>
        calls (snd (run_all H f cases all_ok w))
        = (calls w + List.length lines)%nat /\
        List.length lines = List.length cases
    end.
Proof.
  induction cases as [| c cases IH]; intros all_ok w.
  - exists []. cbn. rewrite app_nil_r. repeat split. lia.
  - cbn [run_all]. unfold pbind. rewrite run_test_report.
    pose proof (printed_shape H f c) as Hshape.
    pose proof (printed_case_lines H f c) as Hcase.
    destruct (verdict H f c) as [e | b].
    + exists []. rewrite Hshape. cbn [fst snd stdout calls List.length].
      repeat split; lia.
    + destruct Hshape as [l Hl]. rewrite Hl in *.
      destruct (IH (all_ok && b) (mkWorld (stdout w ++ [l]) (S (calls w))))
        as [lines [Hout [Hlines Hcount]]].
      exists (l :: lines). rewrite Hout. cbn [stdout calls] in *.
      split; [now rewrite <- app_assoc |]. split.
      * cbn [forallb]. cbn [forallb] in Hcase.
        rewrite andb_true_r in Hcase. now rewrite Hcase, Hlines.
      * cbn [List.length].
        destruct (fst (run_all H f cases (all_ok && b) _)); lia.
Qed.

(** X14.  The candidate is called exactly when every start-up step
    succeeded (numpy imports, the solution file exists, the module loads,
    defines [macro_f1] and the function has a docstring that is not
    blank); otherwise the script stops with at most one line, a start-up
    failure line, and no call. *)
Theorem candidate_called_iff_setup_ok (H : Host) (env : environment) :
  (setup_ok env <-> (1 <= calls (snd (grade H env start)))%nat) /\
  (~ setup_ok env ->
   calls (snd (grade H env start)) = 0%nat /\
   (stdout (snd (grade H env start)) = [] \/
    exists l, is_startup_line l = true /\
              stdout (snd (grade H env start)) = [l] /\
              fst (run_grader H env) = 1)).
Proof.
  rewrite fst_run_grader.
  destruct (grade_cases H env)
    as [[Hok Hg] | [[Hno [l [Hl Hg]]] | [Hno [e [He Hg]]]]]; rewrite Hg.
  - destruct (main_outcome H (solution_macro_f1 env))
      as [lines [_ [Hcalls _]]].
    split; [tauto | contradiction].
  - cbn [fatal fst snd say stdout calls start app]. split.
    + split; [contradiction | lia].
    + intros _. split; [reflexivity |]. right. exists l. auto.
  - cbn [fst snd stdout calls start]. split.
    + split; [contradiction | lia].
    + intros _. auto.
Qed.

Lemma candidate_called_iff_setup_ok_witness :
  calls (snd (grade binary64_host
                (mkEnv None true None false (ok None) (ok false)
                   (reference_candidate binary64_host)) start)) = 0%nat /\
  (stdout (snd (grade binary64_host
                  (mkEnv None true None false (ok None) (ok false)
                     (reference_candidate binary64_host)) start)) = [] \/
   exists l, is_startup_line l = true /\
     stdout (snd (grade binary64_host
                    (mkEnv None true None false (ok None) (ok false)
                       (reference_candidate binary64_host)) start)) = [l] /\
     fst (run_grader binary64_host
            (mkEnv None true None false (ok None) (ok false)
               (reference_candidate binary64_host))) = 1).
Proof.
  apply (proj2 (candidate_called_iff_setup_ok binary64_host
                  (mkEnv None true None false (ok None) (ok false)
                     (reference_candidate binary64_host)))).
  intros [_ [_ [_ [Hhas _]]]]. discriminate Hhas.
Defined.



(** ** The docstring check *)

Fixpoint all_space (s : string) : bool :=
  match s with
  | EmptyString => true
  | String a s' => isspace a && all_space s'
  end.

Lemma lstrip_empty_iff (s : string) :
  lstrip s = EmptyString <-> all_space s = true.
Proof.
  induction s as [| a s IH]; cbn; [tauto |].
  destruct (isspace a); cbn; [exact IH |].
  split; discriminate.
Qed.

Lemma lstrip_head (s : string) :
  match lstrip s with
  | EmptyString => True
  | String a _ => isspace a = false
  end.
Proof.
  induction s as [| a s IH]; cbn; [exact I |].
  destruct (isspace a) eqn:E; [exact IH | exact E].
Qed.

Lemma rstrip_empty_iff (s : string) :
  rstrip s = EmptyString <-> all_space s = true.
Proof.
  induction s as [| a s IH]; cbn; [tauto |].
  destruct (rstrip s) as [| b t].
  - destruct (isspace a); cbn; [| split; discriminate].
    split; intros _; [now apply IH | reflexivity].
  - split; [discriminate |]. intros Ha.
    apply andb_true_iff in Ha. destruct Ha as [_ Ha].
    apply IH in Ha. discriminate.
Qed.

Lemma all_space_lstrip (s : string) :
  all_space (lstrip s) = all_space s.
Proof.
  induction s as [| a s IH]; cbn; [reflexivity |].
  destruct (isspace a) eqn:E; cbn; [exact IH | now rewrite E].
Qed.

Lemma strip_empty_iff (s : string) :
  strip s = EmptyString <-> all_space s = true.
Proof.
  unfold strip. rewrite rstrip_empty_iff. now rewrite all_space_lstrip.
Qed.

(** X16.  A blank docstring counts as none: the style check lets the run
    through exactly when [macro_f1] has a docstring with at least one
    character that is not white space; with a docstring of white space
    only, as with none, it prints the missing-docstring line and exits
    with status 1.  (Docstrings over the code points below 256, where
    white space is what [isspace] says: U+0085 and U+00A0 included.) *)
Theorem docstring_gate (env : environment) (w : world) :
  (fst (style_check env w) = ok tt <->
   exists d, get_docstring env = ok (Some d) /\ all_space d = false) /\
  (forall doc,
     get_docstring env = ok doc ->
     match doc with Some d => all_space d = true | None => True end ->
     style_check env w =
     (inl (mkExn SystemExit 1),
      mkWorld (stdout w ++ [FAIL_docstring_missing]) (calls w))).
Proof.
  assert (Hdoc : forall d, has_docstring (Some d) = negb (all_space d)).
  { intros d. cbn [has_docstring].
    destruct (all_space d) eqn:E; cbn [negb].
    - apply strip_empty_iff in E. now rewrite E.
    - destruct (strip d) eqn:Es; [| reflexivity].
      apply strip_empty_iff in Es. congruence. }
  rewrite style_check_eq. split.
  - destruct (get_docstring env) as [e | [d |]].
    + split.
      * destruct (isinstance_exn e Exception); discriminate.
      * intros [d [Hd _]]. discriminate.
    + unfold ok. rewrite Hdoc. destruct (all_space d) eqn:E; cbn [negb fst].
      * split; [discriminate |]. intros [d' [[= <-] Hd']]. congruence.
      * split; [eauto | reflexivity].
    + split; [discriminate |]. intros [d [Hd _]]. discriminate.
  - intros doc -> Hblank. unfold ok. destruct doc as [d |].
    + rewrite Hdoc, Hblank. reflexivity.
    + reflexivity.
Qed.

Lemma docstring_gate_witness :
  style_check
    (mkEnv None true None true
       (ok (Some (String (ascii_of_nat 32) (String (ascii_of_nat 10)
                    EmptyString))))
       (ok false) (reference_candidate binary64_host)) start =
  (inl (mkExn SystemExit 1),
   mkWorld (stdout start ++ [FAIL_docstring_missing]) (calls start)).
Proof.
  apply (proj2 (docstring_gate
                  (mkEnv None true None true
                     (ok (Some (String (ascii_of_nat 32)
                                  (String (ascii_of_nat 10) EmptyString))))
                     (ok false) (reference_candidate binary64_host)) start)
           (Some (String (ascii_of_nat 32)
                    (String (ascii_of_nat 10) EmptyString)))).
  - reflexivity.
  - reflexivity.
Defined.

(** [strip] removes white space at both ends and nothing else: the
    result neither starts nor ends with a white-space character, stripping
    twice is stripping once, and a string that neither starts nor ends
    with white space is left as it is. *)
Lemma strip_spec (s : string) :
  match strip s with
  | EmptyString => True
  | String a _ => isspace a = false
  end /\
  match rev (list_ascii_of_string (strip s)) with
  | [] => True
  | a :: _ => isspace a = false
  end /\
  strip (strip s) = strip s /\
  (match s with EmptyString => True | String a _ => isspace a = false end ->
   match rev (list_ascii_of_string s) with
   | [] => True
   | a :: _ => isspace a = false
   end ->
   strip s = s).
Proof.
  assert (Hl : forall t,
            match t with EmptyString => True
                    | String a _ => isspace a = false end ->
            lstrip t = t).
  { intros [| a t] Ht; cbn; [reflexivity | now rewrite Ht]. }
  assert (Hr : forall t,
            match rev (list_ascii_of_string t) with
            | [] => True | a :: _ => isspace a = false end ->
            rstrip t = t).
  { induction t as [| a t IH]; cbn; [reflexivity |].
    destruct t as [| b t].
    - cbn. intros ->. reflexivity.
    - intros Hlast.
      assert (rstrip (String b t) = String b t) as Ht.
      { apply IH. cbn in *.
        destruct (rev (list_ascii_of_string t) ++ [b]) as [| x r] eqn:E.
        - now destruct (rev (list_ascii_of_string t)).
        - exact Hlast. }
      now rewrite Ht. }
  assert (Hlast : forall t,
            match rev (list_ascii_of_string (rstrip t)) with
            | [] => True | a :: _ => isspace a = false end).
  { induction t as [| a t IH]; cbn; [exact I |].
    destruct (rstrip t) as [| b u] eqn:Et.
    - destruct (isspace a) eqn:Ea; cbn; [exact I | exact Ea].
    - cbn in *.
      destruct (rev (list_ascii_of_string u) ++ [b]) as [| x r] eqn:E.
      + now destruct (rev (list_ascii_of_string u)).
      + exact IH. }
  assert (Hhead : forall t,
            match t with EmptyString => True
                    | String a _ => isspace a = false end ->
            match rstrip t with EmptyString => True
                    | String a _ => isspace a = false end).
  { intros [| a t] Ht; cbn; [exact I |].
    destruct (rstrip t); [now rewrite Ht | exact Ht]. }
  assert (H1 : match strip s with EmptyString => True
                    | String a _ => isspace a = false end)
    by (apply Hhead, lstrip_head).
  assert (H2 : match rev (list_ascii_of_string (strip s)) with
               | [] => True | a :: _ => isspace a = false end)
    by apply Hlast.
  repeat split; try assumption.
  - unfold strip at 1. rewrite (Hl (strip s) H1). now apply Hr.
  - intros Hs He. unfold strip. rewrite (Hl s Hs). now apply Hr.
Qed.

(** X17.  Bounds on a whole run of the script: the candidate is called at
    most thirteen times, at most one line more than calls is printed
    (fourteen at most), and the line of the second [except] clause of the
    style check, "unable to inspect macro_f1 source for style checks", is
    never among them. *)
Theorem grade_output_bounds (H : Host) (env : environment) :
  (forall e,
     ~ In (FAIL_inspect_style e) (stdout (snd (grade H env start)))) /\
  (calls (snd (grade H env start)) <= 13)%nat /\
  (List.length (stdout (snd (grade H env start)))
   <= S (calls (snd (grade H env start))))%nat.
Proof.
  destruct (grade_cases H env)
    as [[Hok Hg] | [[Hno [l [Hl Hg]]] | [Hno [e [He Hg]]]]]; rewrite Hg.
  - set (f := solution_macro_f1 env). rewrite main_eq.
    destruct (run_all_counts H f battery true start)
      as [lines [Hout [Hlines Hcount]]].
    assert (Hnot : forall e, ~ In (FAIL_inspect_style e) lines).
    { intros e Hin. rewrite forallb_forall in Hlines.
      apply Hlines in Hin. discriminate. }
    change (List.length battery) with 13%nat in Hcount.
    destruct (run_all H f battery true start) as [[e | b] w'];
      cbn [fst snd stdout calls start app] in *;
      destruct Hcount as [Hcalls Hlen].
    + rewrite Hout. split; [assumption |]. lia.
    + destruct b; cbn [snd say stdout calls]; rewrite Hout;
        (split; [intros e Hin; apply in_app_or in Hin;
                 destruct Hin as [Hin | [Hin | []]];
                 [now apply (Hnot e) | discriminate] |]);
        rewrite length_app; cbn [List.length]; lia.
  - cbn [fatal snd say stdout calls start app List.length].
    split; [| lia]. intros e [Heq | []]. subst l. discriminate.
  - cbn [snd stdout calls start List.length]. split; [| lia].
    intros e' [].
Qed.

(** * The stored solutions (runs/trial_NN/solution.py)

    The four solutions kept from earlier trials.  Each is translated line
    by line.  [H] is the float arithmetic; [iter] is the order in which
    [for c in classes] visits the elements of a set, which Python leaves to
    the hashes.  The sentinel of a solution is an object of its own, equal
    to itself only; it is written [PSentinel], so the labels given to a
    solution are taken not to hold the grader's sentinel. *)

(** try: test / except (TypeError, ValueError): pass *)
Definition except_type_value (test : result bool) : result bool :=
  match test with
  | inl e =>
      if isinstance_exn e TypeError || isinstance_exn e ValueError
      then ok false else inl e
  | inr b => ok b
  end.

(** tp / (tp + fp) if (tp + fp) > 0 else 0.0 *)
Definition ratio_if_positive (H : Host) (tp other : Z) : result Q :=
  if 0 <? tp + other then int_truediv H tp (tp + other) else ok 0%Q.

(** The body of [for c in classes], with the two ratios as given. *)
Definition score_class (H : Host) (ratio : Z -> Z -> result Q)
  (yt yp : list value) (c : value) : result Q :=
  let tp := count_pairs (fun a b => py_eq a c && py_eq b c) yt yp in
  let fp := count_pairs (fun a b => py_ne a c && py_eq b c) yt yp in
  let fn := count_pairs (fun a b => py_eq a c && py_ne b c) yt yp in
  (precision <~ ratio tp fp ;;
   recall <~ ratio tp fn ;;
   if Qeq_bool (fl H (precision + recall)) 0 then ok 0%Q
   else float_truediv H (fl H (fl H (2 * precision) * recall))
          (fl H (precision + recall)))%result.

(** sum(f1_scores) / len(f1_scores) *)
Definition average (H : Host) (f1_scores : list Q) : result value :=
  (n <~ float_of_int H (Z.of_nat (List.length f1_scores)) ;;
   m <~ float_truediv H (py_sum H f1_scores) n ;;
   ok (PFloat (FFin m)))%result.

Module Trial_02.

Definition _NAN_SENTINEL : value := PSentinel.

Definition normalize_label (label : value) : result value :=
  (b <~ except_type_value
          (if isinstance_float label then math_isnan label else ok false) ;;
   if b then ok _NAN_SENTINEL else ok label)%result.

Definition macro_f1 (H : Host) (iter : list value -> list value)
  (y_true y_pred : list value) : result value :=
  let y_true_list := y_true in
  let y_pred_list := y_pred in
  if negb (Nat.eqb (List.length y_true_list) (List.length y_pred_list))
  then raise (exc ValueError)
  else
    (y_true_normalized <~ mapM normalize_label y_true_list ;;
     y_pred_normalized <~ mapM normalize_label y_pred_list ;;
     let classes :=
       py_set_union (py_set y_true_normalized) (py_set y_pred_normalized) in
     match classes with
     | [] => ok (PFloat (FFin 0))
     | _ :: _ =>
         f1_scores <~ mapM (score_class H (ratio_if_positive H)
                              y_true_normalized y_pred_normalized)
                        (iter classes) ;;
         match f1_scores with
         | [] => ok (PFloat (FFin 0))
         | _ :: _ => average H f1_scores
         end
     end)%result.

End Trial_02.

Module Trial_04.

(** [_NaNSentinel()]: equal to the instances of its class, of which there
    is one. *)
Definition _nan_sentinel : value := PSentinel.

Definition normalize_label (label : value) : result value :=
  (b <~ except_type_value
          (ok (isinstance_float label && py_ne label label)) ;;
   if b then ok _nan_sentinel else ok label)%result.

Definition macro_f1 (H : Host) (iter : list value -> list value)
  (y_true y_pred : list value) : result value :=
  let y_true_list := y_true in
  let y_pred_list := y_pred in
  if negb (Nat.eqb (List.length y_true_list) (List.length y_pred_list))
  then raise (exc ValueError)
  else
    (y_true_normalized <~ mapM normalize_label y_true_list ;;
     y_pred_normalized <~ mapM normalize_label y_pred_list ;;
     let classes :=
       py_set_union (py_set y_true_normalized) (py_set y_pred_normalized) in
     if Nat.eqb (List.length y_true_normalized) 0
     then ok (PFloat (FFin 0))
     else
       f1_scores <~ mapM (score_class H (ratio_if_positive H)
                            y_true_normalized y_pred_normalized)
                      (iter classes) ;;
       if (0 <? List.length f1_scores)%nat then average H f1_scores
       else ok (PFloat (FFin 0)))%result.

End Trial_04.

Module Trial_06.

Definition _NAN_SENTINEL : value := PSentinel.

Definition normalize_label (label : value) : result value :=
  (b <~ except_type_value
          (ok (isinstance_float label && py_ne label label)) ;;
   if b then ok _NAN_SENTINEL else ok label)%result.

Definition macro_f1 (H : Host) (iter : list value -> list value)
  (y_true y_pred : list value) : result value :=
  let y_true_list := y_true in
  let y_pred_list := y_pred in
  if negb (Nat.eqb (List.length y_true_list) (List.length y_pred_list))
  then raise (exc ValueError)
  else
    (y_true_normalized <~ mapM normalize_label y_true_list ;;
     y_pred_normalized <~ mapM normalize_label y_pred_list ;;
     let classes :=
       py_set_union (py_set y_true_normalized) (py_set y_pred_normalized) in
     if Nat.eqb (List.length classes) 0
     then ok (PFloat (FFin 0))
     else
       f1_scores <~ mapM (score_class H
                            (fun tp other =>
                               if tp + other =? 0 then ok 0%Q
                               else int_truediv H tp (tp + other))
                            y_true_normalized y_pred_normalized)
                      (iter classes) ;;
       average H f1_scores)%result.

End Trial_06.

Module Trial_08.

Definition sentinel : value := PSentinel.

Definition normalize_label (label : value) : result value :=
  (b <~ except_type_value
          (if isinstance_float label then math_isnan label else ok false) ;;
   if b then ok sentinel else ok label)%result.

Definition macro_f1 (H : Host) (iter : list value -> list value)
  (y_true y_pred : list value) : result value :=
  let y_true_list := y_true in
  let y_pred_list := y_pred in
  if negb (Nat.eqb (List.length y_true_list) (List.length y_pred_list))
  then raise (exc ValueError)
  else
    (y_true_norm <~ mapM normalize_label y_true_list ;;
     y_pred_norm <~ mapM normalize_label y_pred_list ;;
     let classes := py_set_union (py_set y_true_norm) (py_set y_pred_norm) in
     if Nat.eqb (List.length y_true_norm) 0
     then ok (PFloat (FFin 0))
     else
       f1_scores <~ mapM (score_class H (ratio_if_positive H)
                            y_true_norm y_pred_norm)
                      (iter classes) ;;
       if (0 <? List.length f1_scores)%nat then average H f1_scores
       else ok (PFloat (FFin 0)))%result.

End Trial_08.


(** The host whose classes come in the order [iter]. *)
Definition with_order (H : Host) (iter : list value -> list value)
  (Hiter : forall l, Permutation (iter l) l) : Host :=
  mkHost (rnd H) (rnd_mono H) (rnd_canon H) (rnd_int H) (rnd_double H)
    iter Hiter.

(** ** The four solutions are the reference with another class order *)

Lemma except_type_value_ok (b : bool) : except_type_value (ok b) = ok b.
Proof. reflexivity. Qed.

Lemma isnan_test (label : value) :
  (if isinstance_float label then math_isnan label else ok false)
  = ok (match label with PFloat f => isnan f | _ => false end).
Proof. destruct label; reflexivity. Qed.

Lemma self_ne_test (label : value) :
  isinstance_float label && py_ne label label
  = match label with PFloat f => isnan f | _ => false end.
Proof.
  destruct label as [| b | z | f | s | l | l |]; try reflexivity.
  destruct f as [q | s | n]; cbn; unfold py_ne; cbn;
    rewrite ?Qeq_bool_refl; try reflexivity.
  now destruct s.
Qed.

Lemma normalized_of_test (label : value) :
  (if match label with PFloat f => isnan f | _ => false end
   then ok PSentinel else ok label) = (ok (normalized label) : result value).
Proof.
  destruct label as [| b | z | f | s | l | l |]; try reflexivity.
  destruct f; reflexivity.
Qed.

Lemma normalize_label_02 (label : value) :
  Trial_02.normalize_label label = ok (normalized label).
Proof.
  unfold Trial_02.normalize_label. rewrite isnan_test.
  cbn [except_type_value ok rbind]. apply normalized_of_test.
Qed.

Lemma normalize_label_04 (label : value) :
  Trial_04.normalize_label label = ok (normalized label).
Proof.
  unfold Trial_04.normalize_label. rewrite self_ne_test.
  cbn [except_type_value ok rbind]. apply normalized_of_test.
Qed.

Lemma normalize_label_06 (label : value) :
  Trial_06.normalize_label label = ok (normalized label).
Proof.
  unfold Trial_06.normalize_label. rewrite self_ne_test.
  cbn [except_type_value ok rbind]. apply normalized_of_test.
Qed.

Lemma normalize_label_08 (label : value) :
  Trial_08.normalize_label label = ok (normalized label).
Proof.
  unfold Trial_08.normalize_label. rewrite isnan_test.
  cbn [except_type_value ok rbind]. apply normalized_of_test.
Qed.

Lemma mapM_ok_map {A B} (f : A -> result B) (g : A -> B) (l : list A) :
  (forall a, f a = ok (g a)) -> mapM f l = ok (map g l).
Proof.
  intros Hf. induction l as [| a l IH]; simpl; [reflexivity |].
  rewrite Hf, IH. reflexivity.
Qed.

Lemma ratio_if_positive_eq (H : Host) (tp other : Z) :
  0 <= tp -> 0 <= other ->
  ratio_if_positive H tp other
  = if tp + other =? 0 then ok 0%Q else int_truediv H tp (tp + other).
Proof.
  intros Ht Ho. unfold ratio_if_positive.
  destruct (Z.ltb_spec 0 (tp + other)), (Z.eqb_spec (tp + other) 0);
    try reflexivity; lia.
Qed.

Lemma score_class_eq (H : Host) (yt yp : list value) (c : value) :
  score_class H (ratio_if_positive H) yt yp c = class_f1 H yt yp c.
Proof.
  unfold score_class, class_f1, tp_of, fp_of, fn_of, prec_of, rec_of, f1_of.
  rewrite !ratio_if_positive_eq by apply count_pairs_nonneg.
  reflexivity.
Qed.

Lemma score_class_eq0 (H : Host) (yt yp : list value) (c : value) :
  score_class H
    (fun tp other =>
       if tp + other =? 0 then ok 0%Q else int_truediv H tp (tp + other))
    yt yp c = class_f1 H yt yp c.
Proof. reflexivity. Qed.

Lemma average_mean_f1 (H : Host) (f1s : list Q) :
  f1s <> [] ->
  average H f1s
  = match mean_f1 H f1s with
    | inl e => inl e
    | inr f => inr (PFloat f)
    end.
Proof.
  intros Hne. destruct f1s as [| q l]; [contradiction |].
  unfold average, mean_f1, rbind, ok.
  destruct (float_of_int H _) as [e | n]; [reflexivity |].
  destruct (float_truediv H _ n); reflexivity.
Qed.

Lemma perm_nil_iff (iter : list value -> list value) (l : list value) :
  (forall l, Permutation (iter l) l) -> (iter l = [] <-> l = []).
Proof.
  intros Hiter. split.
  - intros E. pose proof (Hiter l) as Hp. rewrite E in Hp.
    now apply Permutation_nil in Hp.
  - intros ->. apply Permutation_nil. apply Permutation_sym, Hiter.
Qed.

Lemma union_nil_iff (yt yp : list value) :
  List.length yt = List.length yp ->
  (py_set_union (py_set yt) (py_set yp) = [] <-> yt = []).
Proof.
  intros Hlen. unfold py_set_union, py_set. split.
  - intros E. apply fold_py_set_add_nil in E. destruct E as [_ E].
    apply fold_py_set_add_nil in E. tauto.
  - intros ->. destruct yp; [reflexivity | discriminate].
Qed.

(** The reference less its sort, as a returned object: the length check,
    the normalization, and the scores of the classes averaged in the order
    the host gives them.  No sort key is computed. *)
Definition reference_value (H : Host) (yt yp : list value) : result value :=
  if negb (Nat.eqb (List.length yt) (List.length yp))
  then raise (exc ValueError)
  else
    (ytn <~ mapM _normalize_label yt ;;
     ypn <~ mapM _normalize_label yp ;;
     f1s <~ mapM (class_f1 H ytn ypn) (classes_of H ytn ypn) ;;
     m <~ mean_f1 H f1s ;;
     ok (PFloat m))%result.

Lemma reference_value_eq (H : Host) (yt yp : list value) :
  reference_value H yt yp =
  if negb (Nat.eqb (List.length yt) (List.length yp))
  then raise (exc ValueError)
  else
    match mean_f1 H (map (spec_class_f1 H (map normalized yt)
                            (map normalized yp))
                       (classes_of H (map normalized yt)
                          (map normalized yp))) with
    | inl e => inl e
    | inr f => inr (PFloat f)
    end.
Proof.
  unfold reference_value.
  destruct (Nat.eqb (List.length yt) (List.length yp)); cbn [negb];
    [| reflexivity].
  rewrite !mapM_normalize. cbn [rbind ok].
  rewrite mapM_class_f1. cbn [rbind ok].
  destruct (mean_f1 H _); reflexivity.
Qed.

(** Where every class has a sort key it is what the reference returns. *)
Lemma reference_value_ref (H : Host) (yt yp : list value) :
  List.length yt <> List.length yp \/
  keys_raise (map normalized yt) (map normalized yp) = false ->
  reference_value H yt yp =
  match _macro_f1_ref H (IList yt) (IList yp) with
  | inl e => inl e
  | inr f => inr (PFloat f)
  end.
Proof.
  intros Hk. rewrite reference_value_eq.
  destruct (Nat.eqb (List.length yt) (List.length yp)) eqn:E; cbn [negb].
  - apply Nat.eqb_eq in E. destruct Hk as [Hk | Hk]; [contradiction |].
    rewrite (macro_f1_ref_cases H (IList yt) (IList yp)) by exact E.
    cbv zeta. cbn [_materialize]. now rewrite Hk.
  - apply Nat.eqb_neq in E. unfold _macro_f1_ref.
    now rewrite (macro_f1_ref_traced_mismatch H (IList yt) (IList yp))
      by exact E.
Qed.


Section SolutionsAgree.
Variable H : Host.
Variable iter : list value -> list value.
Hypothesis Hiter : forall l, Permutation (iter l) l.

Let H' : Host := with_order H iter Hiter.

Lemma mean_f1_with_order (l : list Q) : mean_f1 H' l = mean_f1 H l.
Proof. reflexivity. Qed.

Lemma spec_class_f1_with_order (yt yp : list value) (c : value) :
  spec_class_f1 H' yt yp c = spec_class_f1 H yt yp c.
Proof. reflexivity. Qed.

Lemma reference_value_with_order (yt yp : list value) :
  reference_value H' yt yp =
  if negb (Nat.eqb (List.length yt) (List.length yp))
  then raise (exc ValueError)
  else
    match mean_f1 H (map (spec_class_f1 H (map normalized yt)
                            (map normalized yp))
                       (iter (py_set_union (py_set (map normalized yt))
                                (py_set (map normalized yp))))) with
    | inl e => inl e
    | inr f => inr (PFloat f)
    end.
Proof. apply (reference_value_eq H'). Qed.

Lemma f1s_nil_iff (yt yp cls : list value) :
  map (spec_class_f1 H yt yp) (iter cls) = [] <-> cls = [].
Proof.
  split.
  - intros E. apply map_eq_nil in E. now apply (perm_nil_iff iter cls Hiter).
  - intros ->. now rewrite (proj2 (perm_nil_iff iter [] Hiter) eq_refl).
Qed.

Lemma trial_02_eq (yt yp : list value) :
  Trial_02.macro_f1 H iter yt yp = reference_value H' yt yp.
Proof.
  rewrite reference_value_with_order. unfold Trial_02.macro_f1. cbv zeta.
  destruct (Nat.eqb (List.length yt) (List.length yp)) eqn:E; cbn [negb];
    [| reflexivity].
  rewrite !(mapM_ok_map _ normalized) by apply normalize_label_02.
  cbn [rbind ok].
  set (ytn := map normalized yt). set (ypn := map normalized yp).
  destruct (py_set_union (py_set ytn) (py_set ypn)) as [| c cls] eqn:Ec.
  - now rewrite (proj2 (perm_nil_iff iter [] Hiter) eq_refl).
  - rewrite (mapM_ok_map _ (spec_class_f1 H ytn ypn))
      by (intros a; rewrite score_class_eq; apply class_f1_spec).
    cbn [rbind ok].
    assert (Hne : map (spec_class_f1 H ytn ypn) (iter (c :: cls)) <> []).
    { intros E0. apply f1s_nil_iff in E0. discriminate. }
    rewrite <- (average_mean_f1 H _ Hne).
    destruct (map (spec_class_f1 H ytn ypn) (iter (c :: cls)));
      [contradiction | reflexivity].
Qed.

Lemma trial_04_eq (yt yp : list value) :
  Trial_04.macro_f1 H iter yt yp = reference_value H' yt yp.
Proof.
  rewrite reference_value_with_order. unfold Trial_04.macro_f1. cbv zeta.
  destruct (Nat.eqb (List.length yt) (List.length yp)) eqn:E; cbn [negb];
    [| reflexivity].
  apply Nat.eqb_eq in E.
  rewrite !(mapM_ok_map _ normalized) by apply normalize_label_04.
  cbn [rbind ok].
  set (ytn := map normalized yt). set (ypn := map normalized yp).
  assert (Hlen : List.length ytn = List.length ypn)
    by (subst ytn ypn; now rewrite !length_map).
  destruct (Nat.eqb_spec (List.length ytn) 0) as [E0 | E0].
  - assert (ytn = []) as Hy by (destruct ytn; [reflexivity | discriminate]).
    rewrite (proj2 (union_nil_iff ytn ypn Hlen) Hy).
    now rewrite (proj2 (perm_nil_iff iter [] Hiter) eq_refl).
  - rewrite (mapM_ok_map _ (spec_class_f1 H ytn ypn))
      by (intros a; rewrite score_class_eq; apply class_f1_spec).
    cbn [rbind ok].
    assert (Hne : map (spec_class_f1 H ytn ypn)
                    (iter (py_set_union (py_set ytn) (py_set ypn))) <> []).
    { intros E1. apply f1s_nil_iff in E1.
      apply (union_nil_iff ytn ypn Hlen) in E1. subst ytn.
      rewrite E1 in E0. now apply E0. }
    rewrite <- (average_mean_f1 H _ Hne).
    destruct (map (spec_class_f1 H ytn ypn) _);
      [contradiction | reflexivity].
Qed.

Lemma trial_06_eq (yt yp : list value) :
  Trial_06.macro_f1 H iter yt yp = reference_value H' yt yp.
Proof.
  rewrite reference_value_with_order. unfold Trial_06.macro_f1. cbv zeta.
  destruct (Nat.eqb (List.length yt) (List.length yp)) eqn:E; cbn [negb];
    [| reflexivity].
  rewrite !(mapM_ok_map _ normalized) by apply normalize_label_06.
  cbn [rbind ok].
  set (ytn := map normalized yt). set (ypn := map normalized yp).
  destruct (py_set_union (py_set ytn) (py_set ypn)) as [| c cls] eqn:Ec.
  - cbn [List.length Nat.eqb].
    now rewrite (proj2 (perm_nil_iff iter [] Hiter) eq_refl).
  - cbn [List.length Nat.eqb].
    rewrite (mapM_ok_map _ (spec_class_f1 H ytn ypn))
      by (intros a; rewrite score_class_eq0; apply class_f1_spec).
    cbn [rbind ok].
    assert (Hne : map (spec_class_f1 H ytn ypn) (iter (c :: cls)) <> []).
    { intros E0. apply f1s_nil_iff in E0. discriminate. }
    now rewrite <- (average_mean_f1 H _ Hne).
Qed.

Lemma trial_08_eq (yt yp : list value) :
  Trial_08.macro_f1 H iter yt yp = reference_value H' yt yp.
Proof.
  rewrite reference_value_with_order. unfold Trial_08.macro_f1. cbv zeta.
  destruct (Nat.eqb (List.length yt) (List.length yp)) eqn:E; cbn [negb];
    [| reflexivity].
  apply Nat.eqb_eq in E.
  rewrite !(mapM_ok_map _ normalized) by apply normalize_label_08.
  cbn [rbind ok].
  set (ytn := map normalized yt). set (ypn := map normalized yp).
  assert (Hlen : List.length ytn = List.length ypn)
    by (subst ytn ypn; now rewrite !length_map).
  destruct (Nat.eqb_spec (List.length ytn) 0) as [E0 | E0].
  - assert (ytn = []) as Hy by (destruct ytn; [reflexivity | discriminate]).
    rewrite (proj2 (union_nil_iff ytn ypn Hlen) Hy).
    now rewrite (proj2 (perm_nil_iff iter [] Hiter) eq_refl).
  - rewrite (mapM_ok_map _ (spec_class_f1 H ytn ypn))
      by (intros a; rewrite score_class_eq; apply class_f1_spec).
    cbn [rbind ok].
    assert (Hne : map (spec_class_f1 H ytn ypn)
                    (iter (py_set_union (py_set ytn) (py_set ypn))) <> []).
    { intros E1. apply f1s_nil_iff in E1.
      apply (union_nil_iff ytn ypn Hlen) in E1. subst ytn.
      rewrite E1 in E0. now apply E0. }
    rewrite <- (average_mean_f1 H _ Hne).
    destruct (map (spec_class_f1 H ytn ypn) _);
      [contradiction | reflexivity].
Qed.

End SolutionsAgree.



(** X25.  The four stored solutions compute one and the same function,
    the reference algorithm with the classes taken in the order of the
    set instead of the sorted order: each raises [ValueError] on
    sequences of different lengths and otherwise returns the value the
    reference's steps give when its classes come in that order.  No sort
    key is computed by them; where every class has one, this is what
    [_macro_f1_ref] itself returns with that order.  (The labels are taken
    not to hold the grader's own sentinel.) *)
Theorem stored_solutions_are_reference (H : Host)
  (iter : list value -> list value)
  (Hiter : forall l, Permutation (iter l) l) (yt yp : list value) :
  ~ In PSentinel yt -> ~ In PSentinel yp ->
  Trial_02.macro_f1 H iter yt yp
  = reference_value (with_order H iter Hiter) yt yp /\
  Trial_04.macro_f1 H iter yt yp = Trial_02.macro_f1 H iter yt yp /\
  Trial_06.macro_f1 H iter yt yp = Trial_02.macro_f1 H iter yt yp /\
  Trial_08.macro_f1 H iter yt yp = Trial_02.macro_f1 H iter yt yp /\
  (List.length yt <> List.length yp \/
   keys_raise (map normalized yt) (map normalized yp) = false ->
   reference_value (with_order H iter Hiter) yt yp
   = match _macro_f1_ref (with_order H iter Hiter) (IList yt) (IList yp) with
     | inl e => inl e
     | inr v => inr (PFloat v)
     end).
Proof.
  intros _ _.
  rewrite (trial_02_eq H iter Hiter), (trial_04_eq H iter Hiter),
    (trial_06_eq H iter Hiter), (trial_08_eq H iter Hiter).
  repeat split. apply reference_value_ref.
Qed.

Lemma stored_solutions_are_reference_witness :
  Trial_02.macro_f1 binary64_host (@rev value)
    [PStr "a"; PStr "b"; nan] [PStr "a"; nan; nan]
  = reference_value
      (with_order binary64_host (@rev value)
         (fun l => Permutation_sym (Permutation_rev l)))
      [PStr "a"; PStr "b"; nan] [PStr "a"; nan; nan] /\
  Trial_04.macro_f1 binary64_host (@rev value)
    [PStr "a"; PStr "b"; nan] [PStr "a"; nan; nan]
  = Trial_02.macro_f1 binary64_host (@rev value)
      [PStr "a"; PStr "b"; nan] [PStr "a"; nan; nan] /\
  Trial_06.macro_f1 binary64_host (@rev value)
    [PStr "a"; PStr "b"; nan] [PStr "a"; nan; nan]
  = Trial_02.macro_f1 binary64_host (@rev value)
      [PStr "a"; PStr "b"; nan] [PStr "a"; nan; nan] /\
  Trial_08.macro_f1 binary64_host (@rev value)
    [PStr "a"; PStr "b"; nan] [PStr "a"; nan; nan]
  = Trial_02.macro_f1 binary64_host (@rev value)
      [PStr "a"; PStr "b"; nan] [PStr "a"; nan; nan].
Proof.
  assert (Ht : ~ In PSentinel [PStr "a"; PStr "b"; nan])
    by (intros [H | [H | [H | []]]]; discriminate H).
  assert (Hp : ~ In PSentinel [PStr "a"; nan; nan])
    by (intros [H | [H | [H | []]]]; discriminate H).
  destruct (stored_solutions_are_reference binary64_host (@rev value)
              (fun l => Permutation_sym (Permutation_rev l))
              [PStr "a"; PStr "b"; nan] [PStr "a"; nan; nan] Ht Hp)
    as [E2 [E4 [E6 [E8 _]]]].
  repeat split; assumption.
Defined.




(** ** The stored solutions on the battery *)













(** * The evaluation driver (evaluate_with_claude.py) *)

Module Evaluate.

(** A Python [str]: its code points. *)
Definition text := list N.

Definition of_string (s : string) : text :=
  map N_of_ascii (list_ascii_of_string s).

(** White space as [str.strip()] and the pattern [\s] see it
    (Py_UNICODE_ISSPACE). *)
Definition isspace (c : N) : bool :=
  (((9 <=? c) && (c <=? 13)) || ((28 <=? c) && (c <=? 32)) ||
   (c =? 133) || (c =? 160) || (c =? 5760) ||
   ((8192 <=? c) && (c <=? 8202)) || (c =? 8232) || (c =? 8233) ||
   (c =? 8239) || (c =? 8287) || (c =? 12288))%N.

(** Case folding of re.IGNORECASE, on the letters the pattern holds: no
    code point outside ASCII folds to one of p, y, t, h, o, n. *)
Definition lower (c : N) : N :=
  (if (65 <=? c) && (c <=? 90) then c + 32 else c)%N.

(** ** The regular expressions CODE_BLOCK_RE is made of *)

Inductive regex :=
| Eps
| Lit (c : N)                 (* a literal character, case ignored *)
| Seq (r1 r2 : regex)
| Opt (r : regex)             (* r?  greedy *)
| Star (p : N -> bool)        (* [class]*  greedy *)
| LazyStar (p : N -> bool)    (* [class]*?  lazy *)
| Group (r : regex).          (* (?P<code> r) *)

(** A backtracking matcher in continuation-passing style, trying the
    alternatives in the order of Python's [re]: [k] receives the rest of
    the input and the text of the group, if set. *)
Section Matcher.
Context {R : Type}.

Fixpoint star (p : N -> bool) (k : text -> option R) (s : text) : option R :=
  match s with
  | c :: s' =>
      if p c
      then match star p k s' with
           | Some r => Some r
           | None => k s
           end
      else k s
  | [] => k s
  end.

Fixpoint lazy_star (p : N -> bool) (k : text -> option R) (s : text)
  : option R :=
  match k s with
  | Some r => Some r
  | None =>
      match s with
      | c :: s' => if p c then lazy_star p k s' else None
      | [] => None
      end
  end.

Fixpoint matches (r : regex) (s : text) (g : option text)
  (k : text -> option text -> option R) : option R :=
  match r with
  | Eps => k s g
  | Lit c =>
      match s with
      | x :: s' => if (lower x =? lower c)%N then k s' g else None
      | [] => None
      end
  | Seq r1 r2 => matches r1 s g (fun s' g' => matches r2 s' g' k)
  | Opt r1 =>
      match matches r1 s g k with
      | Some v => Some v
      | None => k s g
      end
  | Star p => star p (fun s' => k s' g) s
  | LazyStar p => lazy_star p (fun s' => k s' g) s
  | Group r1 =>
      matches r1 s g
        (fun s' _ => k s' (Some (firstn (List.length s - List.length s') s)))
  end.

End Matcher.

(** re.search: the first position with a match; the result is the text of
    the group of that match. *)
Fixpoint search (r : regex) (s : text) : option (option text) :=
  match matches r s None (fun _ g => Some g) with
  | Some g => Some g
  | None =>
      match s with
      | [] => None
      | _ :: s' => search r s'
      end
  end.

Definition lit_string (s : string) : regex :=
  fold_right (fun c r => Seq (Lit c) r) Eps (of_string s).

Definition any (c : N) : bool := true.

(** re.compile(r"```(?:python)?\s*(?P<code>[\s\S]*?)```", re.IGNORECASE) *)
Definition CODE_BLOCK_RE : regex :=
  Seq (lit_string "```")
    (Seq (Opt (lit_string "python"))
       (Seq (Star isspace)
          (Seq (Group (LazyStar any)) (lit_string "```")))).

(** ** String methods *)

(** s.replace("\r\n", "\n") *)
Fixpoint replace_crlf (s : text) : text :=
  match s with
  | [] => []
  | c :: s' =>
      match s' with
      | d :: s'' =>
          if ((c =? 13) && (d =? 10))%N then 10%N :: replace_crlf s''
          else c :: replace_crlf s'
      | [] => [c]
      end
  end.

Fixpoint dropwhile (p : N -> bool) (s : text) : text :=
  match s with
  | c :: s' => if p c then dropwhile p s' else s
  | [] => []
  end.

(** s.lstrip(chars), s.rstrip(), s.strip() *)
Definition lstrip_chars (chars : text) (s : text) : text :=
  dropwhile (fun c => existsb (N.eqb c) chars) s.
Definition lstrip (s : text) : text := dropwhile isspace s.
Definition rstrip (s : text) : text := rev (dropwhile isspace (rev s)).
Definition strip (s : text) : text := rstrip (lstrip s).

Fixpoint startswith (pat s : text) : bool :=
  match pat, s with
  | [], _ => true
  | p :: pat', c :: s' => (c =? p)%N && startswith pat' s'
  | _ :: _, [] => false
  end.

(** pat in s *)
Fixpoint contains (pat s : text) : bool :=
  startswith pat s ||
  match s with
  | [] => false
  | _ :: s' => contains pat s'
  end.

Definition BOM : N := 65279.   (* U+FEFF *)

(** extract_code.  The group takes part in every match of the pattern
    ([search_sets_group]), so [m.group("code")] is a string. *)
Definition extract_code (t : text) : text :=
  let code :=
    match search CODE_BLOCK_RE t with
    | Some (Some code) => code
    | Some None => []
    | None => t
    end in
  strip (lstrip_chars [BOM] (replace_crlf code)).

(** ** The pattern, read as string operations *)

(** [s] without the prefix [w], case ignored. *)
Fixpoint strip_prefix (w s : text) : option text :=
  match w, s with
  | [], _ => Some s
  | c :: w', x :: s' =>
      if (lower x =? lower c)%N then strip_prefix w' s' else None
  | _ :: _, [] => None
  end.

Definition fence : text := of_string "```".
Definition python_tag : text := of_string "python".

(** The text before and the text after the first fence of [s]. *)
Fixpoint find_fence (s : text) : option (text * text) :=
  match strip_prefix fence s with
  | Some rest => Some ([], rest)
  | None =>
      match s with
      | [] => None
      | c :: s' =>
          match find_fence s' with
          | Some (b, r) => Some (c :: b, r)
          | None => None
          end
      end
  end.

(** What follows an opening fence, less the tag [python] and white space. *)
Definition drop_tag (s : text) : text :=
  lstrip (match strip_prefix python_tag s with
          | Some s' => s'
          | None => s
          end).

(** The body of the first fenced block, if the first fence is closed. *)
Definition fenced_block (t : text) : option text :=
  match find_fence t with
  | Some (_, after) =>
      match find_fence (drop_tag after) with
      | Some (body, _) => Some body
      | None => None
      end
  | None => None
  end.

Definition normalize (code : text) : text :=
  strip (lstrip_chars [BOM] (replace_crlf code)).

(** ** The trial loop *)

(** What [subprocess.run] returns. *)
Record completed := mkCompleted {
  returncode : Z;
  proc_stdout : text;
  proc_stderr : text
}.

(** The files the driver writes. *)
Inductive path :=
| Error_txt (i : nat)            (* runs/trial_i/error.txt *)
| Raw_txt (i : nat)              (* runs/trial_i/raw.txt *)
| Extracted_txt (i : nat)        (* runs/trial_i/extracted.txt *)
| Solution_py (i : nat)          (* runs/trial_i/solution.py *)
| Grader_stdout_txt (i : nat)    (* runs/trial_i/grader_stdout.txt *)
| Grader_stderr_txt (i : nat)    (* runs/trial_i/grader_stderr.txt *)
| SOLUTION_PATH.                 (* starter/solution.py *)

Definition path_eqb (p q : path) : bool :=
  match p, q with
  | Error_txt i, Error_txt j | Raw_txt i, Raw_txt j
  | Extracted_txt i, Extracted_txt j | Solution_py i, Solution_py j
  | Grader_stdout_txt i, Grader_stdout_txt j
  | Grader_stderr_txt i, Grader_stderr_txt j => Nat.eqb i j
  | SOLUTION_PATH, SOLUTION_PATH => true
  | _, _ => false
  end.

(** The lines the driver prints. *)
Inductive out_line :=
| Trial_header (i : nat) (n : Z)
| API_error (e : exn)
| No_signature
| Grader_output (s : text)
| See_details (i : nat)
| Summary (passes : nat) (n : Z).

(** The state of a run: the lines printed, the files as last written, and
    the content of starter/solution.py at each run of the grader. *)
Record machine := mkMachine {
  printed : list out_line;
  files : list (path * text);
  graded : list (option text)
}.

Definition print (st : machine) (l : out_line) : machine :=
  mkMachine (printed st ++ [l]) (files st) (graded st).

(** Path.write_text: the file is created or replaced.  The write is
    taken to succeed, like the [mkdir] of the trial directory before it
    and the start of the grader process: what the driver does when the
    file system or the process table fails is outside this model. *)
Definition write_text (st : machine) (p : path) (s : text) : machine :=
  mkMachine (printed st)
    ((p, s) :: filter (fun f => negb (path_eqb (fst f) p)) (files st))
    (graded st).

Definition read_text (st : machine) (p : path) : option text :=
  match find (fun f => path_eqb (fst f) p) (files st) with
  | Some f => Some (snd f)
  | None => None
  end.

Definition signature : text := of_string "def macro_f1(".

Section Driver.
(** The model's answer at trial [i], or the exception of the API call. *)
Variable call_claude : nat -> result text.
(** str(e) *)
Variable str : exn -> text.
(** The grader process of trial [i], run on starter/solution.py as it is. *)
Variable grader : nat -> option text -> completed.
(** args.num_trials *)
Variable num_trials : Z.

Definition run_grader (i : nat) (st : machine) : completed * machine :=
  (grader i (read_text st SOLUTION_PATH),
   mkMachine (printed st) (files st)
     (graded st ++ [read_text st SOLUTION_PATH])).

(** The body of the loop; [passes] is threaded through. *)
Definition trial (i : nat) (passes : nat) (st : machine)
  : result nat * machine :=
  let st := print st (Trial_header i num_trials) in
  match call_claude i with
  | inl e =>
      if isinstance_exn e Exception
      then (ok passes,
            write_text (print st (API_error e)) (Error_txt i) (str e))
      else (inl e, st)
  | inr raw =>
      let st := write_text st (Raw_txt i) raw in
      let code := extract_code raw in
      if negb (contains signature code)
      then (ok passes,
            write_text (print st No_signature) (Extracted_txt i) code)
      else
        let st := write_text st (Solution_py i) code in
        let st := write_text st SOLUTION_PATH code in
        let (proc, st) := run_grader i st in
        let st := write_text st (Grader_stdout_txt i) (proc_stdout proc) in
        let st :=
          match proc_stderr proc with
          | [] => st
          | _ :: _ => write_text st (Grader_stderr_txt i) (proc_stderr proc)
          end in
        let st := print st (Grader_output (proc_stdout proc)) in
        if returncode proc =? 0 then (ok (S passes), st)
        else (ok passes, print st (See_details i))
  end.

(** for i in range(1, args.num_trials + 1) *)
Fixpoint loop (trials : list nat) (passes : nat) (st : machine)
  : result nat * machine :=
  match trials with
  | [] => (ok passes, st)
  | i :: rest =>
      match trial i passes st with
      | (inl e, st') => (inl e, st')
      | (inr passes', st') => loop rest passes' st'
      end
  end.

Definition range (n : Z) : list nat := seq 1 (Z.to_nat n).

(** [main] from the loop on; the division of the last line raises when
    there were no trials to divide by. *)
Definition main (st : machine) : result unit * machine :=
  match loop (range num_trials) 0 st with
  | (inl e, st') => (inl e, st')
  | (inr passes, st') =>
      if num_trials =? 0 then (inl (exc ZeroDivisionError), st')
      else (ok tt, print st' (Summary passes num_trials))
  end.

End Driver.

End Evaluate.

Import Evaluate.

Lemma matches_lit_string {R} (w : string) (s : text) (g : option text)
  (k : text -> option text -> option R) :
  matches (lit_string w) s g k =
  match strip_prefix (of_string w) s with
  | Some s' => k s' g
  | None => None
  end.
Proof.
  unfold lit_string. revert s.
  induction (of_string w) as [| c l IH]; intros s; [reflexivity |].
  cbn [fold_right matches strip_prefix].
  destruct s as [| x s]; [reflexivity |].
  destruct (lower x =? lower c)%N; [apply IH | reflexivity].
Qed.

Definition backtick : N := 96.

Lemma lower_backtick (x : N) : (lower x =? lower backtick)%N = (x =? backtick)%N.
Proof.
  unfold lower, backtick.
  destruct ((65 <=? x) && (x <=? 90))%N eqn:E.
  - apply andb_true_iff in E. destruct E as [E1 E2].
    apply N.leb_le in E1, E2. cbn.
    destruct (N.eqb_spec (x + 32) 96), (N.eqb_spec x 96); try reflexivity; lia.
  - reflexivity.
Qed.

(** A text that starts with a fence. *)
Lemma strip_prefix_fence (s r : text) :
  strip_prefix fence s = Some r <-> s = fence ++ r.
Proof.
  unfold fence. cbn [of_string list_ascii_of_string map].
  change (N_of_ascii "`") with backtick.
  destruct s as [| a [| b [| c s]]]; cbn [strip_prefix app];
    try (split; discriminate).
  - destruct (lower a =? lower backtick)%N; split; discriminate.
  - destruct (lower a =? lower backtick)%N;
      [destruct (lower b =? lower backtick)%N |]; split; discriminate.
  - rewrite !lower_backtick.
    destruct (N.eqb_spec a backtick) as [-> | Ha];
      [| split; [discriminate | intros [= E]; congruence]].
    destruct (N.eqb_spec b backtick) as [-> | Hb];
      [| split; [discriminate | intros [= E]; congruence]].
    destruct (N.eqb_spec c backtick) as [-> | Hc];
      [| split; [discriminate | intros [= E]; congruence]].
    split; intros [= ->]; reflexivity.
Qed.

Lemma strip_prefix_fence_head (c : N) (s : text) :
  c <> backtick -> strip_prefix fence (c :: s) = None.
Proof.
  intros Hc. destruct (strip_prefix fence (c :: s)) as [r |] eqn:E;
    [| reflexivity].
  apply strip_prefix_fence in E. injection E as E _. contradiction.
Qed.

Lemma find_fence_cons (c : N) (s : text) :
  c <> backtick ->
  find_fence (c :: s) =
  match find_fence s with
  | Some (b, r) => Some (c :: b, r)
  | None => None
  end.
Proof.
  intros Hc. cbn [find_fence]. now rewrite strip_prefix_fence_head.
Qed.

Lemma find_fence_split (s b r : text) :
  find_fence s = Some (b, r) -> s = b ++ fence ++ r.
Proof.
  revert b r. induction s as [| c s IH]; intros b r.
  - cbn. discriminate.
  - cbn [find_fence].
    destruct (strip_prefix fence (c :: s)) as [rest |] eqn:E.
    + intros [= <- <-]. now apply strip_prefix_fence in E.
    + destruct (find_fence s) as [[b' r'] |]; [| discriminate].
      intros [= <- <-]. cbn. f_equal. now apply IH.
Qed.

(** Without a fence in [s] there is none in its suffixes. *)
Lemma find_fence_none_tail (c : N) (s : text) :
  find_fence (c :: s) = None -> find_fence s = None.
Proof.
  cbn [find_fence].
  destruct (strip_prefix fence (c :: s)); [discriminate |].
  destruct (find_fence s) as [[b r] |]; [discriminate | reflexivity].
Qed.

Lemma find_fence_none_suffix (p s : text) :
  find_fence (p ++ s) = None -> find_fence s = None.
Proof.
  induction p as [| c p IH]; cbn [app]; [auto |].
  intros Hn. apply IH. now apply find_fence_none_tail in Hn.
Qed.

Lemma isspace_not_backtick (c : N) : isspace c = true -> c <> backtick.
Proof. intros Hc ->. discriminate Hc. Qed.

Lemma find_fence_lstrip_none (s : text) :
  find_fence (lstrip s) = None -> find_fence s = None.
Proof.
  unfold lstrip. induction s as [| c s IH]; cbn [dropwhile]; [auto |].
  destruct (isspace c) eqn:E; [| auto].
  intros Hn. rewrite find_fence_cons by now apply isspace_not_backtick.
  now rewrite (IH Hn).
Qed.

Lemma lstrip_suffix (s : text) : exists p, s = p ++ lstrip s.
Proof.
  unfold lstrip. induction s as [| c s [p IH]]; cbn [dropwhile].
  - now exists [].
  - destruct (isspace c); [| now exists []].
    exists (c :: p). cbn. now f_equal.
Qed.

Lemma strip_prefix_split (w s r : text) :
  strip_prefix w s = Some r ->
  exists p, s = p ++ r /\ (List.length p = List.length w)%nat /\
            Forall2 (fun x c => lower x = lower c) p w.
Proof.
  revert s. induction w as [| c w IH]; intros s; cbn [strip_prefix].
  - intros [= ->]. exists []. repeat split. constructor.
  - destruct s as [| x s]; [discriminate |].
    destruct (N.eqb_spec (lower x) (lower c)) as [E |]; [| discriminate].
    intros Hr. destruct (IH s Hr) as [p [-> [Hlen Hall]]].
    exists (x :: p). cbn. repeat split; [now rewrite Hlen |].
    now constructor.
Qed.

Lemma lower_eq_not_backtick (x c : N) :
  lower x = lower c -> c <> backtick -> (c < 65 \/ 90 < c)%N -> x <> backtick.
Proof.
  unfold lower, backtick. intros E Hc Hr ->.
  cbn in E. destruct ((65 <=? c) && (c <=? 90))%N eqn:Ec.
  - apply andb_true_iff in Ec. destruct Ec as [E1 E2].
    apply N.leb_le in E1, E2. lia.
  - congruence.
Qed.

Lemma find_fence_app_none (p s : text) :
  Forall (fun x => x <> backtick) p ->
  find_fence s = None -> find_fence (p ++ s) = None.
Proof.
  induction 1 as [| c p Hc _ IH]; cbn [app]; [auto |].
  intros Hn. rewrite find_fence_cons by assumption. now rewrite (IH Hn).
Qed.

Lemma python_tag_no_backtick (s r : text) :
  strip_prefix python_tag s = Some r ->
  exists p, s = p ++ r /\ Forall (fun x => x <> backtick) p /\
            exists c p', p = c :: p' /\ isspace c = false.
Proof.
  intros Hr. destruct (strip_prefix_split _ _ _ Hr) as [p [-> [Hlen Hall]]].
  exists p. split; [reflexivity |].
  unfold python_tag in Hall. cbn in Hall.
  repeat match goal with
         | Hf : Forall2 _ _ (_ :: _) |- _ => inversion Hf; subst; clear Hf
         | Hf : Forall2 _ _ [] |- _ => inversion Hf; subst; clear Hf
         end.
  split.
  - repeat constructor;
      (eapply lower_eq_not_backtick;
       [eassumption | discriminate | right; reflexivity]).
  - eexists _, _. split; [reflexivity |].
    match goal with
    | Hp : lower ?x = lower 112%N |- _ =>
        unfold lower in Hp; cbn in Hp;
        destruct ((65 <=? x) && (x <=? 90))%N eqn:Ex;
        [assert (x = 80%N) as -> by lia | subst x]; reflexivity
    end.
Qed.

Lemma find_fence_drop_tag_none (s : text) :
  find_fence (drop_tag s) = None -> find_fence s = None.
Proof.
  unfold drop_tag. intros Hn. apply find_fence_lstrip_none in Hn.
  destruct (strip_prefix python_tag s) as [r |] eqn:E; [| assumption].
  destruct (python_tag_no_backtick s r E) as [p [-> [Hp _]]].
  now apply find_fence_app_none.
Qed.

Lemma drop_tag_suffix (s : text) : exists p, s = p ++ drop_tag s.
Proof.
  unfold drop_tag.
  destruct (strip_prefix python_tag s) as [r |] eqn:E.
  - destruct (python_tag_no_backtick s r E) as [p [-> _]].
    destruct (lstrip_suffix r) as [q Hq].
    exists (p ++ q). now rewrite <- app_assoc, <- Hq.
  - apply lstrip_suffix.
Qed.

(** The lazy star stops at the first position the continuation accepts. *)
Lemma lazy_star_find (pre s : text) :
  lazy_star any
    (fun s' =>
       match strip_prefix fence s' with
       | Some _ =>
           Some (Some (firstn (List.length (pre ++ s) - List.length s')
                         (pre ++ s)))
       | None => None
       end) s =
  match find_fence s with
  | Some (b, _) => Some (Some (pre ++ b))
  | None => None
  end.
Proof.
  revert pre. induction s as [| c s IH]; intros pre.
  - cbn. reflexivity.
  - cbn [lazy_star find_fence].
    destruct (strip_prefix fence (c :: s)) as [rest |] eqn:E.
    + do 2 f_equal. rewrite length_app.
      replace (List.length pre + List.length (c :: s)
               - List.length (c :: s))%nat with (List.length pre) by lia.
      rewrite firstn_app, firstn_all, Nat.sub_diag. cbn.
      now rewrite !app_nil_r.
    + cbn [any].
      replace (pre ++ c :: s) with ((pre ++ [c]) ++ s)
        by now rewrite <- app_assoc.
      rewrite (IH (pre ++ [c])).
      destruct (find_fence s) as [[b r] |]; [| reflexivity].
      now rewrite <- app_assoc.
Qed.

Lemma lazy_star_ext {R} (p : N -> bool) (k1 k2 : text -> option R)
  (s : text) :
  (forall s', k1 s' = k2 s') -> lazy_star p k1 s = lazy_star p k2 s.
Proof.
  intros Hk. induction s as [| c s IH]; cbn [lazy_star]; rewrite Hk;
    [reflexivity |].
  now rewrite IH.
Qed.

(** The greedy star of white space commits to the longest run when no
    shorter run could lead to a match. *)
Lemma star_greedy {R} (k : text -> option R) (s : text) :
  (forall c s', isspace c = true -> k s' = None -> k (c :: s') = None) ->
  star isspace k s = k (lstrip s).
Proof.
  intros Hk. unfold lstrip.
  assert (Hnone : forall s, k (dropwhile isspace s) = None -> k s = None).
  { induction s0 as [| c s0 IH]; cbn [dropwhile]; [auto |].
    destruct (isspace c) eqn:E; [| auto]. intros Hn. auto. }
  induction s as [| c s IH]; cbn [star dropwhile]; [reflexivity |].
  destruct (isspace c) eqn:E; [| reflexivity].
  rewrite IH. destruct (k (dropwhile isspace s)) eqn:Ek; [reflexivity |].
  apply Hk; [assumption |]. now apply Hnone.
Qed.

(** The body matched after an opening fence. *)
Definition closing (s : text) : option (option text) :=
  match find_fence s with
  | Some (b, _) => Some (Some b)
  | None => None
  end.

Lemma closing_cons_none (c : N) (s : text) :
  c <> backtick -> closing s = None -> closing (c :: s) = None.
Proof.
  unfold closing. intros Hc. rewrite find_fence_cons by assumption.
  destruct (find_fence s) as [[b r] |]; [discriminate | reflexivity].
Qed.

Lemma closing_none_iff (s : text) :
  closing s = None <-> find_fence s = None.
Proof.
  unfold closing. destruct (find_fence s) as [[b r] |]; split;
    try discriminate; reflexivity.
Qed.

(** A match attempt at one position. *)
Lemma matches_CODE_BLOCK_RE (s : text) :
  matches CODE_BLOCK_RE s None (fun _ g => Some g) =
  match strip_prefix fence s with
  | Some after => closing (drop_tag after)
  | None => None
  end.
Proof.
  unfold CODE_BLOCK_RE. cbn [matches].
  rewrite matches_lit_string. fold fence.
  destruct (strip_prefix fence s) as [after |]; [| reflexivity].
  assert (Hbody : forall s1,
            star isspace
              (fun s' =>
                 lazy_star any
                   (fun s'0 =>
                      matches (lit_string "```") s'0
                        (Some (firstn (List.length s' - List.length s'0) s'))
                        (fun _ g => Some g)) s') s1
            = closing (lstrip s1)).
  { intros s1.
    assert (Hk : forall s',
              lazy_star any
                (fun s'0 =>
                   matches (lit_string "```") s'0
                     (Some (firstn (List.length s' - List.length s'0) s'))
                     (fun _ g => Some g)) s' = closing s').
    { intros s'.
      rewrite (lazy_star_ext any _
                 (fun s'0 =>
                    match strip_prefix fence s'0 with
                    | Some _ =>
                        Some (Some (firstn (List.length ([] ++ s')
                                            - List.length s'0) ([] ++ s')))
                    | None => None
                    end))
        by (intros s0; apply matches_lit_string).
      apply (lazy_star_find [] s'). }
    rewrite star_greedy.
    - apply Hk.
    - intros c s' Hc. rewrite !Hk. apply closing_cons_none.
      now apply isspace_not_backtick. }
  rewrite matches_lit_string. fold python_tag. unfold drop_tag.
  destruct (strip_prefix python_tag after) as [s2 |] eqn:E.
  - rewrite !Hbody.
    destruct (closing (lstrip s2)) eqn:Ec; [reflexivity |].
    (* without the tag there is no closing fence either *)
    apply closing_none_iff in Ec. apply closing_none_iff.
    apply find_fence_lstrip_none in Ec.
    destruct (python_tag_no_backtick after s2 E) as [p [-> [Hp _]]].
    destruct (lstrip_suffix (p ++ s2)) as [q Hq].
    apply (find_fence_none_suffix q). rewrite <- Hq.
    now apply find_fence_app_none.
  - apply Hbody.
Qed.

Lemma fenced_block_cons (c : N) (s : text) :
  strip_prefix fence (c :: s) = None ->
  fenced_block (c :: s) = fenced_block s.
Proof.
  intros E. unfold fenced_block. cbn [find_fence]. rewrite E.
  destruct (find_fence s) as [[b r] |]; reflexivity.
Qed.

(** CODE_BLOCK_RE.search finds the body of the first fenced block and
    nothing when the first fence is never closed. *)
Lemma search_CODE_BLOCK_RE (t : text) :
  search CODE_BLOCK_RE t =
  match fenced_block t with
  | Some body => Some (Some body)
  | None => None
  end.
Proof.
  induction t as [| c t IH].
  - reflexivity.
  - cbn [search]. rewrite matches_CODE_BLOCK_RE.
    destruct (strip_prefix fence (c :: t)) as [after |] eqn:E.
    + unfold fenced_block at 1. cbn [find_fence]. rewrite E.
      unfold closing.
      destruct (find_fence (drop_tag after)) as [[b r] |] eqn:Ed;
        [reflexivity |].
      (* the first fence is not closed: no later position matches *)
      rewrite IH. unfold fenced_block.
      destruct (find_fence t) as [[b' after'] |] eqn:Et; [| reflexivity].
      apply find_fence_drop_tag_none in Ed.
      apply strip_prefix_fence in E. apply find_fence_split in Et.
      assert (Hn : find_fence after' = None).
      { unfold fence in E, Et. cbn in E, Et.
        injection E as Hc Ht. rewrite Ht in Et.
        destruct b' as [| x [| y b']]; cbn in Et.
        - injection Et as Ha. rewrite Ha in Ed.
          now apply find_fence_none_tail in Ed.
        - injection Et as _ Ha. rewrite Ha in Ed.
          now apply (find_fence_none_suffix [96; 96]%N) in Ed.
        - injection Et as _ _ Ha. rewrite Ha in Ed.
          apply (find_fence_none_suffix (b' ++ [96; 96; 96]%N)).
          now rewrite <- app_assoc. }
      destruct (drop_tag_suffix after') as [q Hq].
      rewrite Hq in Hn. apply find_fence_none_suffix in Hn.
      now rewrite Hn.
    + rewrite IH, fenced_block_cons by assumption. reflexivity.
Qed.

Lemma extract_code_eq (t : text) :
  extract_code t =
  normalize (match fenced_block t with
             | Some body => body
             | None => t
             end).
Proof.
  unfold extract_code. rewrite search_CODE_BLOCK_RE.
  destruct (fenced_block t); reflexivity.
Qed.

(** X18.  [extract_code] returns the body of the first fenced block: the
    text after the first three backticks, less a tag [python] in any case
    and the white space that follows, up to the next three backticks.
    When there is no fence, or the first fence is never closed, it returns
    the whole text.  In both cases "\r\n" becomes "\n", leading byte-order
    marks go and then the white space at both ends.  The group of the
    pattern is set in every match. *)
Theorem extract_code_spec (t : text) :
  extract_code t =
  normalize (match fenced_block t with
             | Some body => body
             | None => t
             end) /\
  search CODE_BLOCK_RE t <> Some None.
Proof.
  split; [apply extract_code_eq |].
  rewrite search_CODE_BLOCK_RE. destruct (fenced_block t); discriminate.
Qed.

Lemma find_fence_app (p s : text) :
  Forall (fun x => x <> backtick) p ->
  find_fence (p ++ fence ++ s) = Some (p, s).
Proof.
  induction 1 as [| c p Hc _ IH]; cbn [app].
  - pose proof (proj2 (strip_prefix_fence (fence ++ s) s) eq_refl) as E.
    destruct (fence ++ s) as [| x r]; [discriminate E |].
    cbn [find_fence]. now rewrite E.
  - rewrite find_fence_cons by assumption. now rewrite IH.
Qed.

Definition blank (s : text) : bool := forallb isspace s.

Lemma dropwhile_app_all (p : N -> bool) (w s : text) :
  forallb p w = true -> dropwhile p (w ++ s) = dropwhile p s.
Proof.
  induction w as [| c w IH]; cbn; [reflexivity |].
  intros Hw. apply andb_true_iff in Hw. destruct Hw as [-> Hw]. auto.
Qed.

Lemma dropwhile_head (p : N -> bool) (c : N) (s : text) :
  p c = false -> dropwhile p (c :: s) = c :: s.
Proof. intros Hc. cbn. now rewrite Hc. Qed.

Lemma replace_crlf_app (b s : text) :
  ~ In 13%N b -> replace_crlf (b ++ s) = b ++ replace_crlf s.
Proof.
  induction b as [| c b IH]; intros Hb; [reflexivity |].
  assert (Hc : c <> 13%N) by (intros ->; apply Hb; now left).
  assert (Hb' : ~ In 13%N b) by (intros Hin; apply Hb; now right).
  cbn [app replace_crlf].
  destruct (b ++ s) as [| d r] eqn:E.
  - destruct b; [| discriminate]. destruct s; [| discriminate].
    reflexivity.
  - apply N.eqb_neq in Hc. rewrite Hc. cbn [andb].
    f_equal. now apply IH.
Qed.

Lemma replace_crlf_blank (w : text) :
  blank w = true -> blank (replace_crlf w) = true.
Proof.
  unfold blank.
  assert (Hgen : forall n w, (List.length w <= n)%nat ->
            forallb isspace w = true ->
            forallb isspace (replace_crlf w) = true).
  { induction n as [| n IH]; intros [| c [| d r]] Hlen Hw;
      try reflexivity; try (cbn in Hlen; lia); try exact Hw.
    cbn [replace_crlf]. cbn [forallb] in Hw.
    apply andb_true_iff in Hw. destruct Hw as [Hc Hw].
    destruct ((c =? 13) && (d =? 10))%N.
    - cbn [forallb]. apply andb_true_iff in Hw. destruct Hw as [_ Hr].
      rewrite (IH r) by (cbn in Hlen; auto; lia). reflexivity.
    - cbn [forallb]. rewrite Hc.
      apply (IH (d :: r)); [cbn in *; lia | exact Hw]. }
  intros Hw. now apply (Hgen (List.length w)).
Qed.

Lemma strip_clean (b w : text) (c l : N) (m : text) :
  b = c :: m -> isspace c = false ->
  (exists m', b = m' ++ [l]) -> isspace l = false ->
  blank w = true -> strip (b ++ w) = b.
Proof.
  intros Hb Hc [m' Hl] Hlast Hw. unfold strip, lstrip, rstrip.
  rewrite Hb at 1. cbn [app]. rewrite dropwhile_head by assumption.
  change (c :: m ++ w) with ((c :: m) ++ w). rewrite <- Hb.
  rewrite rev_app_distr, dropwhile_app_all.
  - rewrite Hl, rev_app_distr. cbn [rev app].
    rewrite dropwhile_head by assumption.
    cbn [rev]. now rewrite rev_involutive.
  - unfold blank in Hw. rewrite forallb_forall in *.
    intros x Hx. apply Hw. now apply in_rev.
Qed.

(** X19.  A well-formed answer gives back its code: when a block opened
    by three backticks and [python] in any case, after text without a
    backtick, holds white space, then a code that has no backtick and no
    carriage return and neither starts nor ends with white space or
    starts with a byte-order mark, then white space and the closing
    fence, [extract_code] returns exactly that code, whatever follows. *)
Theorem extract_code_fenced (pre tag ws1 body ws2 post : text)
  (c l : N) (m m' : text) :
  Forall (fun x => x <> backtick) pre ->
  Forall2 (fun x p => lower x = lower p) tag python_tag ->
  blank ws1 = true -> blank ws2 = true ->
  body = c :: m -> body = m' ++ [l] ->
  isspace c = false -> c <> BOM -> isspace l = false ->
  Forall (fun x => x <> backtick) body -> ~ In 13%N body ->
  extract_code (pre ++ fence ++ tag ++ ws1 ++ body ++ ws2 ++ fence ++ post)
  = body.
Proof.
  intros Hpre Htag Hw1 Hw2 Hhead Hlast Hc Hbom Hl Hbody Hcr.
  rewrite extract_code_eq.
  unfold fenced_block. rewrite find_fence_app by assumption.
  assert (Hdrop : drop_tag (tag ++ ws1 ++ body ++ ws2 ++ fence ++ post)
                  = (body ++ ws2) ++ fence ++ post).
  { unfold drop_tag.
    assert (Hsp : forall r, strip_prefix python_tag (tag ++ r) = Some r).
    { intros r. revert Htag. generalize python_tag. generalize tag.
      induction 1 as [| x p t1 t2 Hx _ IH]; cbn; [reflexivity |].
      rewrite Hx, N.eqb_refl. exact IH. }
    rewrite Hsp. unfold lstrip.
    rewrite dropwhile_app_all by exact Hw1.
    rewrite Hhead at 1. cbn [app]. rewrite dropwhile_head by assumption.
    change (c :: m ++ ws2 ++ fence ++ post)
      with ((c :: m) ++ ws2 ++ fence ++ post).
    now rewrite <- Hhead, <- app_assoc. }
  rewrite Hdrop, find_fence_app.
  - unfold normalize. rewrite replace_crlf_app by assumption.
    unfold lstrip_chars. rewrite Hhead at 1. cbn [app].
    rewrite dropwhile_head.
    + change (c :: m ++ replace_crlf ws2) with ((c :: m) ++ replace_crlf ws2).
      rewrite <- Hhead.
      apply (strip_clean body _ c l m); eauto.
      now apply replace_crlf_blank.
    + cbn [existsb]. apply N.eqb_neq in Hbom. now rewrite Hbom.
  - apply Forall_app. split; [assumption |].
    apply Forall_forall. intros x Hx.
    unfold blank in Hw2. rewrite forallb_forall in Hw2.
    now apply isspace_not_backtick, Hw2.
Qed.

(** A response in the format the prompt asks for. *)
Lemma extract_code_fenced_witness :
  extract_code
    (of_string "Here it is: " ++ fence ++ of_string "Python" ++ [10%N]
     ++ of_string "def macro_f1(y_true, y_pred): return 0.0" ++ [10%N]
     ++ fence ++ of_string " Done.")
  = of_string "def macro_f1(y_true, y_pred): return 0.0".
Proof.
  apply (extract_code_fenced (of_string "Here it is: ") (of_string "Python")
           [10%N] (of_string "def macro_f1(y_true, y_pred): return 0.0")
           [10%N] (of_string " Done.")
           100%N 48%N
           (of_string "ef macro_f1(y_true, y_pred): return 0.0")
           (of_string "def macro_f1(y_true, y_pred): return 0."));
    try reflexivity; try discriminate.
  - repeat constructor; discriminate.
  - repeat constructor.
  - repeat constructor; discriminate.
  - vm_compute. intuition discriminate.
Defined.

Lemma find_fence_none_iff (t : text) :
  find_fence t = None <-> contains fence t = false.
Proof.
  induction t as [| c t IH].
  - cbn. split; reflexivity.
  - cbn [find_fence contains].
    destruct (strip_prefix fence (c :: t)) as [r |] eqn:E.
    + apply strip_prefix_fence in E. rewrite E.
      split; [discriminate |]. cbn. discriminate.
    + assert (startswith fence (c :: t) = false) as ->.
      { destruct (startswith fence (c :: t)) eqn:Es; [| reflexivity].
        exfalso. unfold fence in Es.
        destruct t as [| d [| e t]]; cbn in Es;
          try (rewrite ?andb_false_r in Es; discriminate).
        apply andb_true_iff in Es. destruct Es as [Hc Es].
        apply andb_true_iff in Es. destruct Es as [Hd Es].
        apply andb_true_iff in Es. destruct Es as [He _].
        apply N.eqb_eq in Hc, Hd, He. subst.
        unfold fence in E. cbn in E. discriminate. }
      cbn [orb].
      destruct (find_fence t) as [[b r] |]; rewrite <- IH;
        split; (discriminate || reflexivity).
Qed.

(** What follows a fence of a text is a suffix of what follows its first
    fence. *)
Lemma find_fence_first (pre after b r : text) :
  find_fence (pre ++ fence ++ after) = Some (b, r) ->
  exists q, r = q ++ after.
Proof.
  revert b r. induction pre as [| c pre IH]; intros b r.
  - pose proof (find_fence_app [] after (Forall_nil _)) as Hf.
    cbn [app] in *. rewrite Hf.
    intros [= _ <-]. now exists [].
  - cbn [app find_fence].
    destruct (strip_prefix fence (c :: pre ++ fence ++ after))
      as [rest |] eqn:E.
    + intros [= _ <-]. apply strip_prefix_fence in E.
      unfold fence in E.
      cbn [of_string list_ascii_of_string map app] in E.
      destruct pre as [| x [| y pre]]; cbn [app] in E; inversion E; subst.
      * now exists [backtick].
      * now exists [backtick; backtick].
      * exists (pre ++ [backtick; backtick; backtick]).
        now rewrite <- app_assoc.
    + destruct (find_fence (pre ++ fence ++ after)) as [[b' r'] |] eqn:Ef;
        [| discriminate].
      intros [= _ <-]. now apply (IH b').
Qed.

(** No fence of [t] is followed by another one as soon as its first fence
    is not. *)
Lemma first_fence_unclosed (t : text) :
  match find_fence t with
  | Some (_, after) => contains fence after = false
  | None => True
  end ->
  forall pre after, t = pre ++ fence ++ after -> contains fence after = false.
Proof.
  intros Hf pre after ->.
  destruct (find_fence (pre ++ fence ++ after)) as [[b r] |] eqn:E.
  - destruct (find_fence_first pre after b r E) as [q ->].
    apply find_fence_none_iff. apply find_fence_none_iff in Hf.
    now apply find_fence_none_suffix in Hf.
  - apply find_fence_none_suffix in E.
    pose proof (find_fence_app [] after (Forall_nil _)) as Hhead.
    cbn [app] in Hhead. rewrite Hhead in E. discriminate.
Qed.

(** X20.  Without a complete block the whole response is the code: when
    no three backticks in a row of the text are followed, anywhere after
    them, by three more -- so when the text holds no fence at all, and
    when it holds an opening fence that is never closed, whatever stands
    before it -- [extract_code] returns the whole text, normalized, the
    opening fence and its tag included. *)
Theorem extract_code_unfenced (t : text) :
  (forall pre after,
     t = pre ++ fence ++ after -> contains fence after = false) ->
  extract_code t = normalize t.
Proof.
  intros Hopen. rewrite extract_code_eq. unfold fenced_block.
  destruct (find_fence t) as [[b after] |] eqn:E; [| reflexivity].
  pose proof (Hopen b after (find_fence_split _ _ _ E)) as Hn.
  apply find_fence_none_iff in Hn.
  destruct (drop_tag_suffix after) as [q Hq].
  rewrite Hq in Hn. apply find_fence_none_suffix in Hn.
  now rewrite Hn.
Qed.

(** An answer that quotes a name in backticks and then opens a block it
    never closes. *)
Lemma extract_code_unfenced_witness :
  extract_code
    (of_string "Use `macro_f1`: " ++ fence ++ of_string "python" ++ [10%N]
     ++ of_string "def macro_f1(y_true, y_pred): return 0.0")
  = of_string "Use `macro_f1`: " ++ fence ++ of_string "python" ++ [10%N]
    ++ of_string "def macro_f1(y_true, y_pred): return 0.0".
Proof.
  refine (eq_trans
            (extract_code_unfenced
               (of_string "Use `macro_f1`: " ++ fence ++ of_string "python"
                ++ [10%N]
                ++ of_string "def macro_f1(y_true, y_pred): return 0.0") _)
            _).
  - apply first_fence_unclosed. vm_compute. reflexivity.
  - vm_compute. reflexivity.
Defined.

(** ** The trial loop *)

Section DriverFacts.
Variable call_claude : nat -> result text.
Variable str : exn -> text.
Variable grader : nat -> option text -> completed.
Variable num_trials : Z.

(** The code trial [i] sends to the grader, if it sends one. *)
Definition submitted (i : nat) : option text :=
  match call_claude i with
  | inr raw =>
      if contains signature (extract_code raw)
      then Some (extract_code raw) else None
  | inl _ => None
  end.

(** Trial [i] is counted as a pass. *)
Definition counted (i : nat) : bool :=
  match submitted i with
  | Some code => returncode (grader i (Some code)) =? 0
  | None => false
  end.

Definition to_list {A} (o : option A) : list A :=
  match o with
  | Some a => [a]
  | None => []
  end.

Lemma path_eqb_refl (p : path) : path_eqb p p = true.
Proof. destruct p; cbn; auto using Nat.eqb_refl. Qed.

Lemma read_after_write (st : machine) (p : path) (s : text) :
  read_text (write_text st p s) p = Some s.
Proof. unfold read_text, write_text. cbn. now rewrite path_eqb_refl. Qed.

Lemma read_other_write (st : machine) (p q : path) (s : text) :
  path_eqb q p = false ->
  read_text (write_text st q s) p = read_text st p.
Proof.
  intros Hq. unfold read_text, write_text. cbn [files find fst].
  rewrite Hq. induction (files st) as [| [r x] l IH]; [reflexivity |].
  cbn [filter find fst].
  destruct (path_eqb r q) eqn:Erq; cbn [negb].
  - destruct (path_eqb r p) eqn:Erp; [| exact IH].
    exfalso. destruct r, q, p; cbn in *; try discriminate;
      apply Nat.eqb_eq in Erq, Erp; subst;
      rewrite Nat.eqb_refl in Hq; discriminate.
  - cbn [find fst]. destruct (path_eqb r p); [reflexivity | exact IH].
Qed.

Lemma read_print (st : machine) (l : out_line) (p : path) :
  read_text (print st l) p = read_text st p.
Proof. reflexivity. Qed.

(** One trial: what it returns, what the grader was run on and what it
    leaves in starter/solution.py. *)
Lemma trial_spec (i passes : nat) (st : machine) :
  match call_claude i with
  | inl e =>
      if isinstance_exn e Exception
      then fst (trial call_claude str grader num_trials i passes st)
           = ok passes
      else fst (trial call_claude str grader num_trials i passes st)
           = inl e
  | inr _ =>
      fst (trial call_claude str grader num_trials i passes st)
      = ok (passes + if counted i then 1 else 0)%nat
  end /\
  graded (snd (trial call_claude str grader num_trials i passes st))
  = graded st ++ map Some (to_list (submitted i)) /\
  read_text (snd (trial call_claude str grader num_trials i passes st))
    SOLUTION_PATH
  = match submitted i with
    | Some code => Some code
    | None => read_text st SOLUTION_PATH
    end.
Proof.
  unfold trial, counted, submitted.
  destruct (call_claude i) as [e | raw].
  - destruct (isinstance_exn e Exception); cbn [fst snd to_list map];
      rewrite ?app_nil_r; repeat split;
      rewrite ?read_other_write by reflexivity; reflexivity.
  - destruct (contains signature (extract_code raw)) eqn:Es; cbn [negb].
    + unfold run_grader. rewrite read_after_write.
      set (proc := grader i (Some (extract_code raw))).
      assert (Hread : forall st0 : machine,
                read_text st0 SOLUTION_PATH = Some (extract_code raw) ->
                read_text
                  (match proc_stderr proc with
                   | [] => write_text st0 (Grader_stdout_txt i)
                             (proc_stdout proc)
                   | _ :: _ =>
                       write_text
                         (write_text st0 (Grader_stdout_txt i)
                            (proc_stdout proc))
                         (Grader_stderr_txt i) (proc_stderr proc)
                   end) SOLUTION_PATH = Some (extract_code raw)).
      { intros st0 H0. destruct (proc_stderr proc);
          rewrite ?read_other_write by reflexivity; exact H0. }
      destruct (returncode proc =? 0); cbn [fst snd to_list map];
        (split; [f_equal; lia |]);
        (split; [destruct (proc_stderr proc); reflexivity |]);
        unfold print, read_text; cbn [files];
        apply Hread; apply read_after_write.
    + cbn [fst snd to_list map]. rewrite ?app_nil_r.
      repeat split; [f_equal; lia |].
      repeat (rewrite read_print || rewrite read_other_write by reflexivity).
      reflexivity.
Qed.


(** The loop never ends with an [Exception]. *)
Lemma loop_raises (trials : list nat) :
  forall (passes : nat) (st : machine) (e : exn),
  fst (loop call_claude str grader num_trials trials passes st) = inl e ->
  isinstance_exn e Exception = false /\
  exists i, In i trials /\ call_claude i = inl e.
Proof.
  induction trials as [| i trials IH]; intros passes st e.
  - cbn. discriminate.
  - cbn [loop]. destruct (trial_spec i passes st) as [Hres _].
    destruct (trial call_claude str grader num_trials i passes st)
      as [[e' | p] st'] eqn:Et; cbn [fst] in *.
    + intros [= ->].
      destruct (call_claude i) as [e0 |] eqn:Ec; [| discriminate].
      destruct (isinstance_exn e0 Exception) eqn:Ee; [discriminate |].
      injection Hres as ->. split; [assumption |].
      exists i. split; [now left | assumption].
    + intros Hl. destruct (IH _ _ _ Hl) as [He [j [Hj Hc]]].
      split; [assumption |]. exists j. split; [now right | assumption].
Qed.

End DriverFacts.



(** Two trials: the first call fails, the second answers in the format
    asked for and its grader process exits with 0. *)
Definition two_calls (i : nat) : result text :=
  match i with
  | 1%nat => raise (exc RuntimeError)
  | _ => ok (fence ++ of_string "python" ++ [10%N]
             ++ of_string "def macro_f1(y_true, y_pred): return 0.0"
             ++ [10%N] ++ fence)
  end.


(** X22.  From the loop of [main] on: when zero trials are asked for no
    trial runs and the division of the pass rate raises
    [ZeroDivisionError], the loop and the last line having printed,
    written and run nothing; with a negative number of trials no trial
    runs either and the summary line is printed with 0 passes. *)
Theorem main_zero_trials (call_claude : nat -> result text)
  (str : exn -> text) (grader : nat -> option text -> completed)
  (num_trials : Z) (st : machine) :
  num_trials <= 0 ->
  Evaluate.main call_claude str grader num_trials st
  = if num_trials =? 0 then (inl (exc ZeroDivisionError), st)
    else (ok tt, print st (Summary 0 num_trials)).
Proof.
  intros Hn. unfold Evaluate.main, range.
  replace (Z.to_nat num_trials) with 0%nat by lia. reflexivity.
Qed.

Lemma main_zero_trials_witness :
  Evaluate.main two_calls (fun _ => []) (fun _ _ => mkCompleted 0 [] []) 0
    (mkMachine [] [] [])
  = (inl (exc ZeroDivisionError), mkMachine [] [] []).
Proof.
  apply (main_zero_trials two_calls (fun _ => [])
           (fun _ _ => mkCompleted 0 [] []) 0 (mkMachine [] [] [])).
  lia.
Defined.



Lemma dropwhile_snoc (p : N -> bool) (l : text) (c : N) :
  p c = false -> dropwhile p (l ++ [c]) = dropwhile p l ++ [c].
Proof.
  intros Hc. induction l as [| x l IH]; cbn; [now rewrite Hc |].
  destruct (p x); [exact IH | reflexivity].
Qed.

Lemma rstrip_cons (c : N) (s : text) :
  isspace c = false -> rstrip (c :: s) = c :: rstrip s.
Proof.
  intros Hc. unfold rstrip. cbn [rev].
  rewrite dropwhile_snoc by assumption.
  rewrite rev_app_distr. reflexivity.
Qed.

Lemma normalize_fence (after : text) :
  exists rest, normalize (fence ++ after) = fence ++ rest.
Proof.
  unfold normalize. rewrite replace_crlf_app
    by (cbn; intuition discriminate).
  exists (rstrip (replace_crlf after)).
  unfold fence. cbn [of_string list_ascii_of_string map app].
  unfold lstrip_chars, strip, lstrip.
  rewrite !dropwhile_head by reflexivity.
  now rewrite !rstrip_cons by reflexivity.
Qed.

(** X24.  A response cut off before its closing fence is graded with the
    fence in it: when the response starts with three backticks that are
    never closed and holds "def macro_f1(", the trial writes to
    starter/solution.py, and grades, a text that still starts with the
    three backticks. *)
Theorem unclosed_fence_is_submitted (call_claude : nat -> result text)
  (i : nat) (after : text) :
  call_claude i = ok (fence ++ after) ->
  contains fence after = false ->
  contains signature (normalize (fence ++ after)) = true ->
  exists rest, submitted call_claude i = Some (fence ++ rest).
Proof.
  intros Hcall Hopen Hsig. unfold submitted. rewrite Hcall. unfold ok.
  assert (Heq : extract_code (fence ++ after) = normalize (fence ++ after)).
  { rewrite extract_code_eq. unfold fenced_block.
    pose proof (find_fence_app [] after (Forall_nil _)) as Hf.
    cbn [app] in Hf. rewrite Hf.
    apply find_fence_none_iff in Hopen.
    destruct (drop_tag_suffix after) as [q Hq].
    rewrite Hq in Hopen. apply find_fence_none_suffix in Hopen.
    now rewrite Hopen. }
  rewrite Heq, Hsig. destruct (normalize_fence after) as [rest ->].
  eauto.
Qed.

Lemma unclosed_fence_is_submitted_witness :
  exists rest,
    submitted
      (fun _ => ok (fence ++ of_string "python" ++ [10%N]
                    ++ of_string "def macro_f1(y_true, y_pred):"))
      1 = Some (fence ++ rest).
Proof.
  apply (unclosed_fence_is_submitted
           (fun _ => ok (fence ++ of_string "python" ++ [10%N]
                         ++ of_string "def macro_f1(y_true, y_pred):"))
           1 (of_string "python" ++ [10%N]
              ++ of_string "def macro_f1(y_true, y_pred):")).
  - reflexivity.
  - vm_compute. reflexivity.
  - vm_compute. reflexivity.
Defined.
